(** * concierge-acpi: a shallow embedding of the orchestration core

    The development follows the Python sources module by module:

    - [PersistentDict]   persistent_dictionary.py (in-memory mode)
    - [Tasks]            task_executor.py / task_scheduler.py / main_utils.py
                         (the task-record updates written through the store)
    - [Validation]       request_validator.py / request_handler.py
    - [Wol]              task_executor_helper.py, send_wol
    - [WsFrame]          websocket.py, _send_frame / _recv_frame
    - [Token]            websocket.py, issue_token / _verify_token
    - [Plan]             task_scheduler.py, _check_conditions and the
                         interpreter loop of _execute_plan_sync
    - [Placeholders]     task_executor_helper.py, replace_json_placeholders

    and then goes over the same files again for the code around these
    functions:

    - [DictOps]          persistent_dictionary.py, the readers, deletion and
                         sequences of calls
    - [TaskOps]          task_executor.py / main_utils.py, the writers of
                         the task store taken together
    - [Dispatch]         task_executor.py / request_handler.py, a wake-up
                         task from creation to the response code
    - [Requests]         request_validator.py, parse_post_path and
                         validate_hosts
    - [Helper]           task_executor_helper.py, send_wol on any input,
                         replace_placeholders
    - [WsExtra]          websocket.py, opcodes, truncated frames,
                         send_to_client
    - [Completion]       task_executor.py / websocket.py, the completion
                         updates with the status broadcast
    - [TokenUse]         websocket.py, the table of used nonces
    - [Sequence]         task_scheduler.py, _build_execution_sequence,
                         _find_task_index_in_sequence, _check_conditions
    - [StringToken]      task_executor_helper.py, a string placeholder
    - [Jpeg]             task_executor.py, _stream_binary_frames

    Python exceptions are values of [exn]; a function that may raise returns
    its result next to the state it leaves behind. *)

From Stdlib Require Import ZArith List String Ascii Lia Bool.
From Stdlib Require Import DecimalString DecimalPos DecimalZ.
From stdpp Require Import gmap strings list fin_maps.

Local Open Scope general_if_scope.
Local Open Scope Z_scope.

(** Python exceptions that the modelled code raises. *)
Inductive exn : Type :=
| FullDictionaryError
| KeyError
| ValueError (msg : string)
| TypeError (msg : string)
| AttributeError (msg : string)
| RuntimeError (msg : string)
| IndexError.

(** [list.remove(x)]: drops the first occurrence, [None] stands for the
    ValueError Python raises when [x] is absent. *)
Fixpoint py_list_remove {A} `{EqDecision A} (x : A) (l : list A) : option (list A) :=
  match l with
  | [] => None
  | y :: l' => if decide (y = x) then Some l' else cons y <$> py_list_remove x l'
  end.

(** [str(n)] of a Python int. *)
Definition py_str_int (z : Z) : string := NilZero.string_of_int (Z.to_int z).

(** [OrderedDict.pop(key, None)] on a dictionary used as an ordered key set. *)
Fixpoint odict_pop (key : string) (l : list string) : list string :=
  match l with
  | [] => []
  | y :: l' => if decide (y = key) then l' else y :: odict_pop key l'
  end.

(* ======================================================================= *)
(** * persistent_dictionary.py *)
(* ======================================================================= *)

Module PersistentDict.

Section Store.
Context {V : Type}.

(** The fields of [OptionallyPersistentOrderedThreadSafeDict] without a
    filepath: [_db] is the in-memory dictionary, [_order] the key list,
    [_tagged_for_removal] the ordered set of tagged keys. *)
Record store : Type := Store {
  _db : gmap string V;
  _order : list string;
  _tagged_for_removal : list string;
  _max_size : Z
}.

Definition init (max_size : Z) : store :=
  {| _db := ∅; _order := []; _tagged_for_removal := []; _max_size := max_size |}.

Definition len (d : store) : Z := Z.of_nat (length (_order d)).

(** [_set_item]; the returned store is the state at the point where the
    call returns or raises. *)
Definition _set_item (d : store) (key : string) (value : V) : store * option exn :=
  match _db d !! key with
  | Some _ =>
      let db1 := <[key := value]> (_db d) in
      match py_list_remove key (_order d) with
      | None =>
          (Store db1 (_order d) (_tagged_for_removal d) (_max_size d),
           Some (ValueError "list.remove(x): x not in list"))
      | Some o =>
          (Store db1 (o ++ [key]) (odict_pop key (_tagged_for_removal d)) (_max_size d),
           None)
      end
  | None =>
      if (0 <? _max_size d) && (_max_size d <=? len d) then
        match _tagged_for_removal d with
        | [] => (d, Some FullDictionaryError)
        | removal_key :: tagged' =>
            match _db d !! removal_key with
            | None => (Store (_db d) (_order d) tagged' (_max_size d), Some KeyError)
            | Some _ =>
                let db1 := delete removal_key (_db d) in
                match py_list_remove removal_key (_order d) with
                | None =>
                    (Store db1 (_order d) tagged' (_max_size d),
                     Some (ValueError "list.remove(x): x not in list"))
                | Some o =>
                    (Store (<[key := value]> db1) (o ++ [key]) tagged' (_max_size d), None)
                end
            end
        end
      else
        (Store (<[key := value]> (_db d)) (_order d ++ [key])
               (_tagged_for_removal d) (_max_size d), None)
  end.

Definition _del_internal (d : store) (key : string) : store * option exn :=
  match _db d !! key with
  | Some _ =>
      let db1 := delete key (_db d) in
      match py_list_remove key (_order d) with
      | None =>
          (Store db1 (_order d) (_tagged_for_removal d) (_max_size d),
           Some (ValueError "list.remove(x): x not in list"))
      | Some o =>
          (Store db1 o (odict_pop key (_tagged_for_removal d)) (_max_size d), None)
      end
  | None => (d, None)
  end.

Definition tag_for_removal (d : store) (key : string) : store :=
  if bool_decide (key ∈ _order d) && bool_decide (key ∉ _tagged_for_removal d)
  then Store (_db d) (_order d) (_tagged_for_removal d ++ [key]) (_max_size d)
  else d.

Definition get (d : store) (key : string) : option V := _db d !! key.

Definition contains (d : store) (key : string) : bool :=
  bool_decide (key ∈ _order d) && bool_decide (is_Some (_db d !! key)).

Definition keys (d : store) : list string := _order d.

(** [get_items_reversed]: [None] is the KeyError of a key of [_order]
    that is missing from [_db]. *)
Definition get_items_reversed (d : store) : option (list V) :=
  mapM (λ key, _db d !! key) (reverse (_order d)).

(** The operations that change a store. *)
Inductive op : Type :=
| OpSet (key : string) (value : V)
| OpDel (key : string)
| OpTag (key : string).

Definition run (o : op) (d : store) : store * option exn :=
  match o with
  | OpSet k v => _set_item d k v
  | OpDel k => _del_internal d k
  | OpTag k => (tag_for_removal d k, None)
  end.

(** Representation invariant of the three fields: the key list has no
    duplicates and lists exactly the keys of [_db]; tags are distinct
    keys of the store. *)
Definition wf (d : store) : Prop :=
  NoDup (_order d) ∧ NoDup (_tagged_for_removal d) ∧
  dom (_db d) = list_to_set (_order d) ∧
  Forall (λ k, k ∈ _order d) (_tagged_for_removal d).

#[global] Instance wf_dec d : Decision (wf d).
Proof. unfold wf. apply _. Defined.

(** ** Facts on the list helpers *)

Lemma py_list_remove_is_Some (x : string) (l : list string) :
  x ∈ l → is_Some (py_list_remove x l).
Proof.
  induction l as [|y l IH]; intros Hin.
  - by apply elem_of_nil in Hin.
  - simpl. case_decide as Hyx; [by eexists|].
    apply elem_of_cons in Hin as [->|Hin]; [done|].
    destruct (IH Hin) as [o ->]. by eexists.
Qed.

Lemma py_list_remove_elem (x : string) (l o : list string) :
  py_list_remove x l = Some o → ∀ y, y ∈ l ↔ y = x ∨ y ∈ o.
Proof.
  revert o. induction l as [|y l IH]; intros o Hrm z; [done|].
  simpl in Hrm. case_decide as Hyx.
  - simplify_eq. by rewrite elem_of_cons.
  - destruct (py_list_remove x l) as [o'|] eqn:Ho; simplify_eq/=.
    rewrite !elem_of_cons. rewrite (IH o' eq_refl z). tauto.
Qed.

Lemma filter_ne_absent (x : string) (l : list string) :
  x ∉ l → filter (λ y, y ≠ x) l = l.
Proof.
  induction l as [|y l IH]; intros Hx; [done|].
  apply not_elem_of_cons in Hx as [Hxy Hx].
  rewrite filter_cons_True; [|by intros ->]. by rewrite IH.
Qed.

Lemma py_list_remove_filter (x : string) (l o : list string) :
  NoDup l → py_list_remove x l = Some o → o = filter (λ y, y ≠ x) l.
Proof.
  revert o. induction l as [|y l IH]; intros o Hnd Hrm; [done|].
  apply NoDup_cons in Hnd as [Hy Hnd]. simpl in Hrm. case_decide as Hyx.
  - simplify_eq. rewrite filter_cons_False; [|by intros []].
    by rewrite filter_ne_absent.
  - destruct (py_list_remove x l) as [o'|] eqn:Ho; simplify_eq/=.
    rewrite filter_cons_True; [|done]. f_equal. by apply IH.
Qed.

Lemma py_list_remove_length (x : string) (l o : list string) :
  py_list_remove x l = Some o → length l = S (length o).
Proof.
  revert o. induction l as [|y l IH]; intros o Hrm; [done|].
  simpl in Hrm. case_decide; simplify_eq/=; [done|].
  destruct (py_list_remove x l) as [o'|] eqn:Ho; simplify_eq/=.
  f_equal. by apply IH.
Qed.

Lemma odict_pop_filter (key : string) (l : list string) :
  NoDup l → odict_pop key l = filter (λ y, y ≠ key) l.
Proof.
  induction l as [|y l IH]; intros Hnd; [done|].
  apply NoDup_cons in Hnd as [Hy Hnd]. simpl. case_decide.
  - subst. rewrite filter_cons_False; [|by intros []]. by rewrite filter_ne_absent.
  - rewrite filter_cons_True; [|done]. by rewrite IH.
Qed.

(** ** The invariant holds of every store the operations build *)

Lemma wf_init (m : Z) : wf (init m).
Proof.
  unfold wf, init; simpl. split_and!; by try constructor.
Qed.

Lemma wf_filter_order (d : store) (x : string) db' :
  wf d → dom db' = dom (_db d) ∖ {[x]} →
  wf (Store db' (filter (λ y, y ≠ x) (_order d))
            (filter (λ y, y ≠ x) (_tagged_for_removal d)) (_max_size d)).
Proof.
  intros (Ho & Ht & Hdom & Hsub) Hdb. unfold wf; simpl. split_and!.
  - by apply NoDup_filter.
  - by apply NoDup_filter.
  - rewrite Hdb, Hdom. apply set_eq. intros k.
    rewrite elem_of_difference, !elem_of_list_to_set, list_elem_of_filter.
    rewrite not_elem_of_singleton. tauto.
  - apply Forall_forall. intros k Hk.
    apply list_elem_of_filter in Hk as [Hne Hk].
    apply list_elem_of_filter. split; [done|].
    by eapply Forall_forall in Hsub.
Qed.

Lemma wf_append (d : store) (key : string) (value : V) :
  wf d → key ∉ _order d →
  wf (Store (<[key := value]> (_db d)) (_order d ++ [key])
            (_tagged_for_removal d) (_max_size d)).
Proof.
  intros (Ho & Ht & Hdom & Hsub) Hk. unfold wf; simpl. split_and!.
  - apply NoDup_app. split_and!; [done| |apply NoDup_singleton].
    intros x Hx Hx'. apply list_elem_of_singleton in Hx'. by subst.
  - done.
  - rewrite dom_insert_L, Hdom, list_to_set_app_L. simpl.
    by rewrite (right_id_L ∅ (∪)), (comm_L (∪)).
  - eapply Forall_impl; [exact Hsub|]. intros k Hin. simpl in Hin.
    apply elem_of_app. by left.
Qed.

Lemma wf_in_order (d : store) (k : string) :
  wf d → k ∈ _order d ↔ is_Some (_db d !! k).
Proof.
  intros (_ & _ & Hdom & _). rewrite <- elem_of_dom, Hdom. by rewrite elem_of_list_to_set.
Qed.

Lemma wf_remove_order (d : store) (k : string) :
  wf d → is_Some (_db d !! k) →
  py_list_remove k (_order d) = Some (filter (λ y, y ≠ k) (_order d)).
Proof.
  intros Hwf Hk. apply (wf_in_order d k Hwf) in Hk.
  destruct (py_list_remove_is_Some _ _ Hk) as [o Ho].
  rewrite Ho. f_equal. apply py_list_remove_filter; [apply Hwf|done].
Qed.

(** [_set_item] on a key of the store: the update path. *)
Lemma _set_item_existing (d : store) (key : string) (value old : V) :
  wf d → _db d !! key = Some old →
  _set_item d key value =
    (Store (<[key := value]> (_db d))
           (filter (λ y, y ≠ key) (_order d) ++ [key])
           (filter (λ y, y ≠ key) (_tagged_for_removal d)) (_max_size d), None).
Proof.
  intros Hwf Hk. unfold _set_item. rewrite Hk.
  rewrite (wf_remove_order d key Hwf) by (by eexists).
  rewrite odict_pop_filter by apply Hwf. done.
Qed.

(** [_set_item] on a new key when the store is full and a tag is queued. *)
Lemma _set_item_evicts (d : store) (key t : string) (ts : list string) (value : V) :
  wf d → _db d !! key = None → 0 < _max_size d → _max_size d <= len d →
  _tagged_for_removal d = t :: ts →
  _set_item d key value =
    (Store (<[key := value]> (delete t (_db d)))
           (filter (λ y, y ≠ t) (_order d) ++ [key]) ts (_max_size d), None).
Proof.
  intros Hwf Hk Hpos Hfull Htag. unfold _set_item. rewrite Hk, Htag.
  assert (is_Some (_db d !! t)) as Ht.
  { apply (wf_in_order d t Hwf). destruct Hwf as (_ & _ & _ & Hsub).
    rewrite Htag in Hsub. by apply Forall_cons in Hsub as [? _]. }
  rewrite (wf_remove_order d t Hwf Ht). destruct Ht as [w ->].
  replace (0 <? _max_size d) with true by (symmetry; by apply Z.ltb_lt).
  replace (_max_size d <=? len d) with true by (symmetry; by apply Z.leb_le).
  done.
Qed.

Lemma _set_item_full (d : store) (key : string) (value : V) :
  _db d !! key = None → 0 < _max_size d → _max_size d <= len d →
  _tagged_for_removal d = [] →
  _set_item d key value = (d, Some FullDictionaryError).
Proof.
  intros Hk Hpos Hfull Htag. unfold _set_item. rewrite Hk, Htag.
  replace (0 <? _max_size d) with true by (symmetry; by apply Z.ltb_lt).
  replace (_max_size d <=? len d) with true by (symmetry; by apply Z.leb_le).
  done.
Qed.

Lemma _set_item_room (d : store) (key : string) (value : V) :
  _db d !! key = None → ¬ (0 < _max_size d <= len d) →
  _set_item d key value =
    (Store (<[key := value]> (_db d)) (_order d ++ [key])
           (_tagged_for_removal d) (_max_size d), None).
Proof.
  intros Hk Hroom. unfold _set_item. rewrite Hk.
  destruct (0 <? _max_size d) eqn:H1; [|done].
  destruct (_max_size d <=? len d) eqn:H2; [|done].
  apply Z.ltb_lt in H1. apply Z.leb_le in H2. lia.
Qed.

(** Whatever the operation, a key that disappears from [_db] is the key
    of an explicit delete or the head of the tag queue taken by a set. *)
Lemma run_removes_only (d : store) (o : op) (k' : string) :
  is_Some (_db d !! k') → _db (run o d).1 !! k' = None →
  o = OpDel k' ∨
  ((∃ k v, o = OpSet k v) ∧ head (_tagged_for_removal d) = Some k').
Proof.
  intros [w Hw] Hgone. destruct o as [k v|k|k]; simpl in Hgone.
  - right. split; [by eauto|]. unfold _set_item in Hgone.
    destruct (_db d !! k) as [old|] eqn:Hk.
    + destruct (py_list_remove k (_order d)); simpl in Hgone;
        destruct (decide (k = k')) as [->|Hne];
        rewrite ?lookup_insert_eq, ?lookup_insert_ne in Hgone by done; congruence.
    + destruct ((0 <? _max_size d) && (_max_size d <=? len d)).
      * destruct (_tagged_for_removal d) as [|t ts]; simpl in *; [congruence|].
        destruct (_db d !! t) eqn:Ht; simpl in Hgone; [|congruence].
        destruct (decide (t = k')) as [->|Hne]; [done|].
        destruct (py_list_remove t (_order d)); simpl in Hgone.
        -- destruct (decide (k = k')) as [->|Hne'].
           ++ by rewrite lookup_insert_eq in Hgone.
           ++ rewrite lookup_insert_ne, lookup_delete_ne in Hgone by done. congruence.
        -- rewrite lookup_delete_ne in Hgone by done. congruence.
      * simpl in Hgone. destruct (decide (k = k')) as [->|Hne].
        -- by rewrite lookup_insert_eq in Hgone.
        -- rewrite lookup_insert_ne in Hgone by done. congruence.
  - left. unfold _del_internal in Hgone.
    destruct (_db d !! k) eqn:Hk; simpl in Hgone; [|congruence].
    destruct (decide (k = k')) as [->|Hne]; [done|].
    destruct (py_list_remove k (_order d)); simpl in Hgone;
      rewrite lookup_delete_ne in Hgone by done; congruence.
  - unfold tag_for_removal in Hgone.
    destruct (_ && _); simpl in Hgone; congruence.
Qed.

Lemma tag_for_removal_queues (d : store) (k : string) :
  k ∈ _order d → k ∉ _tagged_for_removal d →
  _tagged_for_removal (tag_for_removal d k) = _tagged_for_removal d ++ [k].
Proof.
  intros Hin Hnot. unfold tag_for_removal.
  rewrite !bool_decide_eq_true_2 by done. done.
Qed.

Lemma tag_for_removal_tagged (d : store) (k : string) :
  k ∈ _tagged_for_removal d → tag_for_removal d k = d.
Proof.
  intros Hin. unfold tag_for_removal.
  rewrite (bool_decide_eq_false_2 (k ∉ _)) by tauto.
  by rewrite andb_false_r.
Qed.

(** C4. A set of a new key into a full store ([max_size > 0] and
    [len = max_size]) evicts the earliest-tagged entry and inserts the
    key when a tag is queued (tags queue up in tagging order), and raises
    FullDictionaryError leaving entries, order and tags as they were when
    nothing is tagged; and no operation removes an entry that is neither
    explicitly deleted nor the tagged head taken by such a set. *)
Theorem capacity_policy (d : store) (key : string) (value : V) :
  wf d →
  (_db d !! key = None → 0 < _max_size d → len d = _max_size d →
     (∀ t ts, _tagged_for_removal d = t :: ts →
        _set_item d key value =
          (Store (<[key := value]> (delete t (_db d)))
                 (filter (λ y, y ≠ t) (_order d) ++ [key]) ts (_max_size d), None)) ∧
     (_tagged_for_removal d = [] →
        _set_item d key value = (d, Some FullDictionaryError))) ∧
  (∀ k, k ∈ _order d → k ∉ _tagged_for_removal d →
     _tagged_for_removal (tag_for_removal d k) = _tagged_for_removal d ++ [k]) ∧
  (∀ o k', is_Some (_db d !! k') → _db (run o d).1 !! k' = None →
     o = OpDel k' ∨ ((∃ k v, o = OpSet k v) ∧ k' ∈ _tagged_for_removal d)).
Proof.
  intros Hwf. split_and!.
  - intros Hk Hpos Hlen. split.
    + intros t ts Htag. apply _set_item_evicts; try done. lia.
    + intros Htag. apply _set_item_full; try done. lia.
  - apply tag_for_removal_queues.
  - intros o k' Hin Hgone.
    destruct (run_removes_only d o k' Hin Hgone) as [?|[? Hhd]]; [by left|right].
    split; [done|]. destruct (_tagged_for_removal d); simplify_eq/=.
    apply elem_of_cons. by left.
Qed.

Lemma wf_run (d : store) (o : op) : wf d → wf (run o d).1.
Proof.
  intros Hwf. destruct o as [k v|k|k]; simpl.
  - destruct (_db d !! k) as [old|] eqn:Hk.
    + rewrite (_set_item_existing d k v old Hwf Hk). simpl.
      rewrite <- insert_delete_eq.
      pose proof (wf_append (Store (delete k (_db d))
                     (filter (λ y, y ≠ k) (_order d))
                     (filter (λ y, y ≠ k) (_tagged_for_removal d))
                     (_max_size d)) k v) as Happ.
      simpl in Happ. apply Happ.
      * apply wf_filter_order; [done|]. by rewrite dom_delete_L.
      * rewrite list_elem_of_filter. tauto.
    + assert (k ∉ _order d) as Hnot.
      { rewrite (wf_in_order d k Hwf), Hk. by intros [? ?]. }
      destruct (decide (0 < _max_size d <= len d)) as [[Hpos Hfull]|Hroom].
      * destruct (_tagged_for_removal d) as [|t ts] eqn:Htag.
        -- by rewrite _set_item_full.
        -- rewrite (_set_item_evicts d k t ts) by done. simpl.
           pose proof (wf_filter_order d t (delete t (_db d)) Hwf) as Hf.
           assert (t ∉ ts) as Hts.
           { destruct Hwf as (_ & Hnd & _). rewrite Htag in Hnd.
             apply NoDup_cons in Hnd. tauto. }
           rewrite Htag in Hf. rewrite filter_cons_False in Hf by (by intros []).
           rewrite (filter_ne_absent t ts) in Hf by done.
           pose proof (wf_append (Store (delete t (_db d))
                          (filter (λ y, y ≠ t) (_order d)) ts (_max_size d)) k v) as Happ.
           simpl in Happ. apply Happ.
           ++ apply Hf. by rewrite dom_delete_L.
           ++ rewrite list_elem_of_filter. tauto.
      * rewrite _set_item_room by done. simpl. by apply wf_append.
  - unfold _del_internal. destruct (_db d !! k) as [old|] eqn:Hk; [|done].
    rewrite (wf_remove_order d k Hwf) by (by eexists). simpl.
    rewrite odict_pop_filter by apply Hwf.
    apply wf_filter_order; [done|]. by rewrite dom_delete_L.
  - unfold tag_for_removal.
    destruct (bool_decide (k ∈ _order d)) eqn:Hin; simpl; [|done].
    destruct (bool_decide (k ∉ _tagged_for_removal d)) eqn:Hnot; simpl; [|done].
    apply bool_decide_eq_true_1 in Hin, Hnot.
    destruct Hwf as (Ho & Ht & Hdom & Hsub). unfold wf; simpl. split_and!; try done.
    + apply NoDup_app. split_and!; [done| |apply NoDup_singleton].
      intros x Hx Hx'. apply list_elem_of_singleton in Hx'. by subst.
    + apply Forall_app. split; [done|]. by apply Forall_singleton.
Qed.

(** A set that returns normally has stored the value. *)
Lemma _set_item_stored (d d' : store) (key : string) (value : V) :
  _set_item d key value = (d', None) → _db d' !! key = Some value.
Proof.
  unfold _set_item. intros Hset.
  repeat match type of Hset with
         | context [match ?x with _ => _ end] => destruct x; try discriminate
         end;
    injection Hset as <-; simpl; apply lookup_insert_eq.
Qed.

(** Under the invariant the only exception of [_set_item] is
    FullDictionaryError, and then the store is the one it was given. *)
Lemma _set_item_raises (d : store) (key : string) (value : V) (e : exn) :
  wf d → (_set_item d key value).2 = Some e →
  e = FullDictionaryError ∧ (_set_item d key value).1 = d.
Proof.
  intros Hwf. destruct (_db d !! key) as [old|] eqn:Hk.
  - by rewrite (_set_item_existing d key value old Hwf Hk).
  - destruct (decide (0 < _max_size d <= len d)) as [[Hpos Hfull]|Hroom].
    + destruct (_tagged_for_removal d) as [|t ts] eqn:Htag.
      * rewrite _set_item_full by done. simpl. by intros [= <-].
      * by rewrite (_set_item_evicts d key t ts).
    + by rewrite _set_item_room.
Qed.

(** C9. A set of a key already in the store returns normally without
    removing any entry (also when the store is full), clears the key's
    tag and no other, replaces the key's value and no other, and moves
    the key to the end of the exposed order, so that the newest-first
    listing starts with the new value. *)
Theorem set_existing_key (d : store) (key : string) (value old : V) :
  wf d → _db d !! key = Some old →
  let d' := (_set_item d key value).1 in
  (_set_item d key value).2 = None ∧
  (∀ k, is_Some (_db d' !! k) ↔ is_Some (_db d !! k)) ∧
  len d' = len d ∧
  (key ∉ _tagged_for_removal d') ∧
  (∀ k, k ≠ key → (k ∈ _tagged_for_removal d' ↔ k ∈ _tagged_for_removal d)) ∧
  _db d' !! key = Some value ∧
  (∀ k, k ≠ key → _db d' !! k = _db d !! k) ∧
  keys d' = filter (λ y, y ≠ key) (keys d) ++ [key] ∧
  (∃ rest, get_items_reversed d' = Some (value :: rest)).
Proof.
  intros Hwf Hk d'.
  pose proof (wf_run d (OpSet key value) Hwf) as Hwf'. simpl in Hwf'. fold d' in Hwf'.
  subst d'. rewrite (_set_item_existing d key value old Hwf Hk) in *. simpl.
  split_and!.
  - done.
  - intros k. destruct (decide (key = k)) as [->|Hne].
    + rewrite lookup_insert_eq, Hk. split; by eauto.
    + by rewrite lookup_insert_ne.
  - unfold len; simpl. f_equal.
    pose proof (wf_remove_order d key Hwf (ltac:(by eexists))) as Hrm.
    apply py_list_remove_length in Hrm. rewrite length_app. simpl. lia.
  - rewrite list_elem_of_filter. tauto.
  - intros k Hne. rewrite list_elem_of_filter. tauto.
  - by rewrite lookup_insert_eq.
  - intros k Hne. by rewrite lookup_insert_ne.
  - done.
  - unfold get_items_reversed; simpl. rewrite reverse_app. simpl.
    rewrite lookup_insert_eq. simpl.
    assert (is_Some (mapM (λ k, <[key:=value]> (_db d) !! k)
                          (reverse (filter (λ y, y ≠ key) (_order d))))) as [rest Hrest].
    { apply mapM_is_Some. apply Forall_forall. intros k Hin. simpl.
      apply elem_of_reverse, list_elem_of_filter in Hin as [Hne Hin].
      rewrite lookup_insert_ne by done. by apply (wf_in_order d k Hwf). }
    exists rest. by rewrite Hrest.
Qed.

End Store.

Arguments store : clear implicits.

(** A full store of two entries, tagged in the order k2, k1. *)
Definition ex_full : store nat :=
  Store (<["k2" := 20%nat]> (<["k1" := 10%nat]> ∅)) ["k1"; "k2"] ["k2"; "k1"] 2.

Lemma wf_ex_full : wf ex_full.
Proof. apply (bool_decide_unpack _). vm_compute. exact I. Defined.

Lemma capacity_policy_witness :
  wf ex_full ∧
  _set_item ex_full "k3" 30%nat =
    (Store (<["k3" := 30%nat]> (delete "k2" (_db ex_full))) ["k1"; "k3"] ["k1"] 2, None).
Proof.
  split; [exact wf_ex_full|].
  destruct (capacity_policy ex_full "k3" 30%nat wf_ex_full) as (Hset & _).
  destruct Hset as (Hevict & _); [reflexivity|reflexivity|reflexivity|].
  exact (Hevict "k2" ["k1"] eq_refl).
Defined.

Lemma set_existing_key_witness :
  wf ex_full ∧
  keys (_set_item ex_full "k1" 11%nat).1 = ["k2"; "k1"] ∧
  _tagged_for_removal (_set_item ex_full "k1" 11%nat).1 = ["k2"] ∧
  ∃ rest, get_items_reversed (_set_item ex_full "k1" 11%nat).1 = Some (11%nat :: rest).
Proof.
  split; [exact wf_ex_full|].
  destruct (set_existing_key ex_full "k1" 11%nat 10%nat wf_ex_full eq_refl)
    as (_ & _ & _ & _ & _ & _ & _ & Hkeys & Hrev).
  split; [exact Hkeys|]. split; [reflexivity|exact Hrev].
Defined.

End PersistentDict.

(* ======================================================================= *)
(** * Task records and their updates
      (task_executor.py, task_scheduler.py, main_utils.py) *)
(* ======================================================================= *)

Module Tasks.
Import PersistentDict.

(** An item of [success] or [errors]; every key of the Python dict is
    optional. *)
Record entry : Type := Entry {
  e_hostname : option string;
  e_error : option string;
  e_output : option string;
  e_response_code : option Z
}.

Record plan_task_state : Type := PlanTaskState {
  status : string;
  timestamp : Z
}.

(** The value under ["plan_tasks"]: [create_task] stores a list, the
    scheduler a dict keyed by [str(task_idx)]. *)
Inductive plan_tasks_value : Type :=
| PlanTasksList (l : list plan_task_state)
| PlanTasksDict (m : gmap string plan_task_state).

(** The task dict. An item of [running] is the dict [{"hostname": h}],
    kept as [h]. *)
Record task : Type := Task {
  task_id : string;
  start_timestamp : Z;
  end_timestamp : option Z;
  command : option string;
  execution_plan : option string;
  plan_tasks : option plan_tasks_value;
  success : list entry;
  running : list string;
  errors : list entry
}.

Definition set_running (r : list string) (t : task) : task :=
  Task (task_id t) (start_timestamp t) (end_timestamp t) (command t)
       (execution_plan t) (plan_tasks t) (success t) r (errors t).

Definition set_end_timestamp (e : option Z) (t : task) : task :=
  Task (task_id t) (start_timestamp t) e (command t)
       (execution_plan t) (plan_tasks t) (success t) (running t) (errors t).

Definition set_plan_tasks (p : option plan_tasks_value) (t : task) : task :=
  Task (task_id t) (start_timestamp t) (end_timestamp t) (command t)
       (execution_plan t) p (success t) (running t) (errors t).

Inductive field : Type := F_success | F_errors.

(** [task[field].append(value)] *)
Definition append_to (f : field) (value : entry) (t : task) : task :=
  match f with
  | F_success =>
      Task (task_id t) (start_timestamp t) (end_timestamp t) (command t)
           (execution_plan t) (plan_tasks t) (success t ++ [value]) (running t) (errors t)
  | F_errors =>
      Task (task_id t) (start_timestamp t) (end_timestamp t) (command t)
           (execution_plan t) (plan_tasks t) (success t) (running t) (errors t ++ [value])
  end.

(** [if hostname_dict in task["running"]: task["running"].remove(hostname_dict)] *)
Definition drop_running (h : string) (t : task) : task :=
  match py_list_remove h (running t) with
  | Some r => set_running r t
  | None => t
  end.

(** [if "end_timestamp" not in task: task["end_timestamp"] = now] *)
Definition stamp_end (now : Z) (t : task) : task :=
  match end_timestamp t with
  | Some _ => t
  | None => set_end_timestamp (Some now) t
  end.

(** The tail shared by the completion updates:
[[
    if not task["running"]:
        if "end_timestamp" not in task: task["end_timestamp"] = now
        self.db.tag_for_removal(task_id)
    self.db[task_id] = task
]] *)
Definition close_and_store (d : store task) (tid : string) (t : task) (now : Z)
  : store task * option exn :=
  match running t with
  | [] => _set_item (tag_for_removal d tid) tid (stamp_end now t)
  | _ :: _ => _set_item d tid t
  end.

(** [TaskExecutor._atomic_task_update] *)
Definition _atomic_task_update (d : store task) (tid : string) (f : field)
    (value : entry) (now : Z) : store task * option exn :=
  match get d tid with
  | None => (d, Some KeyError)
  | Some t =>
      match e_hostname value with
      | None => (d, Some KeyError)
      | Some h => close_and_store d tid (append_to f value (drop_running h t)) now
      end
  end.

(** [HTTPProcess._update_tasks] *)
Definition _update_tasks (d : store task) (tid hostname : string) (aborted ok : bool)
    (error_msg output : option string) (response_code : option Z) (now : Z)
  : store task * option exn :=
  match get d tid with
  | None => (d, None)
  | Some t =>
      let t1 :=
        if aborted then
          append_to F_errors (Entry (Some hostname) (Some "Task aborted"%string) None None) t
        else if ok then
          append_to F_success (Entry (Some hostname) None output response_code) t
        else
          append_to F_errors
            (Entry (Some hostname)
                   (Some (match error_msg with
                          | Some m => if bool_decide (m = ""%string) then "Unknown error"%string else m
                          | None => "Unknown error"%string
                          end))
                   output response_code) t in
      close_and_store d tid (drop_running hostname t1) now
  end.

(** The record that [StreamableProcess._update_task] builds before it
    takes the host out of [running]: one entry more, in [success] for a
    process that ended with return code 0 and otherwise in [errors].
    [error] is [None] when the argument is falsy; [proc] is [None] when
    [self.proc] is not set and holds [self.proc.returncode] otherwise,
    itself [None] for a process without an exit status. *)
Definition shell_outcome (hostname : string) (error : option string) (aborted : bool)
    (proc : option (option Z)) (t : task) : task :=
  let err m := append_to F_errors (Entry (Some hostname) (Some m) None None) t in
  match error, aborted, proc with
  | Some m, _, _ => err m
  | None, true, _ => err "Aborted"%string
  | None, false, Some (Some 0) => append_to F_success (Entry (Some hostname) None None None) t
  | None, false, Some (Some rc) => err ("Exit code " +:+ py_str_int rc)
  | None, false, Some None => err "Exit code None"%string
  | None, false, None => err "Process failed to start"%string
  end.

(** The status that [_update_task] broadcasts; it is chosen by the
    return code alone. *)
Definition shell_status (proc : option (option Z)) : string :=
  match proc with
  | Some (Some 0) => "success"
  | _ => "error"
  end.

Section Shell.

(** The WebSocket manager that a [StreamableProcess] was built with: a
    state [W] and [broadcast_status(task_id, hostname, status)], which
    changes the state and may raise. *)
Context {W : Type}.
Variable broadcast_status : string → string → string → W → W * option exn.

(** [StreamableProcess._update_task]; [ws_manager] is [None] when
    [self.ws_manager] is not set. The record is written before the
    status is broadcast, so an exception of the broadcast leaves the
    store updated. *)
Definition _update_task (d : store task) (ws_manager : option W) (tid hostname : string)
    (error : option string) (aborted : bool) (proc : option (option Z)) (now : Z)
  : store task * option W * option exn :=
  match get d tid with
  | None => (d, ws_manager, None)
  | Some t =>
      match close_and_store d tid
              (drop_running hostname (shell_outcome hostname error aborted proc t)) now with
      | (d1, Some e) => (d1, ws_manager, Some e)
      | (d1, None) =>
          match ws_manager with
          | None => (d1, None, None)
          | Some ws =>
              let '(ws1, e) := broadcast_status tid hostname (shell_status proc) ws in
              (d1, Some ws1, e)
          end
      end
  end.

End Shell.

(** The block that ends [TaskScheduler._execute_plan_sync]:
[[
    task = self.db.get(parent_task_id)
    if task and not task.get("running"):
        if "end_timestamp" not in task: task["end_timestamp"] = now
        self.db.tag_for_removal(parent_task_id)
        self.db[parent_task_id] = task
]] *)
Definition plan_loop_end (d : store task) (parent_task_id : string) (now : Z)
  : store task * option exn :=
  match get d parent_task_id with
  | None => (d, None)
  | Some t =>
      match running t with
      | [] => _set_item (tag_for_removal d parent_task_id) parent_task_id (stamp_end now t)
      | _ :: _ => (d, None)
      end
  end.

(** [main_utils.recover_dropped_tasks], the body of the loop for one key:
    here the record is stored first and tagged afterwards. *)
Definition recover_one (d : store task) (k : string) (now : Z) : store task * option exn :=
  match get d k with
  | None => (d, None)
  | Some v =>
      match running v with
      | [] => (d, None)
      | dropped =>
          let lost := map (λ h, Entry (Some h) (Some "Process dropped during restart"%string)
                                      None None) dropped in
          let v1 := Task (task_id v) (start_timestamp v) (end_timestamp v) (command v)
                         (execution_plan v) (plan_tasks v) (success v) [] (errors v ++ lost) in
          match _set_item d k (stamp_end now v1) with
          | (d1, None) => (tag_for_removal d1 k, None)
          | (d1, Some e) => (d1, Some e)
          end
      end
  end.

Fixpoint recover_keys (d : store task) (ks : list string) (now : Z) : store task * option exn :=
  match ks with
  | [] => (d, None)
  | k :: ks' =>
      match recover_one d k now with
      | (d1, None) => recover_keys d1 ks' now
      | (d1, Some e) => (d1, Some e)
      end
  end.

Definition recover_dropped_tasks (d : store task) (now : Z) : store task * option exn :=
  recover_keys d (keys d) now.

(** [TaskExecutor.create_task]; the fresh uuid and the clock are
    arguments, [hostnames] are the keys of [entries]. *)
Definition new_task (tid : string) (command_name : option string) (hostnames : list string)
    (plan : option string) (now : Z) : task :=
  Task tid now None command_name plan
       (match plan with
        | Some p => if bool_decide (p = ""%string) then None else Some (PlanTasksList [])
        | None => None
        end)
       [] hostnames [].

Definition create_task (d : store task) (tid : string) (command_name : option string)
    (hostnames : list string) (plan : option string) (now : Z) : store task * option exn :=
  _set_item d tid (new_task tid command_name hostnames plan now).

(** [TaskScheduler._update_plan_task_status]; indexing the list that
    [create_task] stored with a string raises TypeError. *)
Definition _update_plan_task_status (d : store task) (parent_task_id : string)
    (task_idx : Z) (st : string) (now : Z) : store task * option exn :=
  match get d parent_task_id with
  | None => (d, None)
  | Some t =>
      match plan_tasks t with
      | Some (PlanTasksList _) =>
          (d, Some (TypeError "list indices must be integers or slices, not str"))
      | Some (PlanTasksDict m) =>
          _set_item d parent_task_id
            (set_plan_tasks (Some (PlanTasksDict (<[py_str_int task_idx := PlanTaskState st now]> m))) t)
      | None =>
          _set_item d parent_task_id
            (set_plan_tasks (Some (PlanTasksDict {[py_str_int task_idx := PlanTaskState st now]})) t)
      end
  end.

(** [TaskScheduler._update_parent_task_progress]; a list has no
    [values()], which is an AttributeError. *)
Definition _update_parent_task_progress (d : store task) (parent_task_id : string)
  : store task * option exn :=
  match get d parent_task_id with
  | None => (d, None)
  | Some t =>
      match plan_tasks t with
      | Some (PlanTasksList _) => (d, Some (AttributeError "'list' object has no attribute 'values'"))
      | other =>
          let m := match other with Some (PlanTasksDict m) => m | _ => ∅ end in
          let completed :=
            length (filter (λ kv, status kv.2 = "completed"%string) (map_to_list m)) in
          let total := size m in
          _set_item d parent_task_id
            (set_running ["Plan progress: " +:+ py_str_int (Z.of_nat completed) +:+ "/"
                            +:+ py_str_int (Z.of_nat total)] t)
      end
  end.

(** Invariant (b) of the task record. *)
Definition ended_iff_idle (t : task) : Prop :=
  is_Some (end_timestamp t) ↔ running t = [].

(** The record that a completion update writes back. *)
Definition closed (now : Z) (t : task) : task :=
  match running t with
  | [] => stamp_end now t
  | _ :: _ => t
  end.

(** ** Invariant (b) along the completion updates *)

Lemma drop_running_end (h : string) (t : task) :
  end_timestamp (drop_running h t) = end_timestamp t.
Proof. unfold drop_running. by destruct (py_list_remove h (running t)). Qed.

Lemma drop_running_idle (h : string) (t : task) :
  running t = [] → running (drop_running h t) = [].
Proof. unfold drop_running. intros Hr. by rewrite Hr. Qed.

Lemma closed_ended_iff_idle (now : Z) (t : task) :
  (is_Some (end_timestamp t) → running t = []) → ended_iff_idle (closed now t).
Proof.
  intros Hend. unfold ended_iff_idle, closed, stamp_end.
  destruct (running t) as [|h r] eqn:Hr.
  - destruct (end_timestamp t) eqn:He; simpl; rewrite ?He, ?Hr; split; by eauto.
  - rewrite Hr. split; [|done]. intros Hs. by apply Hend in Hs.
Qed.

(** A completion update keeps (b): the record written back by
    [_atomic_task_update], [_update_task] and [_update_tasks]. *)
Lemma completion_keeps_ended_iff_idle (now : Z) (h : string) (f : field) (v : entry) (t : task) :
  ended_iff_idle t →
  ended_iff_idle (closed now (append_to f v (drop_running h t))) ∧
  ended_iff_idle (closed now (drop_running h (append_to f v t))).
Proof.
  intros [Hend _]. split; apply closed_ended_iff_idle.
  - destruct f; simpl; rewrite drop_running_end; intros Hs;
      by apply drop_running_idle, Hend.
  - rewrite drop_running_end. destruct f; simpl; intros Hs;
      by apply drop_running_idle, Hend.
Qed.


(** ** What the store holds after an update *)

Lemma tag_for_removal_db (d : store task) (k : string) :
  _db (tag_for_removal d k) = _db d.
Proof. unfold tag_for_removal. by destruct (_ && _). Qed.

Lemma set_after_tag (d : store task) (tid : string) (old t : task) :
  wf d → get d tid = Some old →
  let r := _set_item (tag_for_removal d tid) tid t in
  r.2 = None ∧ get r.1 tid = Some t ∧ (tid ∉ _tagged_for_removal r.1) ∧ wf r.1.
Proof.
  intros Hwf Hget r.
  pose proof (wf_run d (OpTag tid) Hwf) as Hwf1. simpl in Hwf1.
  pose proof (wf_run _ (OpSet tid t) Hwf1) as Hwf2. simpl in Hwf2.
  subst r. unfold get in *.
  rewrite (_set_item_existing _ tid t old Hwf1) in *
    by (by rewrite tag_for_removal_db).
  simpl. split_and!; [done| |by rewrite list_elem_of_filter; tauto|done].
  by rewrite lookup_insert_eq.
Qed.

Lemma close_and_store_spec (d : store task) (tid : string) (old t : task) (now : Z) :
  wf d → get d tid = Some old →
  let r := close_and_store d tid t now in
  r.2 = None ∧ get r.1 tid = Some (closed now t) ∧
  (tid ∉ _tagged_for_removal r.1) ∧ wf r.1.
Proof.
  intros Hwf Hget. unfold close_and_store, closed.
  destruct (running t) as [|h hs] eqn:Hr.
  - by apply (set_after_tag d tid old).
  - pose proof (wf_run d (OpSet tid t) Hwf) as Hwf2. simpl in Hwf2.
    unfold get in *. rewrite (_set_item_existing d tid t old Hwf Hget) in *.
    simpl. split_and!; [done| |by rewrite list_elem_of_filter; tauto|done].
    by rewrite lookup_insert_eq.
Qed.

(** [_atomic_task_update] stamps the end of an emptied task, yet the
    write-back that follows the tagging clears the tag again. *)
Lemma _atomic_task_update_spec (d : store task) (tid h : string) (f : field)
    (v : entry) (old : task) (now : Z) :
  wf d → get d tid = Some old → e_hostname v = Some h →
  let r := _atomic_task_update d tid f v now in
  r.2 = None ∧
  get r.1 tid = Some (closed now (append_to f v (drop_running h old))) ∧
  (tid ∉ _tagged_for_removal r.1) ∧ wf r.1.
Proof.
  intros Hwf Hget Hh. unfold _atomic_task_update. rewrite Hget, Hh.
  by apply (close_and_store_spec d tid old).
Qed.

(** The restart recovery stores first and tags afterwards: its task
    stays tagged. *)
Lemma recover_one_tags (d : store task) (k : string) (v : task) (now : Z) :
  wf d → get d k = Some v → running v ≠ [] →
  (recover_one d k now).2 = None ∧ k ∈ _tagged_for_removal (recover_one d k now).1.
Proof.
  intros Hwf Hget Hrun. unfold recover_one. rewrite Hget.
  destruct (running v) as [|h hs] eqn:Hr; [done|].
  unfold get in Hget. rewrite (_set_item_existing d k _ v Hwf Hget).
  split; [done|]. unfold tag_for_removal; simpl.
  assert (k ∈ filter (λ y, y ≠ k) (_order d) ++ [k]) as Hin.
  { apply elem_of_app. right. by apply list_elem_of_singleton. }
  rewrite (bool_decide_eq_true_2 _ Hin).
  rewrite bool_decide_eq_true_2 by (rewrite list_elem_of_filter; tauto).
  simpl. apply elem_of_app. right. by apply list_elem_of_singleton.
Qed.

Lemma stamp_end_is_Some (now : Z) (t : task) : is_Some (end_timestamp (stamp_end now t)).
Proof.
  unfold stamp_end. destruct (end_timestamp t) eqn:He; simpl; rewrite ?He; by eauto.
Qed.

Lemma stamp_end_running (now : Z) (t : task) : running (stamp_end now t) = running t.
Proof. unfold stamp_end. by destruct (end_timestamp t). Qed.

(** A record with nothing running, for the examples of a store. *)
Definition ex_parent : task :=
  Task "p" 1 None (Some "deploy"%string) (Some "deploy"%string) None [] [] [].

End Tasks.

(* ======================================================================= *)
(** * request_validator.py and the validation branch of do_POST *)
(* ======================================================================= *)

Module Validation.

Local Open Scope string_scope.

(** A JSON value as far as the validators look at it. *)
Inductive pyval : Type :=
| PyNone
| PyInt (z : Z)
| PyOther.

(** A command dict of the configuration; [None] is an absent key. *)
Record cmd : Type := Cmd {
  name : string;
  type : option string;
  command : option string;
  url : option string;
  timeout : option pyval;
  async_timeout : option pyval
}.

Record host_entry : Type := HostEntry {
  mac : option string;
  commands : list cmd
}.

(** [{"hostname": h, "error": msg}] *)
Record error_item : Type := ErrorItem {
  hostname : string;
  error : string
}.

#[global] Instance error_item_eq_dec : EqDecision error_item.
Proof. solve_decision. Defined.

(** What [validate_hosts] stores in [entries]. *)
Inductive entry_data : Type :=
| WakeEntry (h : host_entry)
| CmdEntry (c : cmd) (t : Z) (is_sync : bool).

(** Truthiness of [d.get(key)] for a string field. *)
Definition truthy (o : option string) : bool :=
  match o with
  | Some s => negb (bool_decide (s = ""))
  | None => false
  end.

(** [d[k] = v] on a dict kept in insertion order. *)
Fixpoint dict_set {A} (k : string) (v : A) (d : list (string * A)) : list (string * A) :=
  match d with
  | [] => [(k, v)]
  | (k', v') :: d' => if bool_decide (k' = k) then (k, v) :: d' else (k', v') :: dict_set k v d'
  end.

(** [{cmd["name"]: cmd for cmd in commands}.get(command_name)]: the
    last command of that name wins. *)
Fixpoint lookup_cmd (command_name : string) (cs : list cmd) : option cmd :=
  match cs with
  | [] => None
  | c :: cs' =>
      match lookup_cmd command_name cs' with
      | Some c' => Some c'
      | None => if bool_decide (name c = command_name) then Some c else None
      end
  end.

Definition validate_wakeup_host (h : string) (e : host_entry) : option error_item :=
  if truthy (mac e) then None else Some (ErrorItem h "MAC not configured").

Definition _validate_shell_command (c : cmd) (h : string) : error_item + (cmd * Z * bool) :=
  if negb (truthy (command c)) then inl (ErrorItem h "Invalid command definition")
  else match timeout c with
       | Some v =>
           match v with
           | PyInt t => if (t <? 0)%Z then inl (ErrorItem h "Invalid timeout") else inr (c, t, true)
           | _ => inl (ErrorItem h "Invalid timeout")
           end
       | None =>
           match async_timeout c with
           | Some v =>
               match v with
               | PyInt t => if (t <? -1)%Z then inl (ErrorItem h "Invalid async_timeout")
                            else inr (c, t, false)
               | _ => inl (ErrorItem h "Invalid async_timeout")
               end
           | None => inl (ErrorItem h "Missing timeout or async_timeout")
           end
       end.

Definition _validate_http_command (c : cmd) (h : string) : error_item + (cmd * Z * bool) :=
  if negb (truthy (url c)) then inl (ErrorItem h "Invalid HTTP command: missing url")
  else
    let timeout_v := default (PyInt 30) (timeout c) in
    match async_timeout c with
    | Some (PyInt t) =>
        if (t <? -1)%Z then inl (ErrorItem h "Invalid async_timeout") else inr (c, t, false)
    | Some PyOther => inl (ErrorItem h "Invalid async_timeout")
    | Some PyNone | None =>
        match timeout_v with
        | PyInt t => if (t <? 0)%Z then inl (ErrorItem h "Invalid timeout") else inr (c, t, true)
        | _ => inl (ErrorItem h "Invalid timeout")
        end
    end.

Definition validate_command_host (h : string) (e : host_entry) (command_name : string)
  : error_item + (cmd * Z * bool) :=
  match lookup_cmd command_name (commands e) with
  | None => inl (ErrorItem h "Command not allowed")
  | Some c =>
      let cmd_type := default "shell" (type c) in
      if bool_decide (cmd_type = "http") then _validate_http_command c h
      else if bool_decide (cmd_type = "shell") then _validate_shell_command c h
      else inl (ErrorItem h ("Unknown command type: " +:+ cmd_type))
  end.

(** [HostValidator.validate_hosts], the loop over [hosts] threading
    [errors] and [entries]. *)
Fixpoint validate_hosts_from (hosts : list string) (action : string) (command_name : string)
    (hosts_config : gmap string host_entry)
    (errors : list error_item) (entries : list (string * entry_data))
  : list error_item * list (string * entry_data) :=
  match hosts with
  | [] => (errors, entries)
  | h :: hosts' =>
      match hosts_config !! h with
      | None =>
          validate_hosts_from hosts' action command_name hosts_config
            (errors ++ [ErrorItem h "Host not allowed"]) entries
      | Some e =>
          if bool_decide (action = "wakeup") then
            match validate_wakeup_host h e with
            | Some err =>
                validate_hosts_from hosts' action command_name hosts_config
                  (errors ++ [err]) entries
            | None =>
                validate_hosts_from hosts' action command_name hosts_config
                  errors (dict_set h (WakeEntry e) entries)
            end
          else
            match validate_command_host h e command_name with
            | inl err =>
                validate_hosts_from hosts' action command_name hosts_config
                  (errors ++ [err]) entries
            | inr (c, t, s) =>
                validate_hosts_from hosts' action command_name hosts_config
                  errors (dict_set h (CmdEntry c t s) entries)
            end
      end
  end.

Definition validate_hosts (hosts : list string) (action command_name : string)
    (hosts_config : gmap string host_entry) :=
  validate_hosts_from hosts action command_name hosts_config [] [].

Definition error_types : list string :=
  ["Host not allowed"; "MAC not configured"; "Command not allowed"].

Definition allow_listed (e : error_item) : Prop := error e ∈ error_types.

(** [Handler._handle_validation_errors]: the status code and the body
    [{"errors": errors}] handed to [_send_response]. *)
Definition _handle_validation_errors (errors : list error_item) : Z * list error_item :=
  ((if existsb (λ e, bool_decide (allow_listed e)) errors then 403 else 500), errors).

(** The part of [do_POST] between [validate_hosts] and [create_task] for
    a command that is not an execution plan: [Some] is the response sent
    when validation found errors, [None] lets the dispatch go on. *)
Definition post_validation (hosts : list string) (action command_name : string)
    (hosts_config : gmap string host_entry) : option (Z * list error_item) :=
  match (validate_hosts hosts action command_name hosts_config).1 with
  | [] => None
  | errors => Some (_handle_validation_errors errors)
  end.

(** The statement of claim C2, as it is written. *)
Definition status_403_iff_all_allow_listed : Prop :=
  ∀ hosts action command_name hosts_config code body,
    post_validation hosts action command_name hosts_config = Some (code, body) →
    (code = 403 ↔ Forall allow_listed body) ∧
    (¬ Forall allow_listed body → code = 500) ∧
    body = (validate_hosts hosts action command_name hosts_config).1.

(** A configuration with one host whose command has a negative timeout,
    which the configuration schema lets through. *)
Definition ex_config : gmap string host_entry :=
  {[ "h1" := HostEntry None
               [Cmd "status" (Some "shell") (Some "ping") None (Some (PyInt (-1))) None] ]}.

Lemma existsb_allow_listed (errors : list error_item) :
  existsb (λ e, bool_decide (allow_listed e)) errors = true ↔ Exists allow_listed errors.
Proof.
  rewrite existsb_exists, Exists_exists. split; intros (e & Hin & He); exists e.
  - split; [by apply list_elem_of_In|by apply bool_decide_eq_true in He].
  - split; [by apply list_elem_of_In|by apply bool_decide_eq_true].
Qed.

Lemma mixed_errors_answer_403 :
  post_validation ["ghost"; "h1"] "command" "status" ex_config =
    Some (403, [ErrorItem "ghost" "Host not allowed"; ErrorItem "h1" "Invalid timeout"]).
Proof. reflexivity. Qed.

(** C2 as stated fails: one refused host next to a host whose command has
    an invalid timeout is answered 403 although not every error is on the
    allow-list. *)
Lemma status_403_iff_all_allow_listed_fails : ¬ status_403_iff_all_allow_listed.
Proof.
  intros Hclaim.
  destruct (Hclaim _ _ _ _ _ _ mixed_errors_answer_403) as ([Hall _] & _).
  specialize (Hall eq_refl).
  apply Forall_cons in Hall as [_ Hall]. apply Forall_cons in Hall as [Hbad _].
  unfold allow_listed, error_types in Hbad. simpl in Hbad.
  repeat (apply elem_of_cons in Hbad as [Hbad|Hbad]; [discriminate|]).
  by apply elem_of_nil in Hbad.
Qed.

(** C2, amended. When validation of a POST dispatch collects errors, the
    response is 403 exactly if at least one error is on the allow-list
    and 500 exactly if none is; the body carries every collected error. *)
Theorem status_403_iff_some_allow_listed hosts action command_name hosts_config code body :
  post_validation hosts action command_name hosts_config = Some (code, body) →
  (code = 403 ↔ Exists allow_listed body) ∧
  (code = 500 ↔ ¬ Exists allow_listed body) ∧
  body ≠ [] ∧
  body = (validate_hosts hosts action command_name hosts_config).1.
Proof.
  unfold post_validation, _handle_validation_errors.
  destruct (validate_hosts hosts action command_name hosts_config).1 as [|e es] eqn:Herr;
    [done|].
  pose proof (existsb_allow_listed (e :: es)) as Hex.
  destruct (existsb (λ e0, bool_decide (allow_listed e0)) (e :: es)); intros [= <- <-].
  - assert (Exists allow_listed (e :: es)) as Hsome by (by apply Hex).
    split; [by split|]. split; [|done].
    split; [discriminate|intros Hn; by destruct Hn].
  - assert (¬ Exists allow_listed (e :: es)) as Hnone.
    { intros Hsome. apply Hex in Hsome. discriminate. }
    split; [|split; [by split|done]].
    split; [discriminate|intros Hsome; by destruct Hnone].
Qed.

Lemma status_403_iff_some_allow_listed_witness :
  post_validation ["ghost"; "h1"] "command" "status" ex_config =
    Some (403, [ErrorItem "ghost" "Host not allowed"; ErrorItem "h1" "Invalid timeout"]) ∧
  Exists allow_listed [ErrorItem "ghost" "Host not allowed"; ErrorItem "h1" "Invalid timeout"].
Proof.
  split; [reflexivity|].
  exact (proj1 (proj1 (status_403_iff_some_allow_listed _ _ _ _ _ _ mixed_errors_answer_403))
               eq_refl).
Defined.

End Validation.

(* ======================================================================= *)
(** * task_executor_helper.py: send_wol *)
(* ======================================================================= *)

Module Wol.

(** Strings are sequences of characters below 256; [bytes] are lists of
    integers in [0, 256). *)

Definition code (c : ascii) : Z := Z.of_N (N_of_ascii c).

(** [s.replace(c, "")] for a one-character [c]. *)
Fixpoint str_remove (c : ascii) (s : string) : string :=
  match s with
  | EmptyString => EmptyString
  | String x s' => if bool_decide (x = c) then str_remove c s' else String x (str_remove c s')
  end.

Definition lower_char (c : ascii) : ascii :=
  if (65 <=? code c) && (code c <=? 90) then ascii_of_N (Z.to_N (code c + 32)) else c.

(** [s.lower()] on the ASCII letters. *)
Fixpoint py_lower (s : string) : string :=
  match s with
  | EmptyString => EmptyString
  | String x s' => String (lower_char x) (py_lower s')
  end.

(** [s * n] *)
Fixpoint str_repeat (s : string) (n : nat) : string :=
  match n with
  | O => EmptyString
  | S n' => (s +:+ str_repeat s n')%string
  end.

Definition hex_val (c : ascii) : option Z :=
  let n := code c in
  if (48 <=? n) && (n <=? 57) then Some (n - 48)
  else if (97 <=? n) && (n <=? 102) then Some (n - 87)
  else if (65 <=? n) && (n <=? 70) then Some (n - 55)
  else None.

Definition is_hex (c : ascii) : Prop := is_Some (hex_val c).

(** ASCII whitespace, which [bytes.fromhex] skips between bytes. *)
Definition is_space (c : ascii) : bool :=
  bool_decide (code c ∈ [32; 9; 10; 11; 12; 13]).

(** [bytes.fromhex(s)]; [None] is its ValueError. *)
Fixpoint fromhex (s : string) : option (list Z) :=
  match s with
  | EmptyString => Some []
  | String c s' =>
      if is_space c then fromhex s'
      else match hex_val c, s' with
           | Some hi, String c2 s'' =>
               match hex_val c2 with
               | Some lo => cons (16 * hi + lo) <$> fromhex s''
               | None => None
               end
           | _, _ => None
           end
  end.

(** What the socket is asked to do. *)
Inductive sock_call : Type :=
| Socket (family kind : string)
| SetSockOpt (level option : string) (value : Z)
| SendTo (data : list Z) (address : string) (port : Z)
| Close.

(** [send_wol]: the packet is built before the socket is opened, so a
    ValueError of [fromhex] leaves no trace on the network. *)
Definition send_wol (mac : string) : exn + list sock_call :=
  let mac := py_lower (str_remove "-" (str_remove ":" mac)) in
  match fromhex (str_repeat "FF" 6 +:+ str_repeat mac 16) with
  | None => inl (ValueError "non-hexadecimal number found in fromhex() arg")
  | Some pkt =>
      inr [Socket "AF_INET" "SOCK_DGRAM";
           SetSockOpt "SOL_SOCKET" "SO_BROADCAST" 1;
           SendTo pkt "255.255.255.255" 9;
           Close]
  end.

(** The digits of a MAC address once the separators are gone. *)
Definition mac_digits (mac : string) : string := str_remove "-" (str_remove ":" mac).

(** A MAC address: twelve hexadecimal digits, with [:] and [-] allowed
    anywhere between them. *)
Definition is_mac (mac : string) : Prop :=
  String.length (mac_digits mac) = 12%nat ∧
  Forall is_hex (list_ascii_of_string (mac_digits mac)).

(** The bytes that a string of hexadecimal digits denotes, two digits per
    byte, whatever the case of the letters. *)
Fixpoint hex_pairs (s : string) : list Z :=
  match s with
  | String c (String c2 s') =>
      (16 * default 0 (hex_val c) + default 0 (hex_val c2)) :: hex_pairs s'
  | _ => []
  end.

Definition mac_bytes (mac : string) : list Z := hex_pairs (mac_digits mac).

(** ** Characters *)

Lemma is_hex_not_space (c : ascii) : is_hex c → is_space c = false.
Proof.
  intros [v Hv].
  destruct c as [[] [] [] [] [] [] [] []]; try reflexivity; vm_compute in Hv; discriminate.
Qed.

Lemma hex_val_lower_char (c : ascii) : hex_val (lower_char c) = hex_val c.
Proof. destruct c as [[] [] [] [] [] [] [] []]; reflexivity. Qed.

Lemma hex_val_range (c : ascii) (v : Z) : hex_val c = Some v → 0 <= v < 16.
Proof.
  unfold hex_val. intros Hv.
  repeat match type of Hv with
         | context [(?a <=? ?b) && (?c <=? ?d)] =>
             destruct (Z.leb_spec a b); destruct (Z.leb_spec c d); simpl in Hv
         end; simplify_eq; lia.
Qed.

(** ** Strings of hexadecimal digits *)

Lemma str_app_nil (r : string) : ("" +:+ r)%string = r.
Proof. reflexivity. Qed.

Lemma str_app_cons (c : ascii) (s r : string) :
  (String c s +:+ r)%string = String c (s +:+ r).
Proof. reflexivity. Qed.

Lemma py_lower_length (s : string) : String.length (py_lower s) = String.length s.
Proof. induction s as [|c s IH]; simpl; congruence. Qed.

Lemma py_lower_hex (s : string) :
  Forall is_hex (list_ascii_of_string s) →
  Forall is_hex (list_ascii_of_string (py_lower s)).
Proof.
  induction s as [|c s IH]; simpl; intros Hs; [done|].
  apply Forall_cons in Hs as [Hc Hs]. apply Forall_cons. split; [|by apply IH].
  unfold is_hex. by rewrite hex_val_lower_char.
Qed.

Lemma hex_pairs_lower (s : string) : hex_pairs (py_lower s) = hex_pairs s.
Proof.
  assert (∀ s, hex_pairs (py_lower s) = hex_pairs s ∧
               ∀ c, hex_pairs (py_lower (String c s)) = hex_pairs (String c s)) as H.
  { clear s. induction s as [|c2 s [IH1 IH2]]; [done|]. split; [apply IH2|].
    intros c. simpl. rewrite !hex_val_lower_char. f_equal. apply IH1. }
  apply H.
Qed.

(** [fromhex] reads a prefix of [n] digit pairs as the bytes they denote. *)
Lemma fromhex_hex_prefix (n : nat) (s rest : string) :
  String.length s = (2 * n)%nat → Forall is_hex (list_ascii_of_string s) →
  fromhex (s +:+ rest) = (λ l, hex_pairs s ++ l) <$> fromhex rest.
Proof.
  revert s. induction n as [|n IH]; intros s Hlen Hhex.
  - destruct s; [|done]. rewrite str_app_nil. simpl. by destruct (fromhex rest).
  - destruct s as [|c [|c2 s]]; simpl in Hlen; try lia.
    simpl in Hhex. apply Forall_cons in Hhex as [Hc Hhex].
    apply Forall_cons in Hhex as [Hc2 Hhex].
    rewrite !str_app_cons. simpl. rewrite (is_hex_not_space c Hc).
    destruct Hc as [hi Hhi]. destruct Hc2 as [lo Hlo]. rewrite Hhi, Hlo. simpl.
    rewrite (IH s) by (done || lia). by destruct (fromhex rest).
Qed.

Lemma hex_pairs_length (n : nat) (s : string) :
  String.length s = (2 * n)%nat → length (hex_pairs s) = n.
Proof.
  revert s. induction n as [|n IH]; intros s Hlen.
  - by destruct s.
  - destruct s as [|c [|c2 s]]; simpl in Hlen; try lia.
    simpl. f_equal. apply IH. lia.
Qed.

Lemma hex_pairs_range (s : string) :
  Forall is_hex (list_ascii_of_string s) → Forall (λ b, 0 <= b < 256) (hex_pairs s).
Proof.
  assert (∀ s, (Forall is_hex (list_ascii_of_string s) →
                Forall (λ b, 0 <= b < 256) (hex_pairs s)) ∧
               ∀ c, Forall is_hex (list_ascii_of_string (String c s)) →
                    Forall (λ b, 0 <= b < 256) (hex_pairs (String c s))) as H.
  { clear s. induction s as [|c2 s [IH1 IH2]]; [by split; intros; constructor|].
    split; [apply IH2|]. intros c Hhex. simpl in Hhex.
    apply Forall_cons in Hhex as [[hi Hhi] Hhex].
    apply Forall_cons in Hhex as [[lo Hlo] Hhex].
    simpl. rewrite Hhi, Hlo. simpl. apply Forall_cons. split; [|by apply IH1].
    apply hex_val_range in Hhi, Hlo. lia. }
  apply H.
Qed.

Lemma fromhex_repeat (n k : nat) (s : string) :
  String.length s = (2 * n)%nat → Forall is_hex (list_ascii_of_string s) →
  fromhex (str_repeat s k) = Some (concat (repeat (hex_pairs s) k)).
Proof.
  intros Hlen Hhex. induction k as [|k IH]; [done|].
  simpl. by rewrite (fromhex_hex_prefix n), IH.
Qed.

Lemma length_concat_repeat {A} (l : list A) (k : nat) :
  length (concat (repeat l k)) = (k * length l)%nat.
Proof. induction k as [|k IH]; simpl; [done|]. rewrite length_app, IH. lia. Qed.

Lemma fromhex_magic (m : string) :
  String.length m = 12%nat → Forall is_hex (list_ascii_of_string m) →
  fromhex (str_repeat "FF" 6 +:+ str_repeat m 16) =
    Some (repeat 255 6 ++ concat (repeat (hex_pairs m) 16)).
Proof.
  intros Hlen Hhex.
  rewrite (fromhex_hex_prefix 6 (str_repeat "FF" 6))
    by (done || (repeat constructor; by eexists)).
  by rewrite (fromhex_repeat 6 16 m Hlen Hhex).
Qed.

(** C7. For a MAC address of twelve hexadecimal digits with optional
    [:] and [-] separators, [send_wol] opens a datagram socket, enables
    SO_BROADCAST and sends one datagram to 255.255.255.255 port 9; the
    packet has 102 bytes, starts with six bytes 0xFF and goes on with
    sixteen copies of the six bytes that the digits denote, whatever
    their letter case. *)
Theorem send_wol_magic_packet (mac : string) :
  is_mac mac →
  ∃ pkt,
    send_wol mac = inr [Socket "AF_INET" "SOCK_DGRAM";
                        SetSockOpt "SOL_SOCKET" "SO_BROADCAST" 1;
                        SendTo pkt "255.255.255.255" 9;
                        Close] ∧
    length pkt = 102%nat ∧
    take 6 pkt = repeat 255 6 ∧
    drop 6 pkt = concat (repeat (mac_bytes mac) 16) ∧
    length (mac_bytes mac) = 6%nat ∧
    Forall (λ b, 0 <= b < 256) pkt.
Proof.
  intros [Hlen Hhex]. unfold send_wol. fold (mac_digits mac).
  set (m := py_lower (mac_digits mac)).
  assert (String.length m = 12%nat) as Hmlen by (subst m; by rewrite py_lower_length).
  assert (Forall is_hex (list_ascii_of_string m)) as Hmhex by (subst m; by apply py_lower_hex).
  assert (hex_pairs m = mac_bytes mac) as Hbytes by (subst m; apply hex_pairs_lower).
  rewrite (fromhex_magic m Hmlen Hmhex), Hbytes.
  assert (length (mac_bytes mac) = 6%nat) as Hb6.
  { rewrite <- Hbytes. by apply (hex_pairs_length 6). }
  assert (Forall (λ b, 0 <= b < 256) (mac_bytes mac)) as Hrange.
  { rewrite <- Hbytes. by apply hex_pairs_range. }
  eexists. split; [reflexivity|].
  split_and!.
  - rewrite length_app, repeat_length.
    rewrite length_concat_repeat, Hb6. done.
  - by rewrite take_app_length' by (by rewrite repeat_length).
  - by rewrite drop_app_length' by (by rewrite repeat_length).
  - done.
  - apply Forall_app. split; [by repeat constructor|].
    apply Forall_concat, Forall_forall. intros l Hl.
    apply list_elem_of_In, repeat_spec in Hl. by subst.
Qed.

(** Lowering the letters and dropping a separator commute, so two
    spellings of a MAC address that differ in letter case only produce
    the same socket calls. *)
Lemma py_lower_str_remove (c : ascii) (s : string) :
  (∀ x, lower_char x = c ↔ x = c) →
  py_lower (str_remove c s) = str_remove c (py_lower s).
Proof.
  intros Hc. induction s as [|x s IH]; [done|]. simpl.
  destruct (decide (x = c)) as [->|Hne].
  - rewrite !bool_decide_eq_true_2; [done| by apply Hc | done].
  - rewrite !bool_decide_eq_false_2; [by rewrite <- IH| by rewrite Hc | done].
Qed.

Lemma lower_char_separator (c x : ascii) :
  c = ":"%char ∨ c = "-"%char → lower_char x = c ↔ x = c.
Proof.
  intros [->| ->]; destruct x as [[] [] [] [] [] [] [] []]; vm_compute; split; congruence.
Qed.

Lemma send_wol_case_insensitive (mac mac' : string) :
  py_lower mac' = py_lower mac → send_wol mac' = send_wol mac.
Proof.
  intros Hlow. unfold send_wol.
  rewrite !(py_lower_str_remove "-") by (intros; apply lower_char_separator; tauto).
  rewrite !(py_lower_str_remove ":") by (intros; apply lower_char_separator; tauto).
  by rewrite Hlow.
Qed.

Lemma send_wol_magic_packet_witness :
  is_mac "AA:bb-cc:DD:ee:0F" ∧
  ∃ pkt,
    send_wol "AA:bb-cc:DD:ee:0F" =
      inr [Socket "AF_INET" "SOCK_DGRAM"; SetSockOpt "SOL_SOCKET" "SO_BROADCAST" 1;
           SendTo pkt "255.255.255.255" 9; Close] ∧
    length pkt = 102%nat ∧ take 6 pkt = repeat 255 6 ∧
    drop 6 pkt = concat (repeat [170; 187; 204; 221; 238; 15] 16).
Proof.
  assert (is_mac "AA:bb-cc:DD:ee:0F") as Hmac.
  { split; [reflexivity|]. repeat constructor; by eexists. }
  split; [exact Hmac|].
  destruct (send_wol_magic_packet "AA:bb-cc:DD:ee:0F" Hmac)
    as (pkt & Hsend & Hlen & Hhead & Htail & _).
  exists pkt. repeat split; assumption.
Defined.

End Wol.

(* ======================================================================= *)
(** * websocket.py: the frame codec *)
(* ======================================================================= *)

Module WsFrame.

(** The bytes waiting on a connection, oldest first. [recv n] hands out
    at most [n] of them and an empty result means that the peer is gone. *)
Definition sock : Type := list Z.

Definition recv (n : Z) (s : sock) : list Z * sock :=
  (take (Z.to_nat n) s, drop (Z.to_nat n) s).

Definition len (l : list Z) : Z := Z.of_nat (length l).

(** [struct.pack(">H", v)] and [struct.pack(">Q", v)] are [struct_pack 2]
    and [struct_pack 8]; [None] is [struct.error]. *)
Fixpoint be_encode (n : nat) (v : Z) : list Z :=
  match n with
  | O => []
  | S n' => be_encode n' (v / 256) ++ [v mod 256]
  end.

Definition struct_pack (n : nat) (v : Z) : option (list Z) :=
  if (0 <=? v) && (v <? 256 ^ Z.of_nat n) then Some (be_encode n v) else None.

(** [struct.unpack(">H", d)[0]], [struct.unpack(">Q", d)[0]] *)
Definition struct_unpack (d : list Z) : Z :=
  fold_left (λ acc b, acc * 256 + b) d 0.

(** [_send_frame] for a [bytes] payload: [Some] holds the bytes given to
    [sendall] (the call returns True), [None] is the return value False
    of the exception handler. *)
Definition _send_frame (payload : list Z) (opcode : Z) : option (list Z) :=
  let length := len payload in
  let b1 := Z.lor 128 opcode in
  if negb ((0 <=? b1) && (b1 <? 256)) then None
  else
    let header := [b1] in
    if length <? 126 then Some ((header ++ [length]) ++ payload)
    else if length <? 65536 then
      match struct_pack 2 length with
      | Some p => Some ((header ++ [126] ++ p) ++ payload)
      | None => None
      end
    else
      match struct_pack 8 length with
      | Some p => Some ((header ++ [127] ++ p) ++ payload)
      | None => None
      end.

(** The loop that collects the payload,
[[
    while len(payload) < length:
        chunk = sock.recv(min(4096, length - len(payload)))
        if not chunk: return None, None, None
        payload += chunk
]]
    Every round takes at least one byte off the connection, so a fuel of
    one more than the pending bytes is never used up. *)
Fixpoint recv_payload (fuel : nat) (length : Z) (payload : list Z) (s : sock)
  : option (list Z) * sock :=
  if len payload <? length then
    match fuel with
    | O => (None, s)
    | S fuel' =>
        let '(chunk, s') := recv (Z.min 4096 (length - len payload)) s in
        match chunk with
        | [] => (None, s')
        | _ :: _ => recv_payload fuel' length (payload ++ chunk) s'
        end
    end
  else (Some payload, s).

(** [bytes(b ^ mask_key[i % 4] for i, b in enumerate(payload))]; [None]
    is the IndexError of a short key. *)
Definition unmask (mask_key payload : list Z) : option (list Z) :=
  mapM (λ ib : nat * Z, Z.lxor ib.2 <$> mask_key !! (ib.1 mod 4)%nat)
       (imap (λ i b, (i, b)) payload).

(** The extended payload length of [_recv_frame],
[[
    if length == 126:
        length_data = sock.recv(2)
        if len(length_data) < 2: return None, None, None
        length = struct.unpack(">H", length_data)[0]
    elif length == 127: ...
]] *)
Definition read_length (length : Z) (s : sock) : option Z * sock :=
  if length =? 126 then
    let '(length_data, s') := recv 2 s in
    if len length_data <? 2 then (None, s') else (Some (struct_unpack length_data), s')
  else if length =? 127 then
    let '(length_data, s') := recv 8 s in
    if len length_data <? 8 then (None, s') else (Some (struct_unpack length_data), s')
  else (Some length, s).

(** [_recv_frame]; [None] stands for the triple of [None]s. *)
Definition _recv_frame (s : sock) : option (Z * Z * list Z) * sock :=
  let '(header, s1) := recv 2 s in
  match header with
  | [b1; b2] =>
      let fin := Z.land (Z.shiftr b1 7) 1 in
      let opcode := Z.land b1 15 in
      let masked := Z.land (Z.shiftr b2 7) 1 in
      let length := Z.land b2 127 in
      match read_length length s1 with
      | (None, s2) => (None, s2)
      | (Some length, s2) =>
          let '(mask_key, s3) := if masked =? 0 then ([], s2) else recv 4 s2 in
          match recv_payload (S (List.length s3)) length [] s3 with
          | (None, s4) => (None, s4)
          | (Some payload, s4) =>
              if negb (masked =? 0) && negb (bool_decide (mask_key = [])) then
                match unmask mask_key payload with
                | Some p => (Some (fin, opcode, p), s4)
                | None => (None, s4)
                end
              else (Some (fin, opcode, payload), s4)
          end
      end
  | _ => (None, s1)
  end.

(** The payload length field of RFC 6455 as the server writes it. *)
Definition length_field (n : Z) : list Z :=
  if n <? 126 then [n]
  else if n <? 65536 then 126 :: be_encode 2 n
  else 127 :: be_encode 8 n.

(** XOR of byte [i] with [mask_key[i mod 4]]. *)
Definition mask (mask_key data : list Z) : list Z :=
  imap (λ i b, Z.lxor b (nth (i mod 4) mask_key 0)) data.

(** A final frame on the wire whose mask bit is set: the first byte, the
    length field with the mask bit, the key, the masked bytes. *)
Definition masked_frame (opcode : Z) (mask_key data : list Z) : list Z :=
  [Z.lor 128 opcode] ++
  (match length_field (len data) with
   | b :: ext => Z.lor 128 b :: ext
   | [] => []
   end) ++
  mask_key ++ data.

(** Modelled on RFC 6455, section 5.3, which the browser client follows:
    the client sends its payload XOR-ed with the key. *)
Definition client_frame (opcode : Z) (mask_key payload : list Z) : list Z :=
  masked_frame opcode mask_key (mask mask_key payload).

(** ** Big-endian integers *)

Lemma struct_unpack_snoc (d : list Z) (b : Z) :
  struct_unpack (d ++ [b]) = struct_unpack d * 256 + b.
Proof. unfold struct_unpack. by rewrite fold_left_app. Qed.

Lemma be_encode_length (n : nat) (v : Z) : length (be_encode n v) = n.
Proof.
  revert v. induction n as [|n IH]; intros v; simpl; [done|].
  rewrite length_app, IH. simpl. lia.
Qed.

Lemma struct_unpack_be_encode (n : nat) (v : Z) :
  0 <= v < 256 ^ Z.of_nat n → struct_unpack (be_encode n v) = v.
Proof.
  revert v. induction n as [|n IH]; intros v Hv.
  - simpl in *. unfold struct_unpack. simpl. lia.
  - simpl. rewrite struct_unpack_snoc, IH.
    + pose proof (Z.div_mod v 256). lia.
    + rewrite Nat2Z.inj_succ, Z.pow_succ_r in Hv by lia.
      split; [apply Z.div_pos; lia|]. apply Z.div_lt_upper_bound; lia.
Qed.

(** ** The first two bytes *)

Lemma low_bits_lor_128 (x k : Z) :
  0 <= k <= 7 → 0 <= x < 2 ^ k →
  Z.land (Z.lor 128 x) (Z.ones k) = x ∧ Z.land (Z.shiftr (Z.lor 128 x) 7) 1 = 1.
Proof.
  intros Hk Hx.
  assert (0 <= x < 128) as Hx7.
  { split; [lia|]. apply Z.lt_le_trans with (2 ^ k); [lia|].
    change 128 with (2 ^ 7). apply Z.pow_le_mono_r; lia. }
  split.
  - rewrite Z.land_lor_distr_l, (Z.land_ones x k), Z.mod_small by lia.
    replace (Z.land 128 (Z.ones k)) with 0; [done|].
    symmetry. rewrite Z.land_ones by lia. change 128 with (2 ^ 7).
    replace 7 with (k + (7 - k)) by lia. rewrite Z.pow_add_r by lia.
    rewrite Z.mul_comm. apply Z.mod_mul. lia.
  - rewrite Z.shiftr_lor, (Z.shiftr_div_pow2 x 7) by lia.
    change (2 ^ 7) with 128. rewrite Z.div_small by lia. done.
Qed.

Lemma low_bits_plain (x : Z) :
  0 <= x < 128 → Z.land x 127 = x ∧ Z.land (Z.shiftr x 7) 1 = 0.
Proof.
  intros Hx. split.
  - change 127 with (Z.ones 7). rewrite Z.land_ones, Z.mod_small; lia.
  - rewrite Z.shiftr_div_pow2 by lia. change (2 ^ 7) with 128.
    by rewrite Z.div_small by lia.
Qed.

(** ** The length field *)

Lemma recv_app (d rest : list Z) : recv (len d) (d ++ rest) = (d, rest).
Proof.
  unfold recv, len. rewrite Nat2Z.id.
  by rewrite take_app_length, drop_app_length.
Qed.

Lemma length_field_spec (n : Z) :
  0 <= n < 2 ^ 64 →
  ∃ b ext, length_field n = b :: ext ∧ 0 <= b < 128 ∧
           ∀ tail, read_length b (ext ++ tail) = (Some n, tail).
Proof.
  intros Hn. unfold length_field.
  destruct (Z.ltb_spec n 126) as [H126|H126].
  - exists n, []. split; [done|]. split; [lia|]. intros tail. unfold read_length.
    destruct (Z.eqb_spec n 126); [lia|]. destruct (Z.eqb_spec n 127); [lia|]. done.
  - destruct (Z.ltb_spec n 65536) as [H16|H16].
    + exists 126, (be_encode 2 n). split; [done|]. split; [lia|]. intros tail.
      unfold read_length. simpl (126 =? 126).
      change 2 with (len (be_encode 2 n)) at 1. rewrite recv_app.
      rewrite struct_unpack_be_encode by (simpl; lia). done.
    + exists 127, (be_encode 8 n). split; [done|]. split; [lia|]. intros tail.
      unfold read_length. simpl (127 =? 126). simpl (127 =? 127).
      change 8 with (len (be_encode 8 n)) at 1. rewrite recv_app.
      rewrite struct_unpack_be_encode by (simpl; lia). done.
Qed.

(** ** The payload loop *)

Lemma recv_payload_all (fuel : nat) (acc data rest : list Z) :
  (length data < fuel)%nat →
  recv_payload fuel (len acc + len data) acc (data ++ rest) = (Some (acc ++ data), rest).
Proof.
  revert acc data. induction fuel as [|fuel IH]; intros acc data Hfuel; [lia|].
  simpl. destruct data as [|b data].
  - replace (len acc <? len acc + len []) with false
      by (symmetry; apply Z.ltb_ge; unfold len; simpl; lia).
    by rewrite app_nil_r.
  - replace (len acc <? len acc + len (b :: data)) with true
      by (symmetry; apply Z.ltb_lt; unfold len; simpl; lia).
    set (k := Z.to_nat (Z.min 4096 (len acc + len (b :: data) - len acc))).
    assert (1 <= k <= length (b :: data))%nat as Hk.
    { subst k. unfold len. simpl length. lia. }
    unfold recv. fold k.
    rewrite take_app_le, drop_app_le by lia.
    destruct (take k (b :: data)) as [|c chunk] eqn:Htake.
    { apply (f_equal length) in Htake. rewrite length_take in Htake. simpl in *. lia. }
    rewrite <- Htake.
    assert (len acc + len (b :: data) =
            len (acc ++ take k (b :: data)) + len (drop k (b :: data))) as ->.
    { unfold len. rewrite length_app, length_take, length_drop. lia. }
    rewrite IH by (rewrite length_drop; simpl in *; lia).
    by rewrite <- app_assoc, take_drop.
Qed.

(** ** Unmasking *)

Lemma mapM_cons {A B} (f : A → option B) (x : A) (l : list A) :
  mapM f (x :: l) = y ← f x; k ← mapM f l; mret (y :: k).
Proof. reflexivity. Qed.

Lemma unmask_from (k : nat) (mask_key data : list Z) :
  length mask_key = 4%nat →
  mapM (λ ib : nat * Z, Z.lxor ib.2 <$> mask_key !! (ib.1 mod 4)%nat)
       (imap (λ i b, ((k + i)%nat, b)) data)
  = Some (imap (λ i b, Z.lxor b (nth ((k + i) mod 4) mask_key 0)) data).
Proof.
  intros Hkey. revert k. induction data as [|b data IH]; intros k; [done|].
  rewrite !imap_cons, mapM_cons. cbn beta. cbn [fst snd]. rewrite Nat.add_0_r.
  assert (k mod 4 < length mask_key)%nat as Hlt.
  { rewrite Hkey. apply Nat.mod_upper_bound. lia. }
  destruct (lookup_lt_is_Some_2 _ _ Hlt) as [x Hx].
  rewrite Hx, (nth_lookup_Some _ _ 0 x Hx).
  rewrite (imap_ext _ (λ i b0, Z.lxor b0 (nth ((S k + i) mod 4) mask_key 0)) data)
    by (intros; unfold compose; do 3 f_equal; lia).
  rewrite (imap_ext _ (λ i b0, ((S k + i)%nat, b0)))
    by (intros; unfold compose; f_equal; lia).
  rewrite IH. done.
Qed.

(** With a key of four bytes the decoder XORs byte [i] with
    [mask_key[i mod 4]]. *)
Lemma unmask_eq (mask_key data : list Z) :
  length mask_key = 4%nat → unmask mask_key data = Some (mask mask_key data).
Proof. intros Hkey. apply (unmask_from 0 mask_key data Hkey). Qed.

Lemma mask_involutive_from (k : nat) (mask_key payload : list Z) :
  imap (λ i b, Z.lxor b (nth ((k + i) mod 4) mask_key 0))
       (imap (λ i b, Z.lxor b (nth ((k + i) mod 4) mask_key 0)) payload) = payload.
Proof.
  revert k. induction payload as [|b payload IH]; intros k; [done|].
  rewrite !imap_cons. cbn beta.
  rewrite Z.lxor_assoc, Z.lxor_nilpotent, Z.lxor_0_r. f_equal.
  rewrite (imap_ext _ (λ i b0, Z.lxor b0 (nth ((S k + i) mod 4) mask_key 0)) payload)
    by (intros; unfold compose; do 3 f_equal; lia).
  rewrite (imap_ext _ (λ i b0, Z.lxor b0 (nth ((S k + i) mod 4) mask_key 0)))
    by (intros; unfold compose; do 3 f_equal; lia).
  apply IH.
Qed.

Lemma mask_involutive (mask_key payload : list Z) :
  mask mask_key (mask mask_key payload) = payload.
Proof. apply (mask_involutive_from 0). Qed.

Lemma mask_length (mask_key data : list Z) : len (mask mask_key data) = len data.
Proof. unfold len, mask. by rewrite length_imap. Qed.

(** ** Decoding a frame *)

Lemma recv_payload_exact (payload rest : list Z) :
  recv_payload (S (length (payload ++ rest))) (len payload) [] (payload ++ rest)
  = (Some payload, rest).
Proof.
  change (len payload) with (len [] + len payload).
  rewrite recv_payload_all; [done|]. rewrite length_app. lia.
Qed.

Lemma recv_2 (b1 b2 : Z) (tail : list Z) : recv 2 (b1 :: b2 :: tail) = ([b1; b2], tail).
Proof. reflexivity. Qed.

Lemma recv_4 (k0 k1 k2 k3 : Z) (tail : list Z) :
  recv 4 (k0 :: k1 :: k2 :: k3 :: tail) = ([k0; k1; k2; k3], tail).
Proof. reflexivity. Qed.

Lemma _recv_frame_unmasked (b1 : Z) (payload rest : list Z) :
  len payload < 2 ^ 64 →
  _recv_frame (([b1] ++ length_field (len payload)) ++ payload ++ rest) =
    (Some (Z.land (Z.shiftr b1 7) 1, Z.land b1 15, payload), rest).
Proof.
  intros Hlen.
  destruct (length_field_spec (len payload)) as (b & ext & Hlf & Hb & Hread);
    [unfold len in *; lia|].
  rewrite Hlf. unfold _recv_frame. cbn [app]. rewrite recv_2. cbv beta iota zeta.
  destruct (low_bits_plain b Hb) as [-> ->]. rewrite Hread. cbv beta iota zeta.
  rewrite Z.eqb_refl, recv_payload_exact. done.
Qed.

Lemma _recv_frame_masked (opcode : Z) (mask_key data rest : list Z) :
  length mask_key = 4%nat → len data < 2 ^ 64 →
  _recv_frame (masked_frame opcode mask_key data ++ rest) =
    (Some (Z.land (Z.shiftr (Z.lor 128 opcode) 7) 1, Z.land (Z.lor 128 opcode) 15,
           mask mask_key data), rest).
Proof.
  intros Hkey Hlen. unfold masked_frame.
  destruct (length_field_spec (len data)) as (b & ext & Hlf & Hb & Hread);
    [unfold len in *; lia|].
  rewrite Hlf. unfold _recv_frame. cbn [app]. rewrite recv_2. cbv beta iota zeta.
  destruct (low_bits_lor_128 b 7) as [Hlow Hbit]; [lia|simpl; lia|].
  change (Z.ones 7) with 127 in Hlow. rewrite Hlow, Hbit.
  rewrite <- !app_assoc, Hread. cbv beta iota zeta.
  destruct mask_key as [|k0 [|k1 [|k2 [|k3 [|]]]]]; try done.
  change (1 =? 0) with false. cbv iota. cbn [app]. rewrite recv_4.
  rewrite recv_payload_exact. cbn [negb andb].
  rewrite bool_decide_eq_false_2 by done. cbn [negb].
  by rewrite unmask_eq.
Qed.

(** ** Encoding a frame *)

Lemma first_byte_range (opcode : Z) :
  0 <= opcode < 16 → (0 <=? Z.lor 128 opcode) && (Z.lor 128 opcode <? 256) = true.
Proof.
  intros Hop.
  assert (opcode = 0 ∨ opcode = 1 ∨ opcode = 2 ∨ opcode = 3 ∨ opcode = 4 ∨ opcode = 5 ∨
          opcode = 6 ∨ opcode = 7 ∨ opcode = 8 ∨ opcode = 9 ∨ opcode = 10 ∨ opcode = 11 ∨
          opcode = 12 ∨ opcode = 13 ∨ opcode = 14 ∨ opcode = 15) as Hcases by lia.
  repeat destruct Hcases as [->|Hcases]; try reflexivity. by subst.
Qed.

Lemma _send_frame_bytes (opcode : Z) (payload : list Z) :
  0 <= opcode < 16 → len payload < 2 ^ 64 →
  _send_frame payload opcode =
    Some (([Z.lor 128 opcode] ++ length_field (len payload)) ++ payload).
Proof.
  intros Hop Hlen. unfold _send_frame, length_field, struct_pack.
  rewrite (first_byte_range opcode Hop). cbn [negb].
  destruct (Z.ltb_spec (len payload) 126) as [H126|H126]; [done|].
  destruct (Z.ltb_spec (len payload) 65536) as [H16|H16].
  - replace ((0 <=? len payload) && (len payload <? 256 ^ Z.of_nat 2)) with true; [done|].
    symmetry. apply andb_true_iff. split; [apply Z.leb_le|apply Z.ltb_lt]; simpl; lia.
  - replace ((0 <=? len payload) && (len payload <? 256 ^ Z.of_nat 8)) with true; [done|].
    symmetry. apply andb_true_iff. split; [apply Z.leb_le|apply Z.ltb_lt]; simpl; lia.
Qed.

(** C8. For an opcode of four bits and a payload shorter than 2^64
    bytes the server-side encoder produces first byte, length field and
    payload; decoding these bytes, whatever follows them on the
    connection, yields fin = 1, the opcode and the payload. The length
    field is the length itself below 126, 126 and two big-endian bytes
    below 65536, 127 and eight big-endian bytes otherwise. A masked frame
    with a four-byte key is decoded by XOR-ing byte [i] with
    [mask_key[i mod 4]], which gives back the payload that the client
    masked. *)
Theorem frame_codec_round_trip (opcode : Z) (payload mask_key rest : list Z) :
  0 <= opcode < 16 → len payload < 2 ^ 64 →
  (∃ frame,
     _send_frame payload opcode = Some frame ∧
     frame = ([Z.lor 128 opcode] ++ length_field (len payload)) ++ payload ∧
     _recv_frame (frame ++ rest) = (Some (1, opcode, payload), rest)) ∧
  (len payload < 126 → length_field (len payload) = [len payload]) ∧
  (126 <= len payload < 65536 →
     length_field (len payload) = [126; len payload / 256; len payload mod 256]) ∧
  (65536 <= len payload →
     ∃ ext, length_field (len payload) = 127 :: ext ∧ length ext = 8%nat ∧
            struct_unpack ext = len payload) ∧
  (length mask_key = 4%nat →
     _recv_frame (masked_frame opcode mask_key payload ++ rest) =
       (Some (1, opcode, mask mask_key payload), rest) ∧
     _recv_frame (client_frame opcode mask_key payload ++ rest) =
       (Some (1, opcode, payload), rest)).
Proof.
  intros Hop Hlen.
  destruct (low_bits_lor_128 opcode 4) as [Hlow Hbit]; [lia|simpl; lia|].
  change (Z.ones 4) with 15 in Hlow.
  split; [|split; [|split; [|split]]].
  - eexists. split; [by apply _send_frame_bytes|]. split; [done|].
    rewrite <- app_assoc. rewrite _recv_frame_unmasked by done. by rewrite Hlow, Hbit.
  - intros Hsmall. unfold length_field.
    by destruct (Z.ltb_spec (len payload) 126); [|lia].
  - intros [H126 H16]. unfold length_field.
    destruct (Z.ltb_spec (len payload) 126); [lia|].
    destruct (Z.ltb_spec (len payload) 65536); [|lia].
    simpl. rewrite (Z.mod_small (len payload / 256)); [done|].
    split; [apply Z.div_pos; lia|apply Z.div_lt_upper_bound; lia].
  - intros H16. unfold length_field.
    destruct (Z.ltb_spec (len payload) 126); [lia|].
    destruct (Z.ltb_spec (len payload) 65536); [lia|].
    eexists. split; [done|]. split; [apply be_encode_length|].
    apply struct_unpack_be_encode. simpl. unfold len in *. lia.
  - intros Hkey. split.
    + rewrite _recv_frame_masked by done. by rewrite Hlow, Hbit.
    + unfold client_frame.
      rewrite _recv_frame_masked by (done || by rewrite mask_length).
      by rewrite Hlow, Hbit, mask_involutive.
Qed.

Lemma frame_codec_round_trip_witness :
  _send_frame [104; 105] 1 = Some [129; 2; 104; 105] ∧
  _recv_frame ([129; 2; 104; 105] ++ [136; 0]) = (Some (1, 1, [104; 105]), [136; 0]) ∧
  _recv_frame (client_frame 1 [1; 2; 3; 4] [104; 105] ++ []) = (Some (1, 1, [104; 105]), []).
Proof.
  destruct (frame_codec_round_trip 1 [104; 105] [1; 2; 3; 4] [136; 0])
    as ((frame & Hsend & Hframe & Hrecv) & _); [lia|reflexivity|].
  destruct (frame_codec_round_trip 1 [104; 105] [1; 2; 3; 4] [])
    as (_ & _ & _ & _ & Hmasked); [lia|reflexivity|].
  split; [rewrite Hsend, Hframe; reflexivity|].
  split; [rewrite <- Hrecv, Hframe; reflexivity|].
  exact (proj2 (Hmasked eq_refl)).
Defined.

End WsFrame.

(* ======================================================================= *)
(** * websocket.py: issue_token and _verify_token *)
(* ======================================================================= *)

Module Token.

(** A [str] is kept as its UTF-8 bytes, so that [encode] and [decode]
    are the identity; splitting on [:] and slicing commute with that. *)

(** The white space that [int] skips at both ends of ASCII text. *)
Definition is_space (c : ascii) : bool :=
  let n := N_of_ascii c in ((9 <=? n) && (n <=? 13) || (n =? 32))%N.

Definition is_digit (c : ascii) : bool :=
  let n := N_of_ascii c in ((48 <=? n) && (n <=? 57))%N.

Definition digit_value (c : ascii) : Z := Z.of_N (N_of_ascii c) - 48.

Fixpoint lstrip (s : string) : string :=
  match s with
  | String c s' => if is_space c then lstrip s' else s
  | EmptyString => s
  end.

(** Digits with single underscores between them, then white space up to
    the end; [acc] is the value read so far. *)
Fixpoint int_digits (s : string) (acc : Z) (after_digit : bool) : option Z :=
  match s with
  | EmptyString => if after_digit then Some acc else None
  | String c s' =>
      if is_digit c then int_digits s' (acc * 10 + digit_value c) true
      else if Ascii.eqb c "_" && after_digit then
        match s' with
        | String d _ => if is_digit d then int_digits s' acc false else None
        | EmptyString => None
        end
      else if is_space c && after_digit then
        match lstrip s' with
        | EmptyString => Some acc
        | String _ _ => None
        end
      else None
  end.

(** [int(s)] in base 10 for ASCII text: white space at both ends, an
    optional sign, digits with single underscores between them; [None]
    is the ValueError. The decimal digits and the white space beyond
    ASCII, which [int] reads as well, are not modelled. *)
Definition py_int (s : string) : option Z :=
  match lstrip s with
  | String c s' =>
      if Ascii.eqb c "-" then Z.opp <$> int_digits s' 0 false
      else if Ascii.eqb c "+" then int_digits s' 0 false
      else int_digits (String c s') 0 false
  | EmptyString => None
  end.

(** [s.split(sep)] for a one-character separator. *)
Fixpoint split_on (sep : ascii) (s : string) : list string :=
  match s with
  | EmptyString => [EmptyString]
  | String c s' =>
      if Ascii.eqb c sep then EmptyString :: split_on sep s'
      else match split_on sep s' with
           | p :: ps => String c p :: ps
           | [] => [String c EmptyString]
           end
  end.

Fixpoint str_take (n : nat) (s : string) : string :=
  match n, s with
  | S n', String c s' => String c (str_take n' s')
  | _, _ => EmptyString
  end.

Fixpoint str_drop (n : nat) (s : string) : string :=
  match n, s with
  | S n', String c s' => str_drop n' s'
  | _, _ => s
  end.

Fixpoint has_char (c : ascii) (s : string) : bool :=
  match s with
  | EmptyString => false
  | String x s' => Ascii.eqb x c || has_char c s'
  end.

Definition colon_free (s : string) : Prop := has_char ":" s = false.

(** ** Strings *)

Lemma str_length_app (a b : string) :
  String.length (a +:+ b) = (String.length a + String.length b)%nat.
Proof.
  induction a as [|c a IH]; [done|].
  change (String c a +:+ b) with (String c (a +:+ b)). simpl. by rewrite IH.
Qed.

Lemma str_take_app (a b : string) : str_take (String.length a) (a +:+ b) = a.
Proof.
  induction a as [|c a IH]; [by destruct b|].
  change (String c a +:+ b) with (String c (a +:+ b)). simpl. by rewrite IH.
Qed.

Lemma str_drop_app (a b : string) : str_drop (String.length a) (a +:+ b) = b.
Proof.
  induction a as [|c a IH]; [by destruct b|].
  change (String c a +:+ b) with (String c (a +:+ b)). simpl. by rewrite IH.
Qed.

Lemma split_on_colon_free (a : string) : colon_free a → split_on ":" a = [a].
Proof.
  unfold colon_free. induction a as [|c a IH]; [done|]. simpl.
  destruct (Ascii.eqb c ":"); [done|]. simpl. intros Ha. by rewrite IH.
Qed.

Lemma split_on_field (a rest : string) :
  colon_free a → split_on ":" (a +:+ ":" +:+ rest) = a :: split_on ":" rest.
Proof.
  unfold colon_free. induction a as [|c a IH]; [done|].
  simpl has_char. change (String c a +:+ ":" +:+ rest) with (String c (a +:+ ":" +:+ rest)).
  simpl split_on. destruct (Ascii.eqb c ":"); [done|]. simpl. intros Ha. by rewrite IH.
Qed.

(** ** Decimal literals *)

Lemma uint_colon_free (d : Decimal.uint) : colon_free (NilEmpty.string_of_uint d).
Proof. unfold colon_free. induction d; simpl; done. Qed.

Lemma py_str_int_colon_free (z : Z) : colon_free (py_str_int z).
Proof.
  unfold py_str_int, NilZero.string_of_int, NilZero.string_of_uint.
  destruct (Z.to_int z) as [d|d]; destruct d; try done;
    unfold colon_free; simpl; apply uint_colon_free.
Qed.

(** The value of a digit string read from the left, after [acc]. *)
Fixpoint uint_value (d : Decimal.uint) (acc : Z) : Z :=
  match d with
  | Decimal.Nil => acc
  | Decimal.D0 l => uint_value l (acc * 10)
  | Decimal.D1 l => uint_value l (acc * 10 + 1)
  | Decimal.D2 l => uint_value l (acc * 10 + 2)
  | Decimal.D3 l => uint_value l (acc * 10 + 3)
  | Decimal.D4 l => uint_value l (acc * 10 + 4)
  | Decimal.D5 l => uint_value l (acc * 10 + 5)
  | Decimal.D6 l => uint_value l (acc * 10 + 6)
  | Decimal.D7 l => uint_value l (acc * 10 + 7)
  | Decimal.D8 l => uint_value l (acc * 10 + 8)
  | Decimal.D9 l => uint_value l (acc * 10 + 9)
  end.

Lemma int_digits_uint (d : Decimal.uint) (acc : Z) :
  int_digits (NilEmpty.string_of_uint d) acc true = Some (uint_value d acc).
Proof.
  revert acc. induction d; intros acc; [done|..];
    cbn [NilEmpty.string_of_uint int_digits uint_value];
    match goal with
    | |- context [is_digit ?c] => change (is_digit c) with true; cbv iota
    end;
    rewrite <- IHd; f_equal; unfold digit_value; simpl; lia.
Qed.

Lemma uint_value_pos (d : Decimal.uint) (acc : positive) :
  uint_value d (Z.pos acc) = Z.pos (Pos.of_uint_acc d acc).
Proof.
  revert acc. induction d; intros acc; [done|..];
    cbn [uint_value Pos.of_uint_acc]; rewrite <- IHd; f_equal; lia.
Qed.

Lemma uint_value_0 (d : Decimal.uint) : uint_value d 0 = Z.of_N (Pos.of_uint d).
Proof.
  induction d; [done|exact IHd|..]; cbn [uint_value Pos.of_uint Z.of_N];
    simpl Z.add; apply uint_value_pos.
Qed.

Lemma py_int_uint (d : Decimal.uint) :
  d ≠ Decimal.Nil →
  py_int (NilEmpty.string_of_uint d) = Some (Z.of_N (Pos.of_uint d)) ∧
  py_int (String "-" (NilEmpty.string_of_uint d)) = Some (- Z.of_N (Pos.of_uint d)).
Proof.
  intros Hd. rewrite <- uint_value_0.
  assert (int_digits (NilEmpty.string_of_uint d) 0 false = Some (uint_value d 0)) as Hdigits.
  { destruct d; [done|..]; cbn [NilEmpty.string_of_uint int_digits uint_value];
      match goal with
      | |- context [is_digit ?c] => change (is_digit c) with true; cbv iota
      end; apply int_digits_uint. }
  split.
  - destruct d; [done|..]; exact Hdigits.
  - unfold py_int. cbn [lstrip]. change (is_space "-") with false. cbv iota.
    rewrite Ascii.eqb_refl, Hdigits. done.
Qed.

Lemma py_int_str (z : Z) : py_int (py_str_int z) = Some z.
Proof.
  unfold py_str_int, NilZero.string_of_int, NilZero.string_of_uint.
  destruct z as [|p|p]; [done|..]; cbn [Z.to_int].
  - pose proof (DecimalPos.Unsigned.to_uint_nonnil p) as Hnil.
    destruct (py_int_uint (Pos.to_uint p) Hnil) as [Hpos _].
    rewrite DecimalPos.Unsigned.of_to in Hpos.
    destruct (Pos.to_uint p); [done|..]; exact Hpos.
  - pose proof (DecimalPos.Unsigned.to_uint_nonnil p) as Hnil.
    destruct (py_int_uint (Pos.to_uint p) Hnil) as [_ Hneg].
    rewrite DecimalPos.Unsigned.of_to in Hneg.
    destruct (Pos.to_uint p); [done|..]; exact Hneg.
Qed.

Section Manager.

(** [hmac.new(key, msg, hashlib.sha256).digest()] and the URL-safe
    base64 codec of the standard library. *)
Variable hmac_sha256 : string → string → string.
Variable urlsafe_b64encode : string → string.
Variable urlsafe_b64decode : string → option string.

Hypothesis hmac_sha256_length : ∀ key msg, String.length (hmac_sha256 key msg) = 32%nat.
Hypothesis urlsafe_b64_round_trip : ∀ raw, urlsafe_b64decode (urlsafe_b64encode raw) = Some raw.

(** The fields of [WebSocketManager] that the tokens use. *)
Record manager : Type := Manager {
  secret : string;
  token_ttl : Z;
  used_nonces : gmap string Z
}.

Definition token_msg (user_id task_id hostname : string) (exp : Z) (nonce : string) : string :=
  user_id +:+ ":" +:+ task_id +:+ ":" +:+ hostname +:+ ":" +:+ py_str_int exp +:+ ":" +:+ nonce.

(** [issue_token]; [now] is [int(time.time())] and [nonce] the value of
    [secrets.token_urlsafe(16)]. *)
Definition issue_token (m : manager) (now : Z) (nonce : string)
    (user_id task_id hostname : string) : string :=
  let exp := now + token_ttl m in
  let msg := token_msg user_id task_id hostname exp nonce in
  let sig := hmac_sha256 (secret m) msg in
  urlsafe_b64encode (msg +:+ sig).

(** The block under [with self.lock] in [_verify_token]. *)
Definition check_and_remember (m : manager) (user task_id hostname : string)
    (exp : Z) (nonce : string) (now : Z) : (exn + string * string * string) * manager :=
  let cleaned := filter (λ ne : string * Z, now < ne.2) (used_nonces m) in
  let m1 := Manager (secret m) (token_ttl m) cleaned in
  if exp <? now then (inl (ValueError "Token expired"), m1)
  else if bool_decide (is_Some (cleaned !! nonce)) then
         (inl (ValueError "Token replay detected"), m1)
  else (inr (user, task_id, hostname),
        Manager (secret m) (token_ttl m) (<[nonce := exp]> cleaned)).

(** [_verify_token] at time [now]. *)
Definition _verify_token (m : manager) (token : string) (now : Z)
  : (exn + string * string * string) * manager :=
  match urlsafe_b64decode token with
  | None => (inl (ValueError "Incorrect padding"), m)
  | Some raw =>
      let n := String.length raw in
      let msg := str_take (n - 32) raw in
      let sig := str_drop (n - 32) raw in
      if negb (String.eqb (hmac_sha256 (secret m) msg) sig) then
        (inl (ValueError "Invalid signature"), m)
      else
        match split_on ":" msg with
        | user :: task_id :: hostname :: exp_s :: rest =>
            match py_int exp_s with
            | None => (inl (ValueError "invalid literal for int() with base 10"), m)
            | Some exp =>
                match rest with
                | nonce :: _ => check_and_remember m user task_id hostname exp nonce now
                | [] => (inl IndexError, m)
                end
            end
        | _ => (inl IndexError, m)
        end
  end.

(** ** A token of [issue_token] under [_verify_token] *)

Lemma split_on_token_msg (user_id task_id hostname nonce : string) (exp : Z) :
  colon_free user_id → colon_free task_id → colon_free hostname → colon_free nonce →
  split_on ":" (token_msg user_id task_id hostname exp nonce) =
    [user_id; task_id; hostname; py_str_int exp; nonce].
Proof.
  intros Hu Ht Hh Hn. unfold token_msg.
  rewrite !split_on_field by (done || apply py_str_int_colon_free).
  by rewrite split_on_colon_free.
Qed.

Lemma verify_signed (m : manager) (msg : string) (now : Z) :
  _verify_token m (urlsafe_b64encode (msg +:+ hmac_sha256 (secret m) msg)) now =
    match split_on ":" msg with
    | user :: task_id :: hostname :: exp_s :: rest =>
        match py_int exp_s with
        | None => (inl (ValueError "invalid literal for int() with base 10"), m)
        | Some exp =>
            match rest with
            | nonce :: _ => check_and_remember m user task_id hostname exp nonce now
            | [] => (inl IndexError, m)
            end
        end
    | _ => (inl IndexError, m)
    end.
Proof.
  unfold _verify_token. rewrite urlsafe_b64_round_trip.
  rewrite str_length_app, hmac_sha256_length.
  replace (String.length msg + 32 - 32)%nat with (String.length msg) by lia.
  rewrite str_take_app, str_drop_app, String.eqb_refl. done.
Qed.

Lemma verify_issued (m0 m : manager) (t0 now : Z) (nonce user_id task_id hostname : string) :
  secret m = secret m0 →
  colon_free user_id → colon_free task_id → colon_free hostname → colon_free nonce →
  _verify_token m (issue_token m0 t0 nonce user_id task_id hostname) now =
    check_and_remember m user_id task_id hostname (t0 + token_ttl m0) nonce now.
Proof.
  intros Hs Hu Ht Hh Hn. unfold issue_token. rewrite <- Hs, verify_signed.
  rewrite split_on_token_msg by done. by rewrite py_int_str.
Qed.

(** ** The three outcomes of the locked block *)

Lemma check_expired (m : manager) (user task_id hostname nonce : string) (exp now : Z) :
  exp < now →
  (check_and_remember m user task_id hostname exp nonce now).1
    = inl (ValueError "Token expired").
Proof.
  intros Hexp. unfold check_and_remember.
  by replace (exp <? now) with true by (symmetry; by apply Z.ltb_lt).
Qed.

Lemma check_replay (m : manager) (user task_id hostname nonce : string) (exp e now : Z) :
  now <= exp → used_nonces m !! nonce = Some e → now < e →
  (check_and_remember m user task_id hostname exp nonce now).1
    = inl (ValueError "Token replay detected").
Proof.
  intros Hexp Hused He. unfold check_and_remember.
  replace (exp <? now) with false by (symmetry; by apply Z.ltb_ge).
  rewrite bool_decide_eq_true_2; [done|].
  exists e. by apply map_lookup_filter_Some.
Qed.

Lemma check_accept (m : manager) (user task_id hostname nonce : string) (exp now : Z) :
  now <= exp → (∀ e, used_nonces m !! nonce = Some e → e <= now) →
  check_and_remember m user task_id hostname exp nonce now =
    (inr (user, task_id, hostname),
     Manager (secret m) (token_ttl m)
             (<[nonce := exp]> (filter (λ ne : string * Z, now < ne.2) (used_nonces m)))).
Proof.
  intros Hexp Hfresh. unfold check_and_remember.
  replace (exp <? now) with false by (symmetry; by apply Z.ltb_ge).
  rewrite bool_decide_eq_false_2; [done|].
  intros [e He]. apply map_lookup_filter_Some in He as [He Hlt]. simpl in Hlt.
  apply Hfresh in He. lia.
Qed.

(** An accepted nonce is remembered with its [exp] and forgotten by the
    cleaning step of any later call made at [exp] or after it. *)
Lemma nonce_remembered_until_exp (m : manager) (nonce : string) (exp now later : Z) :
  let table := <[nonce := exp]> (filter (λ ne : string * Z, now < ne.2) (used_nonces m)) in
  table !! nonce = Some exp ∧
  (filter (λ ne : string * Z, later < ne.2) table !! nonce = Some exp ↔ later < exp).
Proof.
  intros table. subst table. split; [by rewrite lookup_insert_eq|].
  rewrite map_lookup_filter_Some, lookup_insert_eq. simpl. split; [tauto|done].
Qed.

(** C5 (the code departs from the claim). A token that was accepted is
    accepted a second time when it is presented in the second [exp]
    itself: the cleaning step drops the nonce as soon as [exp > now]
    fails, while the token only counts as expired when [now > exp]. *)
Theorem replay_at_expiry_accepted (m : manager) (t0 now1 : Z)
    (nonce user_id task_id hostname : string) :
  colon_free user_id → colon_free task_id → colon_free hostname → colon_free nonce →
  used_nonces m !! nonce = None → now1 <= t0 + token_ttl m →
  let exp := t0 + token_ttl m in
  let token := issue_token m t0 nonce user_id task_id hostname in
  let first := _verify_token m token now1 in
  let second := _verify_token first.2 token exp in
  first.1 = inr (user_id, task_id, hostname) ∧
  used_nonces first.2 !! nonce = Some exp ∧
  second.1 = inr (user_id, task_id, hostname).
Proof.
  intros Hu Ht Hh Hn Hfresh Hnow exp token first second.
  subst first second token.
  rewrite (verify_issued m m) by done.
  rewrite check_accept by (done || (intros e He; congruence)).
  cbn [fst snd used_nonces]. split; [done|]. split; [by rewrite lookup_insert_eq|].
  rewrite (verify_issued m) by done. cbn [token_ttl].
  rewrite check_accept; [done|lia|].
  cbn [used_nonces]. intros e He.
  rewrite lookup_insert_eq in He. injection He as <-. subst exp. lia.
Qed.

(** C10. For a user id, task id and hostname without a colon (and the
    colon-free nonce of [token_urlsafe]), verifying a freshly issued
    token no later than its [exp], its nonce not used before, returns
    the triple the token was issued for. With a colon in the hostname
    the fields shift and verification fails instead. *)
Theorem token_round_trip (m : manager) (t0 now : Z) (nonce user_id task_id hostname : string) :
  colon_free user_id → colon_free task_id → colon_free hostname → colon_free nonce →
  now <= t0 + token_ttl m → used_nonces m !! nonce = None →
  (_verify_token m (issue_token m t0 nonce user_id task_id hostname) now).1
    = inr (user_id, task_id, hostname) ∧
  (_verify_token m (issue_token m t0 nonce user_id task_id (hostname +:+ ":x")) now).1
    = inl (ValueError "invalid literal for int() with base 10").
Proof.
  intros Hu Ht Hh Hn Hnow Hfresh. split.
  - rewrite (verify_issued m m) by done.
    by rewrite check_accept by (done || (intros e He; congruence)).
  - unfold issue_token. rewrite verify_signed. unfold token_msg.
    replace ((hostname +:+ ":x") +:+ ":" +:+ py_str_int (t0 + token_ttl m) +:+ ":" +:+ nonce)
      with (hostname +:+ ":" +:+ "x" +:+ ":" +:+ py_str_int (t0 + token_ttl m) +:+ ":" +:+ nonce).
    + by rewrite !split_on_field by done.
    + clear. induction hostname as [|c h IH]; [done|].
      change (String c h +:+ ?r) with (String c (h +:+ r)). by rewrite IH.
Qed.

End Manager.

(** Stand-ins of the right shape for the library functions: a constant
    32-byte digest and the identity as codec. *)
Definition toy_hmac (key msg : string) : string := "00000000000000000000000000000000".
Definition toy_b64encode (raw : string) : string := raw.
Definition toy_b64decode (token : string) : option string := Some token.

Lemma toy_hmac_length (key msg : string) : String.length (toy_hmac key msg) = 32%nat.
Proof. reflexivity. Qed.

Lemma toy_b64_round_trip (raw : string) : toy_b64decode (toy_b64encode raw) = Some raw.
Proof. reflexivity. Qed.

Definition ex_manager : manager := Manager "api-key" 30 ∅.

Lemma replay_at_expiry_accepted_witness :
  let token := issue_token toy_hmac toy_b64encode ex_manager 1000 "n0nce" "api_user" "t1" "h1" in
  let first := _verify_token toy_hmac toy_b64decode ex_manager token 1010 in
  let second := _verify_token toy_hmac toy_b64decode first.2 token 1030 in
  first.1 = inr ("api_user", "t1", "h1")%string ∧
  used_nonces first.2 !! "n0nce"%string = Some 1030 ∧
  second.1 = inr ("api_user", "t1", "h1")%string.
Proof.
  exact (replay_at_expiry_accepted toy_hmac toy_b64encode toy_b64decode
           toy_hmac_length toy_b64_round_trip ex_manager 1000 1010
           "n0nce" "api_user" "t1" "h1" eq_refl eq_refl eq_refl eq_refl eq_refl
           ltac:(simpl; lia)).
Defined.

Lemma token_round_trip_witness :
  (_verify_token toy_hmac toy_b64decode ex_manager
     (issue_token toy_hmac toy_b64encode ex_manager 1000 "n0nce" "api_user" "t1" "h1") 1030).1
    = inr ("api_user", "t1", "h1")%string ∧
  (_verify_token toy_hmac toy_b64decode ex_manager
     (issue_token toy_hmac toy_b64encode ex_manager 1000 "n0nce" "api_user" "t1" "h1:x") 1030).1
    = inl (ValueError "invalid literal for int() with base 10").
Proof.
  exact (token_round_trip toy_hmac toy_b64encode toy_b64decode
           toy_hmac_length toy_b64_round_trip ex_manager 1000 1030
           "n0nce" "api_user" "t1" "h1" eq_refl eq_refl eq_refl eq_refl
           ltac:(simpl; lia) eq_refl).
Defined.

End Token.

(* ======================================================================= *)
(** * task_scheduler.py: conditions and the interpreter loop *)
(* ======================================================================= *)

Module Plan.
Import PersistentDict Tasks.

(** A task of an execution plan; [None] is an absent key or a null.
    The indices are the values after [int(...)]. *)
Record plan_task : Type := PlanTask {
  pt_command : string;
  pt_hostnames : list string;
  execute_after : option Z;
  if_previous_command : option Z;
  if_previous_command_result : option string;
  if_previous_output_contains : option string;
  on_success_jump_to : option Z;
  on_error_jump_to : option Z
}.

(** What [_execute_plan_task] returns and [task_results] stores. *)
Record result : Type := Result {
  r_success : list entry;
  r_errors : list entry;
  r_running : list string
}.

Inductive seq_item : Type :=
| SeqPlan (plan_name : string)
| SeqTask (task : plan_task) (original_index : Z).

Fixpoint is_prefix (p s : string) : bool :=
  match p, s with
  | EmptyString, _ => true
  | String a p', String b s' => Ascii.eqb a b && is_prefix p' s'
  | String _ _, EmptyString => false
  end.

(** [needle in hay] on strings. *)
Fixpoint str_contains (needle hay : string) : bool :=
  is_prefix needle hay ||
  match hay with
  | EmptyString => false
  | String _ hay' => str_contains needle hay'
  end.

(** [sep.join(l)] *)
Fixpoint str_join (sep : string) (l : list string) : string :=
  match l with
  | [] => EmptyString
  | [x] => x
  | x :: l' => x +:+ sep +:+ str_join sep l'
  end.

Definition newline : string := String (ascii_of_nat 10) EmptyString.

(** The [output] fields of the success entries, then of the error
    entries, of a result. *)
Definition all_outputs (r : result) : list string :=
  omap e_output (r_success r) ++ omap e_output (r_errors r).

Definition combined_output (r : result) : string := str_join newline (all_outputs r).

(** The test on [if_previous_command_result]: [true] when the condition
    is one of the four names and the result contradicts it. *)
Definition result_condition_fails (condition : string) (prev_result : result) : bool :=
  bool_decide (condition = "all_success"%string) && (0 <? Z.of_nat (length (r_errors prev_result)))
  || bool_decide (condition = "any_success"%string) && (Z.of_nat (length (r_success prev_result)) =? 0)
  || bool_decide (condition = "all_error"%string) && (0 <? Z.of_nat (length (r_success prev_result)))
  || bool_decide (condition = "any_error"%string) && (Z.of_nat (length (r_errors prev_result)) =? 0).

(** A string option that is present and not empty. *)
Definition nonempty (o : option string) : option string :=
  match o with
  | Some s => if bool_decide (s = ""%string) then None else Some s
  | None => None
  end.

(** [TaskScheduler._check_conditions] *)
Definition _check_conditions (pt : plan_task) (task_results : gmap Z result)
    (current_idx : Z) : bool :=
  match if_previous_command pt with
  | None => true
  | Some prev_idx =>
      if current_idx <=? prev_idx then false
      else
        match task_results !! prev_idx with
        | None => false
        | Some prev_result =>
            if match nonempty (if_previous_command_result pt) with
               | Some condition => result_condition_fails condition prev_result
               | None => false
               end
            then false
            else if match nonempty (if_previous_output_contains pt) with
                    | Some search_str => negb (str_contains search_str (combined_output prev_result))
                    | None => false
                    end
            then false
            else true
        end
  end.

(** [TaskScheduler._find_task_index_in_sequence] *)
Fixpoint find_from (sequence : list seq_item) (original_task_idx : Z) (i : nat) : nat :=
  match sequence with
  | [] => i
  | SeqTask _ oi :: rest => if oi =? original_task_idx then i else find_from rest original_task_idx (S i)
  | SeqPlan _ :: rest => find_from rest original_task_idx (S i)
  end.

Definition _find_task_index_in_sequence (sequence : list seq_item) (original_task_idx : Z) : nat :=
  find_from sequence original_task_idx 0.

(** The state of one run of the interpreter loop: the task store, the
    local [task_results], the position [idx] in the execution sequence and
    the original indices of the tasks handed to [_execute_plan_task]. *)
Record interp : Type := Interp {
  db : store task;
  task_results : gmap Z result;
  idx : nat;
  dispatched : list Z
}.

Inductive outcome : Type :=
| Next (st : interp)
| Raised (e : exn) (st : interp)
| Waits (st : interp).

Section Loop.

(** The parts of the scheduler that run processes or other plans:
    [_execute_plan_task] (validation, sub-task creation, dispatch and the
    wait for its hosts) and the recursive [_execute_plan_sync] of a
    referenced plan. Both act on the task store. *)
Variable execute_plan_task : plan_task → string → Z → store task → (exn + result) * store task.
Variable execute_sub_plan : string → string → store task → store task * option exn.

(** One round of the [while idx < len(execution_sequence)] loop of
    [_execute_plan_sync]. [Waits] is the barrier
    [while dep_idx not in task_results: time.sleep(0.1)] on an index that
    this loop has not recorded. *)
Definition loop_body (execution_sequence : list seq_item) (parent_task_id : string)
    (now : Z) (st : interp) : outcome :=
  match execution_sequence !! idx st with
  | None => Next st
  | Some (SeqPlan ref_plan_name) =>
      match execute_sub_plan ref_plan_name parent_task_id (db st) with
      | (d, Some e) => Raised e (Interp d (task_results st) (idx st) (dispatched st))
      | (d, None) => Next (Interp d (task_results st) (S (idx st)) (dispatched st))
      end
  | Some (SeqTask plan_task task_idx) =>
      match _update_plan_task_status (db st) parent_task_id task_idx "scheduled" now with
      | (d1, Some e) => Raised e (Interp d1 (task_results st) (idx st) (dispatched st))
      | (d1, None) =>
          if negb (_check_conditions plan_task (task_results st) task_idx) then
            match _update_plan_task_status d1 parent_task_id task_idx "skipped" now with
            | (d2, Some e) => Raised e (Interp d2 (task_results st) (idx st) (dispatched st))
            | (d2, None) => Next (Interp d2 (task_results st) (S (idx st)) (dispatched st))
            end
          else if match execute_after plan_task with
                  | Some dep_idx => bool_decide (task_results st !! dep_idx = None)
                  | None => false
                  end
          then Waits (Interp d1 (task_results st) (idx st) (dispatched st))
          else
            match _update_plan_task_status d1 parent_task_id task_idx "waiting" now with
            | (d2, Some e) => Raised e (Interp d2 (task_results st) (idx st) (dispatched st))
            | (d2, None) =>
                let disp := dispatched st ++ [task_idx] in
                match execute_plan_task plan_task parent_task_id task_idx d2 with
                | (inl e, d3) => Raised e (Interp d3 (task_results st) (idx st) disp)
                | (inr res, d3) =>
                    let results := <[task_idx := res]> (task_results st) in
                    match _update_parent_task_progress d3 parent_task_id with
                    | (d4, Some e) => Raised e (Interp d4 results (idx st) disp)
                    | (d4, None) =>
                        let has_errors := 0 <? Z.of_nat (length (r_errors res)) in
                        let has_success := 0 <? Z.of_nat (length (r_success res)) in
                        let next_idx :=
                          match (if has_errors && negb has_success
                                 then on_error_jump_to plan_task else None) with
                          | Some jump_to =>
                              _find_task_index_in_sequence execution_sequence jump_to
                          | None =>
                              match (if has_success
                                     then on_success_jump_to plan_task else None) with
                              | Some jump_to =>
                                  _find_task_index_in_sequence execution_sequence jump_to
                              | None => S (idx st)
                              end
                          end in
                        Next (Interp d4 results next_idx disp)
                    end
                end
            end
      end
  end.

(** The loop and the block after it; the fuel bounds the rounds, since
    jumps may go backwards. [None] is a run that used it up. *)
Fixpoint run_loop (fuel : nat) (execution_sequence : list seq_item)
    (parent_task_id : string) (now : Z) (st : interp) : option outcome :=
  if bool_decide (idx st < length execution_sequence)%nat then
    match fuel with
    | O => None
    | S fuel' =>
        match loop_body execution_sequence parent_task_id now st with
        | Next st' => run_loop fuel' execution_sequence parent_task_id now st'
        | other => Some other
        end
    end
  else
    match plan_loop_end (db st) parent_task_id now with
    | (d, Some e) => Some (Raised e (Interp d (task_results st) (idx st) (dispatched st)))
    | (d, None) => Some (Next (Interp d (task_results st) (idx st) (dispatched st)))
    end.

End Loop.

(** The status that the parent task records for a plan task. *)
Definition plan_task_status (d : store task) (parent_task_id : string) (task_idx : Z)
  : option string :=
  match get d parent_task_id with
  | Some t =>
      match plan_tasks t with
      | Some (PlanTasksDict m) => status <$> m !! py_str_int task_idx
      | _ => None
      end
  | None => None
  end.

(** ** Substrings *)

Lemma is_prefix_spec (p s : string) :
  is_prefix p s = true ↔ ∃ post, s = p +:+ post.
Proof.
  revert s. induction p as [|a p IH]; intros s.
  - split; [intros _; by exists s|done].
  - destruct s as [|b s]; simpl.
    + split; [done|]. by intros [post Hpost].
    + rewrite andb_true_iff, Ascii.eqb_eq, IH. split.
      * intros [-> [post ->]]. by exists post.
      * intros [post Hpost]. change (String a p +:+ post) with (String a (p +:+ post)) in Hpost.
        injection Hpost as -> ->. split; [done|]. by exists post.
Qed.

Lemma str_contains_spec (needle hay : string) :
  str_contains needle hay = true ↔ ∃ pre post, hay = pre +:+ needle +:+ post.
Proof.
  induction hay as [|c hay IH]; simpl; rewrite orb_true_iff, is_prefix_spec.
  - split.
    + intros [[post Hpost]|Hfalse]; [|done]. by exists EmptyString, post.
    + intros ([|c pre] & post & Hpre); [|done]. left. by exists post.
  - rewrite IH. split.
    + intros [[post Hpost]|(pre & post & Hhay)].
      * by exists EmptyString, post.
      * exists (String c pre), post. by rewrite Hhay.
    + intros ([|c' pre] & post & Hpre).
      * left. by exists post.
      * right. change (String c' pre +:+ ?r) with (String c' (pre +:+ r)) in Hpre.
        injection Hpre as -> ->. by exists pre, post.
Qed.

(** ** The four result conditions *)

Lemma result_condition_fails_spec (condition : string) (r : result) :
  result_condition_fails condition r = true ↔
    (condition = "all_success"%string ∧ r_errors r ≠ []) ∨
    (condition = "any_success"%string ∧ r_success r = []) ∨
    (condition = "all_error"%string ∧ r_success r ≠ []) ∨
    (condition = "any_error"%string ∧ r_errors r = []).
Proof.
  unfold result_condition_fails.
  rewrite !orb_true_iff, !andb_true_iff, !bool_decide_eq_true, !Z.ltb_lt, !Z.eqb_eq.
  destruct (r_errors r), (r_success r); simpl; split; intros H;
    repeat (destruct H as [H|H]); destruct H as [H1 H2];
    try (discriminate || lia || congruence); auto 10.
  all: try (left; left; left; split; [done|lia]).
  all: try (left; left; right; split; [done|lia]).
  all: try (left; right; split; [done|lia]).
  all: try (right; split; [done|lia]).
Qed.

(** What makes the condition of a plan task fail: the three cases of
    the claim, the predicate being one of the four named ones. *)
Definition condition_unmet (pt : plan_task) (task_results : gmap Z result)
    (current_idx i : Z) : Prop :=
  current_idx <= i ∨ task_results !! i = None ∨
  ∃ r, task_results !! i = Some r ∧
       ((∃ c, if_previous_command_result pt = Some c ∧
              ((c = "all_success"%string ∧ r_errors r ≠ []) ∨
               (c = "any_success"%string ∧ r_success r = []) ∨
               (c = "all_error"%string ∧ r_success r ≠ []) ∨
               (c = "any_error"%string ∧ r_errors r = []))) ∨
        (∃ search_str, if_previous_output_contains pt = Some search_str ∧
              ¬ ∃ pre post, combined_output r = pre +:+ search_str +:+ post)).

Lemma _check_conditions_unmet (pt : plan_task) (task_results : gmap Z result)
    (current_idx i : Z) :
  if_previous_command pt = Some i → condition_unmet pt task_results current_idx i →
  _check_conditions pt task_results current_idx = false.
Proof.
  intros Hi Hunmet. unfold _check_conditions. rewrite Hi.
  destruct (Z.leb_spec current_idx i) as [|Hlt]; [done|].
  destruct Hunmet as [?|[->|(r & -> & Hr)]]; [lia|done|].
  destruct Hr as [(c & -> & Hc)|(search_str & -> & Hs)].
  - assert (result_condition_fails c r = true) as Hfail
      by (by apply result_condition_fails_spec).
    unfold nonempty. case_bool_decide as Hempty; [|by rewrite Hfail].
    subst c. by destruct Hc as [[? _]|[[? _]|[[? _]|[? _]]]].
  - destruct (match nonempty (if_previous_command_result pt) with
              | Some condition => result_condition_fails condition r
              | None => false
              end); [done|].
    unfold nonempty. case_bool_decide as Hempty.
    + subst search_str. destruct Hs. by exists EmptyString, (combined_output r).
    + destruct (str_contains search_str (combined_output r)) eqn:Hc; [|done].
      apply str_contains_spec in Hc. by destruct Hs.
Qed.

(** ** Marking a plan task on the parent record *)

Lemma _update_plan_task_status_dict (d : store task) (parent_task_id : string) (t : task)
    (task_idx : Z) (st : string) (now : Z) :
  wf d → get d parent_task_id = Some t → (∀ l, plan_tasks t ≠ Some (PlanTasksList l)) →
  ∃ d', _update_plan_task_status d parent_task_id task_idx st now = (d', None) ∧
        wf d' ∧
        (∃ t', get d' parent_task_id = Some t' ∧
               (∀ l, plan_tasks t' ≠ Some (PlanTasksList l))) ∧
        plan_task_status d' parent_task_id task_idx = Some st ∧
        (∀ k, is_Some (get d' k) ↔ is_Some (get d k)).
Proof.
  intros Hwf Hget Hdict. unfold _update_plan_task_status. rewrite Hget.
  assert (∃ m, (match plan_tasks t with
                | Some (PlanTasksList _) =>
                    (d, Some (TypeError "list indices must be integers or slices, not str"))
                | Some (PlanTasksDict m0) =>
                    _set_item d parent_task_id
                      (set_plan_tasks
                         (Some (PlanTasksDict (<[py_str_int task_idx := PlanTaskState st now]> m0))) t)
                | None =>
                    _set_item d parent_task_id
                      (set_plan_tasks
                         (Some (PlanTasksDict {[py_str_int task_idx := PlanTaskState st now]})) t)
                end) = _set_item d parent_task_id (set_plan_tasks (Some (PlanTasksDict m)) t) ∧
               m !! py_str_int task_idx = Some (PlanTaskState st now)) as (m & -> & Hm).
  { destruct (plan_tasks t) as [[l|m0]|] eqn:Hpt.
    - by destruct (Hdict l).
    - eexists. split; [done|]. by rewrite lookup_insert_eq.
    - eexists. split; [done|]. by rewrite lookup_singleton_eq. }
  pose proof (wf_run d (OpSet parent_task_id (set_plan_tasks (Some (PlanTasksDict m)) t)) Hwf)
    as Hwf'.
  simpl in Hwf'. unfold get in *.
  rewrite (_set_item_existing d parent_task_id _ t Hwf Hget) in *.
  eexists. split; [done|]. split; [done|]. split; [|split].
  - eexists. simpl. rewrite lookup_insert_eq. split; [done|]. done.
  - unfold plan_task_status, get. simpl. rewrite lookup_insert_eq. simpl. by rewrite Hm.
  - intros k. simpl. destruct (decide (parent_task_id = k)) as [<-|Hne].
    + rewrite lookup_insert_eq, Hget. split; by eauto.
    + by rewrite lookup_insert_ne.
Qed.

Section Skip.

Variable execute_plan_task : plan_task → string → Z → store task → (exn + result) * store task.
Variable execute_sub_plan : string → string → store task → store task * option exn.

(** On a parent record whose [plan_tasks] the scheduler can index, a
    plan task with an unmet condition is marked skipped, nothing is
    handed to [_execute_plan_task], no entry is added to the store or to
    [task_results], and the loop goes on with the next item. *)
Lemma skip_when_condition_unmet (execution_sequence : list seq_item)
    (parent_task_id : string) (now : Z) (st : interp) (t : task)
    (pt : plan_task) (task_idx i : Z) :
  wf (db st) → get (db st) parent_task_id = Some t →
  (∀ l, plan_tasks t ≠ Some (PlanTasksList l)) →
  execution_sequence !! idx st = Some (SeqTask pt task_idx) →
  if_previous_command pt = Some i →
  condition_unmet pt (task_results st) task_idx i →
  ∃ d', loop_body execute_plan_task execute_sub_plan execution_sequence parent_task_id now st
          = Next (Interp d' (task_results st) (S (idx st)) (dispatched st)) ∧
        plan_task_status d' parent_task_id task_idx = Some "skipped"%string ∧
        (∀ k, is_Some (get d' k) ↔ is_Some (get (db st) k)).
Proof.
  intros Hwf Hget Hdict Hitem Hi Hunmet. unfold loop_body. rewrite Hitem.
  destruct (_update_plan_task_status_dict (db st) parent_task_id t task_idx
              "scheduled" now Hwf Hget Hdict)
    as (d1 & -> & Hwf1 & (t1 & Hget1 & Hdict1) & _ & Hkeys1).
  rewrite (_check_conditions_unmet pt (task_results st) task_idx i Hi Hunmet). simpl.
  destruct (_update_plan_task_status_dict d1 parent_task_id t1 task_idx
              "skipped" now Hwf1 Hget1 Hdict1)
    as (d2 & -> & _ & _ & Hstatus & Hkeys2).
  exists d2. split; [done|]. split; [done|]. intros k. by rewrite Hkeys2.
Qed.

(** C6 (the code departs from the claim). On the parent record that
    [create_task] stores for an execution plan, [plan_tasks] is a list;
    the first mark of any plan task, "scheduled", indexes it with a
    string and raises TypeError, so that the round ends before the
    condition is looked at: the task is never marked skipped and the
    interpreter does not advance. *)
Theorem plan_task_never_marked (d d1 : store task) (tid plan : string)
    (command_name : option string) (hostnames : list string) (created now : Z)
    (execution_sequence : list seq_item) (results : gmap Z result) (i : nat)
    (disp : list Z) (pt : plan_task) (task_idx : Z) :
  plan ≠ ""%string →
  create_task d tid command_name hostnames (Some plan) created = (d1, None) →
  execution_sequence !! i = Some (SeqTask pt task_idx) →
  loop_body execute_plan_task execute_sub_plan execution_sequence tid now
            (Interp d1 results i disp)
    = Raised (TypeError "list indices must be integers or slices, not str")
             (Interp d1 results i disp) ∧
  plan_task_status d1 tid task_idx = None.
Proof.
  intros Hplan Hcreate Hitem. unfold create_task in Hcreate.
  apply _set_item_stored in Hcreate.
  unfold loop_body, plan_task_status, _update_plan_task_status, get. simpl.
  rewrite Hitem, Hcreate. simpl.
  by rewrite bool_decide_eq_false_2 by done.
Qed.

End Skip.

(** The plan of scenario S4: task 1 runs only if task 0 succeeded. *)
Definition ex_plan_task : plan_task :=
  PlanTask "status" ["h1"%string] None (Some 0) (Some "all_success"%string) None None None.

Definition ex_sequence : list seq_item :=
  [SeqTask (PlanTask "status" ["h1"%string] None None None None None None) 0;
   SeqTask ex_plan_task 1].

Definition no_executor (pt : plan_task) (parent : string) (task_idx : Z) (d : store task)
  : (exn + result) * store task := (inr (Result [] [] []), d).

Definition no_sub_plan (plan_name parent : string) (d : store task)
  : store task * option exn := (d, None).

Lemma plan_task_never_marked_witness :
  let d1 := (create_task (init 0) "p" (Some "deploy"%string) ["plan_deploy"%string]
                         (Some "deploy"%string) 1).1 in
  loop_body no_executor no_sub_plan ex_sequence "p" 2
            (Interp d1 {[ 0 := Result [] [Entry (Some "h1"%string) (Some "Exit code 1"%string)
                                                None None] [] ]} 1 [0])
    = Raised (TypeError "list indices must be integers or slices, not str")
             (Interp d1 {[ 0 := Result [] [Entry (Some "h1"%string) (Some "Exit code 1"%string)
                                                 None None] [] ]} 1 [0]) ∧
  plan_task_status d1 "p" 1 = None.
Proof.
  exact (plan_task_never_marked no_executor no_sub_plan (init 0) _ "p" "deploy"
           (Some "deploy"%string) ["plan_deploy"%string] 1 2 ex_sequence _ 1 [0]
           ex_plan_task 1 ltac:(discriminate) eq_refl eq_refl).
Defined.

End Plan.

(* ======================================================================= *)
(** * task_executor_helper.py: replace_json_placeholders *)
(* ======================================================================= *)

Module Placeholders.

(** A [str] is a sequence of code points; the texts handled here (the
    payload template, parameter values, the result) are kept as Rocq
    strings, one character per code point below 256. A decoded JSON
    string may hold any code point and is a list of integers. *)

Definition code (c : ascii) : Z := Z.of_N (N_of_ascii c).
Definition chr (n : Z) : ascii := ascii_of_N (Z.to_N n).
Definition code_points (s : string) : list Z := map code (list_ascii_of_string s).

(** The double quote, as a character and as a string. *)
Definition quote : ascii := "034".
Definition q : string := String quote EmptyString.

Definition hex_digit (n : Z) : ascii :=
  if n <? 10 then chr (48 + n) else chr (87 + n).

(** ["\\u{0:04x}".format(n)] *)
Definition u_escape (n : Z) : string :=
  String "\" (String "u" (String (hex_digit (n / 4096 mod 16))
    (String (hex_digit (n / 256 mod 16)) (String (hex_digit (n / 16 mod 16))
      (String (hex_digit (n mod 16)) EmptyString))))).

(** The replacement that [json.dumps] with [ensure_ascii] makes for one
    code point of a string. *)
Definition escape_code_point (n : Z) : string :=
  if n =? 34 then String "\" q
  else if n =? 92 then "\\"
  else if n =? 10 then "\n"
  else if n =? 13 then "\r"
  else if n =? 9 then "\t"
  else if n =? 12 then "\f"
  else if n =? 8 then "\b"
  else if (32 <=? n) && (n <=? 126) then String (chr n) EmptyString
  else if n <? 65536 then u_escape n
  else (u_escape (55296 + ((n - 65536) / 1024)) +:+ u_escape (56320 + ((n - 65536) mod 1024)))%string.

(** [json.dumps(s)] for a string given by its code points. *)
Definition dumps_code_points (l : list Z) : string :=
  (String quote (fold_right (λ n acc, escape_code_point n +:+ acc) EmptyString l)
   +:+ q)%string.

Definition dumps_str (s : string) : string := dumps_code_points (code_points s).

(** A decoded JSON document; a number keeps its literal. An object is a
    Python dict: insertion order, one entry per key, the last value. *)
#[local] Unset Elimination Schemes.
Inductive json : Type :=
| JNull
| JBool (b : bool)
| JNum (literal : string)
| JStr (s : list Z)
| JArr (items : list json)
| JObj (members : list (list Z * json)).
#[local] Set Elimination Schemes.

Fixpoint obj_set (k : list Z) (v : json) (d : list (list Z * json)) : list (list Z * json) :=
  match d with
  | [] => [(k, v)]
  | (k', v') :: d' => if bool_decide (k' = k) then (k, v) :: d' else (k', v') :: obj_set k v d'
  end.

(** ** json.loads *)

Definition is_ws (c : ascii) : bool := bool_decide (code c ∈ [32; 9; 10; 13]).

Fixpoint skip_ws (s : string) : string :=
  match s with
  | String c s' => if is_ws c then skip_ws s' else s
  | EmptyString => s
  end.

Definition hex_value (c : ascii) : option Z :=
  let n := code c in
  if (48 <=? n) && (n <=? 57) then Some (n - 48)
  else if (97 <=? n) && (n <=? 102) then Some (n - 87)
  else if (65 <=? n) && (n <=? 70) then Some (n - 55)
  else None.

(** Four hexadecimal digits after [\u]. *)
Definition scan_hex4 (s : string) : option (Z * string) :=
  match s with
  | String a (String b (String c (String d rest))) =>
      match hex_value a, hex_value b, hex_value c, hex_value d with
      | Some x, Some y, Some z, Some w => Some (((x * 16 + y) * 16 + z) * 16 + w, rest)
      | _, _, _, _ => None
      end
  | _ => None
  end.

(** The body of a string up to the closing quote ([py_scanstring] in
    strict mode): control characters are refused, a high surrogate
    followed by an escaped low surrogate is one code point. *)
Fixpoint scan_string (fuel : nat) (s : string) : option (list Z * string) :=
  match fuel with
  | O => None
  | S fuel' =>
      match s with
      | EmptyString => None
      | String c s' =>
          if code c =? 34 then Some ([], s')
          else if code c =? 92 then
            match s' with
            | String e s'' =>
                let simple (n : Z) :=
                  match scan_string fuel' s'' with
                  | Some (l, rest) => Some (n :: l, rest)
                  | None => None
                  end in
                if code e =? 34 then simple 34
                else if code e =? 92 then simple 92
                else if code e =? 47 then simple 47
                else if code e =? 98 then simple 8
                else if code e =? 102 then simple 12
                else if code e =? 110 then simple 10
                else if code e =? 114 then simple 13
                else if code e =? 116 then simple 9
                else if code e =? 117 then
                  match scan_hex4 s'' with
                  | Some (uni, rest) =>
                      let lone :=
                        match scan_string fuel' rest with
                        | Some (l, rest') => Some (uni :: l, rest')
                        | None => None
                        end in
                      if (55296 <=? uni) && (uni <=? 56319) then
                        match rest with
                        | String b1 (String b2 rest2) =>
                            if (code b1 =? 92) && (code b2 =? 117) then
                              match scan_hex4 rest2 with
                              | Some (uni2, rest3) =>
                                  if (56320 <=? uni2) && (uni2 <=? 57343) then
                                    match scan_string fuel' rest3 with
                                    | Some (l, rest') =>
                                        Some (65536 + (uni - 55296) * 1024 + (uni2 - 56320) :: l,
                                              rest')
                                    | None => None
                                    end
                                  else lone
                              | None => lone
                              end
                            else lone
                        | _ => lone
                        end
                      else lone
                  | None => None
                  end
                else None
            | EmptyString => None
            end
          else if code c <? 32 then None
          else match scan_string fuel' s' with
               | Some (l, rest) => Some (code c :: l, rest)
               | None => None
               end
      end
  end.

Definition is_digit (c : ascii) : bool := (48 <=? code c) && (code c <=? 57).

Fixpoint take_digits (s : string) : string * string :=
  match s with
  | String c s' =>
      if is_digit c then let '(d, rest) := take_digits s' in (String c d, rest)
      else (EmptyString, s)
  | EmptyString => (EmptyString, s)
  end.

(** The number pattern of the decoder matched at the start of [s]: an
    optional minus sign, then 0 or a digit string without leading zero,
    then optionally a dot with digits, then optionally e or E with an
    optional sign and digits. *)
Definition scan_number (s : string) : option (string * string) :=
  let '(sign, s1) :=
    match s with
    | String c s' => if code c =? 45 then ("-"%string, s') else (EmptyString, s)
    | EmptyString => (EmptyString, s)
    end in
  match s1 with
  | String c s2 =>
      if is_digit c then
        let '(int_part, s3) :=
          if code c =? 48 then (String c EmptyString, s2)
          else let '(d, rest) := take_digits s2 in (String c d, rest) in
        let '(frac, s4) :=
          match s3 with
          | String p s3' =>
              if code p =? 46 then
                match take_digits s3' with
                | (EmptyString, _) => (EmptyString, s3)
                | (d, rest) => (String p d, rest)
                end
              else (EmptyString, s3)
          | EmptyString => (EmptyString, s3)
          end in
        let '(expo, s5) :=
          match s4 with
          | String e s4' =>
              if (code e =? 101) || (code e =? 69) then
                let '(esign, s4'') :=
                  match s4' with
                  | String g r => if (code g =? 45) || (code g =? 43)
                                  then (String g EmptyString, r) else (EmptyString, s4')
                  | EmptyString => (EmptyString, s4')
                  end in
                match take_digits s4'' with
                | (EmptyString, _) => (EmptyString, s4)
                | (d, rest) => (String e (esign +:+ d), rest)
                end
              else (EmptyString, s4)
          | EmptyString => (EmptyString, s4)
          end in
        Some ((sign +:+ int_part +:+ frac +:+ expo)%string, s5)
      else None
  | EmptyString => None
  end.

(** [strip_prefix p s]: the rest of [s] after [p]. *)
Fixpoint strip_prefix (p s : string) : option string :=
  match p, s with
  | EmptyString, _ => Some s
  | String a p', String b s' => if Ascii.eqb a b then strip_prefix p' s' else None
  | String _ _, EmptyString => None
  end.

Inductive mode : Type :=
| MValue
| MMembers (acc : list (list Z * json))
| MElements (acc : list json).

(** The scanner of the decoder; the input of [MValue] starts at the
    value, that of [MMembers] at the quote of a key, that of [MElements]
    at an item. *)
Fixpoint scan (fuel : nat) (m : mode) (s : string) : option (json * string) :=
  match fuel with
  | O => None
  | S fuel' =>
      match m with
      | MValue =>
          match s with
          | EmptyString => None
          | String c s' =>
              if code c =? 34 then
                match scan_string (S (String.length s')) s' with
                | Some (l, rest) => Some (JStr l, rest)
                | None => None
                end
              else if code c =? 123 then
                match skip_ws s' with
                | String c2 s2 =>
                    if code c2 =? 125 then Some (JObj [], s2)
                    else scan fuel' (MMembers []) (String c2 s2)
                | EmptyString => None
                end
              else if code c =? 91 then
                match skip_ws s' with
                | String c2 s2 =>
                    if code c2 =? 93 then Some (JArr [], s2)
                    else scan fuel' (MElements []) (String c2 s2)
                | EmptyString => None
                end
              else
                match strip_prefix "null" s, strip_prefix "true" s, strip_prefix "false" s with
                | Some rest, _, _ => Some (JNull, rest)
                | _, Some rest, _ => Some (JBool true, rest)
                | _, _, Some rest => Some (JBool false, rest)
                | None, None, None =>
                    match scan_number s with
                    | Some (lit, rest) => Some (JNum lit, rest)
                    | None =>
                        match strip_prefix "NaN" s, strip_prefix "Infinity" s,
                              strip_prefix "-Infinity" s with
                        | Some rest, _, _ => Some (JNum "NaN", rest)
                        | _, Some rest, _ => Some (JNum "Infinity", rest)
                        | _, _, Some rest => Some (JNum "-Infinity", rest)
                        | None, None, None => None
                        end
                    end
                end
          end
      | MMembers acc =>
          match s with
          | String q s' =>
              if code q =? 34 then
                match scan_string (S (String.length s')) s' with
                | Some (key, rest) =>
                    match skip_ws rest with
                    | String colon rest1 =>
                        if code colon =? 58 then
                          match scan fuel' MValue (skip_ws rest1) with
                          | Some (v, rest2) =>
                              let acc' := obj_set key v acc in
                              match skip_ws rest2 with
                              | String d rest3 =>
                                  if code d =? 125 then Some (JObj acc', rest3)
                                  else if code d =? 44 then scan fuel' (MMembers acc') (skip_ws rest3)
                                  else None
                              | EmptyString => None
                              end
                          | None => None
                          end
                        else None
                    | EmptyString => None
                    end
                | None => None
                end
              else None
          | EmptyString => None
          end
      | MElements acc =>
          match scan fuel' MValue s with
          | Some (v, rest) =>
              match skip_ws rest with
              | String d rest1 =>
                  if code d =? 93 then Some (JArr (acc ++ [v]), rest1)
                  else if code d =? 44 then scan fuel' (MElements (acc ++ [v])) (skip_ws rest1)
                  else None
              | EmptyString => None
              end
          | None => None
          end
      end
  end.

(** [json.loads(s)]: one value between optional white space; [None] is
    JSONDecodeError. Every call of [scan] consumes a character, so the
    length of the text bounds the calls. The limits that the
    interpreter puts on a run are not modelled, neither the
    RecursionError for containers nested deeper than its recursion limit
    nor the ValueError for an integer literal beyond its digit limit:
    [json_loads] is [json.loads] on the documents within these
    limits. *)
Definition json_loads (s : string) : option json :=
  match scan (S (String.length s)) MValue (skip_ws s) with
  | Some (v, rest) =>
      match skip_ws rest with
      | EmptyString => Some v
      | String _ _ => None
      end
  | None => None
  end.

Definition object_keys (j : json) : option (list (list Z)) :=
  match j with
  | JObj members => Some (map fst members)
  | _ => None
  end.

(** ** json.dumps of a decoded value *)

Fixpoint json_dumps (j : json) : string :=
  match j with
  | JNull => "null"
  | JBool true => "true"
  | JBool false => "false"
  | JNum literal => literal
  | JStr l => dumps_code_points l
  | JArr items =>
      "[" +:+
      (fix go (l : list json) : string :=
         match l with
         | [] => EmptyString
         | [x] => json_dumps x
         | x :: l' => json_dumps x +:+ ", " +:+ go l'
         end) items +:+ "]"
  | JObj members =>
      "{" +:+
      (fix go (l : list (list Z * json)) : string :=
         match l with
         | [] => EmptyString
         | [(k, v)] => dumps_code_points k +:+ ": " +:+ json_dumps v
         | (k, v) :: l' => dumps_code_points k +:+ ": " +:+ json_dumps v +:+ ", " +:+ go l'
         end) members +:+ "}"
  end.

(** ** Strings *)

Fixpoint is_prefix (p s : string) : bool :=
  match p, s with
  | EmptyString, _ => true
  | String a p', String b s' => Ascii.eqb a b && is_prefix p' s'
  | String _ _, EmptyString => false
  end.

(** [needle in hay] *)
Fixpoint str_contains (needle hay : string) : bool :=
  is_prefix needle hay ||
  match hay with
  | EmptyString => false
  | String _ hay' => str_contains needle hay'
  end.

(** [s.replace(old, new)] for a non-empty [old]: the occurrences are
    taken from the left and do not overlap; [skip] counts the characters
    of an occurrence still to be passed over. *)
Fixpoint replace_from (old new : string) (skip : nat) (s : string) : string :=
  match s with
  | EmptyString => EmptyString
  | String c s' =>
      match skip with
      | S k => replace_from old new k s'
      | O =>
          if is_prefix old s
          then new +:+ replace_from old new (String.length old - 1) s'
          else String c (replace_from old new 0 s')
      end
  end.

Definition str_replace (old new s : string) : string := replace_from old new 0 s.

Definition lower_char (c : ascii) : ascii :=
  if (65 <=? code c) && (code c <=? 90) then chr (code c + 32) else c.

Fixpoint py_lower (s : string) : string :=
  match s with
  | EmptyString => EmptyString
  | String c s' => String (lower_char c) (py_lower s')
  end.

(** The white space that [int] strips, among the code points below 256. *)
Definition is_space (c : ascii) : bool :=
  bool_decide (code c ∈ [9; 10; 11; 12; 13; 32; 133; 160]).

Fixpoint lstrip (s : string) : string :=
  match s with
  | String c s' => if is_space c then lstrip s' else s
  | EmptyString => s
  end.

(** Digits with single underscores between them, then white space up to
    the end: the value read so far is [acc]. *)
Fixpoint int_digits (s : string) (acc : Z) (after_digit : bool) : option Z :=
  match s with
  | EmptyString => if after_digit then Some acc else None
  | String c s' =>
      if is_digit c then int_digits s' (acc * 10 + (code c - 48)) true
      else if (code c =? 95) && after_digit then
        match s' with
        | String d _ => if is_digit d then int_digits s' acc false else None
        | EmptyString => None
        end
      else if is_space c && after_digit then
        match lstrip s' with
        | EmptyString => Some acc
        | String _ _ => None
        end
      else None
  end.

(** [int(s)] of a string in base 10; [None] is the ValueError. *)
Definition py_int (s : string) : option Z :=
  match lstrip s with
  | String c s' =>
      if code c =? 45 then Z.opp <$> int_digits s' 0 false
      else if code c =? 43 then int_digits s' 0 false
      else int_digits (String c s') 0 false
  | EmptyString => None
  end.

(** ** Parameter values *)

(** A value of [params] as the request body decodes it, floats apart. *)
Inductive pyvalue : Type :=
| PStr (s : string)
| PInt (z : Z)
| PBool (b : bool)
| PNone
| PList (items : list json)
| PDict (members : list (list Z * json)).

(** [all_params.update(params)] on dicts kept in insertion order. *)
Fixpoint dict_set (k : string) (v : pyvalue) (d : list (string * pyvalue))
  : list (string * pyvalue) :=
  match d with
  | [] => [(k, v)]
  | (k', v') :: d' => if bool_decide (k' = k) then (k, v) :: d' else (k', v') :: dict_set k v d'
  end.

Definition dict_update (d params : list (string * pyvalue)) : list (string * pyvalue) :=
  fold_left (λ acc kv, dict_set kv.1 kv.2 acc) params d.

Section Engine.

(** Floating point is left to two parameters: [float_literal s] is
    [json.dumps(float(s))], [None] when [float(s)] raises ValueError;
    [py_str_container v] is [str(v)] of a list or a dict. *)
Variable float_literal : string → option string.
Variable py_str_container : pyvalue → string.

Definition py_str (v : pyvalue) : string :=
  match v with
  | PStr s => s
  | PInt z => py_str_int z
  | PBool true => "True"
  | PBool false => "False"
  | PNone => "None"
  | other => py_str_container other
  end.

Definition type_prefixes : list string := ["string"; "number"; "boolean"; "json"; "array"].

(** The replacement computed for one placeholder, by type prefix. *)
Definition replacement_for (type_prefix key placeholder : string) (value : pyvalue)
  : exn + string :=
  if bool_decide (type_prefix = "string") then inr (dumps_str (py_str value))
  else if bool_decide (type_prefix = "number") then
    let failed := inl (ValueError ("Parameter '" +:+ key +:+
                   "' cannot be converted to number for " +:+ placeholder)) in
    match value with
    | PBool _ => failed
    | PInt z => inr (py_str_int z)
    | PStr s =>
        if str_contains "." s then
          match float_literal s with Some lit => inr lit | None => failed end
        else match py_int s with Some z => inr (py_str_int z) | None => failed end
    | _ => failed
    end
  else if bool_decide (type_prefix = "boolean") then
    match value with
    | PBool true => inr "true"%string
    | PBool false => inr "false"%string
    | _ =>
        let low := py_lower (py_str value) in
        if bool_decide (low ∈ ["true"; "1"; "yes"]%string) then inr "true"%string
        else if bool_decide (low ∈ ["false"; "0"; "no"]%string) then inr "false"%string
        else inl (ValueError ("Parameter '" +:+ key +:+
                    "' cannot be converted to boolean for " +:+ placeholder))
    end
  else if bool_decide (type_prefix = "json") then
    match value with
    | PStr s =>
        match json_loads s with
        | Some (JObj _) => inr s
        | Some _ => inl (ValueError "Must be a JSON object")
        | None => inl (ValueError ("Parameter '" +:+ key +:+
                         "' is not valid JSON for " +:+ placeholder))
        end
    | PDict members => inr (json_dumps (JObj members))
    | _ => inl (ValueError "Must be a JSON object")
    end
  else
    match value with
    | PStr s =>
        match json_loads s with
        | Some (JArr _) => inr s
        | Some _ => inl (ValueError "Must be a JSON array")
        | None => inl (ValueError ("Parameter '" +:+ key +:+
                         "' is not valid JSON array for " +:+ placeholder))
        end
    | PList items => inr (json_dumps (JArr items))
    | _ => inl (ValueError "Must be a JSON array")
    end.

(** The inner loop [for type_prefix in [...]] for one parameter. *)
Fixpoint replace_types (prefixes : list string) (key : string) (value : pyvalue)
    (result : string) : exn + string :=
  match prefixes with
  | [] => inr result
  | type_prefix :: prefixes' =>
      let placeholder := "<" +:+ type_prefix +:+ "_" +:+ key +:+ ">" in
      if negb (str_contains placeholder result) then replace_types prefixes' key value result
      else
        match replacement_for type_prefix key placeholder value with
        | inl e => inl e
        | inr replacement =>
            replace_types prefixes' key value (str_replace placeholder replacement result)
        end
  end.

(** The outer loop [for key, value in all_params.items()]. *)
Fixpoint replace_params (all_params : list (string * pyvalue)) (result : string)
  : exn + string :=
  match all_params with
  | [] => inr result
  | (key, value) :: rest =>
      match replace_types type_prefixes key value result with
      | inl e => inl e
      | inr result' => replace_params rest result'
      end
  end.

(** [replace_json_placeholders] for a [str] template. The ValueError
    of the final check is given by the fixed part of its message; the
    code appends the text of the JSONDecodeError. *)
Definition replace_json_placeholders (json_text hostname : string)
    (params : list (string * pyvalue)) : exn + string :=
  let all_params := dict_update [("hostname"%string, PStr hostname)] params in
  match replace_params all_params json_text with
  | inl e => inl e
  | inr result =>
      match json_loads result with
      | Some _ => inr result
      | None => inl (ValueError
                       "Resulting payload is not valid JSON after placeholder replacement")
      end
  end.

(** A call that returns has produced a text that [json.loads] reads. *)
Lemma replace_json_placeholders_parses (json_text hostname result : string)
    (params : list (string * pyvalue)) :
  replace_json_placeholders json_text hostname params = inr result →
  is_Some (json_loads result).
Proof.
  unfold replace_json_placeholders.
  destruct (replace_params _ json_text) as [e|r]; [done|].
  destruct (json_loads r) as [j|] eqn:Hj; [|done].
  intros [= <-]. rewrite Hj. by eexists.
Qed.

End Engine.

(** ** The replacement of a string placeholder is one string token *)

Lemma str_app_assoc (a b c : string) : (a +:+ b) +:+ c = a +:+ b +:+ c.
Proof.
  induction a as [|x a IH]; [done|].
  change ((String x a +:+ b) +:+ c) with (String x ((a +:+ b) +:+ c)).
  change (String x a +:+ b +:+ c) with (String x (a +:+ b +:+ c)).
  by rewrite IH.
Qed.

Lemma str_app_length (a b : string) :
  String.length (a +:+ b) = (String.length a + String.length b)%nat.
Proof.
  induction a as [|x a IH]; [done|].
  change (String x a +:+ b) with (String x (a +:+ b)). simpl. by rewrite IH.
Qed.

Lemma scan_escape (c : ascii) (fuel : nat) (rest : string) :
  scan_string (S fuel) (escape_code_point (code c) +:+ rest) =
    match scan_string fuel rest with
    | Some (l, r) => Some (code c :: l, r)
    | None => None
    end.
Proof. destruct c as [[] [] [] [] [] [] [] []]; reflexivity. Qed.

Definition escaped (l : list ascii) : string :=
  fold_right (λ n acc, escape_code_point n +:+ acc) EmptyString (map code l).

Lemma scan_string_escaped (l : list ascii) (k : nat) (rest : string) :
  scan_string (length l + S k) (escaped l +:+ String quote rest) = Some (map code l, rest).
Proof.
  induction l as [|c l IH]; [done|].
  unfold escaped in *. simpl length. simpl map. simpl fold_right. simpl Nat.add.
  by rewrite str_app_assoc, scan_escape, IH.
Qed.

Lemma escaped_length (l : list ascii) : (length l <= String.length (escaped l))%nat.
Proof.
  induction l as [|c l IH]; [done|].
  unfold escaped in *. simpl. rewrite str_app_length.
  assert (1 <= String.length (escape_code_point (code c)))%nat; [|lia].
  destruct c as [[] [] [] [] [] [] [] []]; vm_compute; lia.
Qed.

(** [json.dumps(s)] read back by [json.loads] is the string [s]: the
    quotes, backslashes and control characters of [s] stay inside one
    string token. *)
Lemma dumps_str_one_token (s : string) :
  json_loads (dumps_str s) = Some (JStr (code_points s)).
Proof.
  unfold json_loads, dumps_str, dumps_code_points, code_points.
  set (l := list_ascii_of_string s). fold (escaped l).
  change (String quote (escaped l) +:+ q)
    with (String quote (escaped l +:+ String quote EmptyString)).
  cbn [skip_ws is_ws]. change (is_ws quote) with false. cbv iota.
  cbn [scan]. change (code quote =? 34) with true. cbv iota.
  pose proof (escaped_length l) as Hlen.
  replace (S (String.length (escaped l +:+ String quote EmptyString)))
    with (length l + S (S (String.length (escaped l)) - length l))%nat
    by (rewrite str_app_length; simpl; lia).
  by rewrite scan_string_escaped.
Qed.

(** The payload template of scenario S3, [{"name": <string_name>}]. *)
Definition template_S3 : string := "{" +:+ q +:+ "name" +:+ q +:+ ": <string_name>}".

(** The value of S3 that tries to close the string and add a key,
    [","x":"y]. *)
Definition value_S3 : string := q +:+ "," +:+ q +:+ "x" +:+ q +:+ ":" +:+ q +:+ "y".

(** S3: the value stays one string and the document has the single key
    [name]; the text sent is [{"name": "\",\"x\":\"y"}]. *)
Lemma structural_characters_stay_inside (float_literal : string → option string)
    (py_str_container : pyvalue → string) :
  let bq := String "\" q in
  let result := "{" +:+ q +:+ "name" +:+ q +:+ ": " +:+ q +:+ bq +:+ "," +:+ bq +:+ "x" +:+ bq
                    +:+ ":" +:+ bq +:+ "y" +:+ q +:+ "}" in
  replace_json_placeholders float_literal py_str_container
    template_S3 "host1" [("name"%string, PStr value_S3)] = inr result ∧
  json_loads result = Some (JObj [(code_points "name", JStr (code_points value_S3))]).
Proof. split; vm_compute; reflexivity. Qed.

(** C1 (the code departs from the claim). The replacements are made one
    after the other on the whole text, so the text that a string
    placeholder put in is searched again for the placeholders of the
    parameters that follow. With the template of S3 and three string
    parameters the call returns the document [{"name": "","x":""}],
    which [json.loads] reads and which has a second top-level key [x]:
    the value of [name] was not kept as one string token. *)
Theorem string_placeholder_injection (float_literal : string → option string)
    (py_str_container : pyvalue → string) :
  let params := [("name"%string, PStr "<string_b>x<string_c>");
                 ("b"%string, PStr ","); ("c"%string, PStr ":")] in
  let result := "{" +:+ q +:+ "name" +:+ q +:+ ": " +:+ q +:+ q +:+ "," +:+ q +:+ "x" +:+ q
                    +:+ ":" +:+ q +:+ q +:+ "}" in
  replace_json_placeholders float_literal py_str_container template_S3 "host1" params
    = inr result ∧
  (json_loads result ≫= object_keys) = Some [code_points "name"; code_points "x"].
Proof. split; vm_compute; reflexivity. Qed.

End Placeholders.

(* ======================================================================= *)
(** * persistent_dictionary.py: readers, deletion, sequences of calls *)
(* ======================================================================= *)

Module DictOps.
Import PersistentDict.

Section Ops.
Context {V : Type}.

(** [get_oldest_key] *)
Definition get_oldest_key (d : store V) : exn + string :=
  match _order d with
  | [] => inl KeyError
  | key :: _ => inr key
  end.

(** [get_newest]; the inner KeyError is that of [self._db[key]]. *)
Definition get_newest (d : store V) : exn + V :=
  match last (_order d) with
  | None => inl KeyError
  | Some key =>
      match _db d !! key with
      | Some v => inr v
      | None => inl KeyError
      end
  end.

(** [__getitem__] *)
Definition getitem (d : store V) (key : string) : exn + V :=
  match _db d !! key with
  | Some v => inr v
  | None => inl KeyError
  end.

(** A sequence of calls on one store. A caller that catches the
    exception of a call goes on with the store that the call left. *)
Definition run_all (ops : list (@op V)) (d : store V) : store V :=
  fold_left (λ d o, (run o d).1) ops d.

(** [for key, value in items: d[key] = value] *)
Definition set_all (items : list (string * V)) (d : store V) : store V :=
  fold_left (λ d kv, (_set_item d kv.1 kv.2).1) items d.

(** ** Lengths *)

Lemma filter_ne_length (x : string) (l : list string) :
  NoDup l → x ∈ l → length l = S (length (filter (λ y, y ≠ x) l)).
Proof.
  intros Hnd Hin. destruct (py_list_remove_is_Some x l Hin) as [o Ho].
  rewrite <- (py_list_remove_filter x l o Hnd Ho).
  by apply (py_list_remove_length x).
Qed.

Lemma run_max_size (d : store V) (o : op) : _max_size (run o d).1 = _max_size d.
Proof.
  destruct o as [k v|k|k]; simpl.
  - unfold _set_item.
    repeat match goal with
           | |- context [match ?x with _ => _ end] => destruct x; try done
           end.
  - unfold _del_internal.
    repeat match goal with
           | |- context [match ?x with _ => _ end] => destruct x; try done
           end.
  - unfold tag_for_removal. by destruct (_ && _).
Qed.

Lemma run_len (d : store V) (o : op) :
  wf d → (0 < _max_size d → len d <= _max_size d) →
  0 < _max_size d → len (run o d).1 <= _max_size d.
Proof.
  intros Hwf Hbound Hpos. specialize (Hbound Hpos).
  destruct o as [k v|k|k]; simpl.
  - destruct (_db d !! k) as [old|] eqn:Hk.
    + rewrite (_set_item_existing d k v old Hwf Hk). unfold len in *; simpl.
      rewrite length_app. simpl.
      pose proof (filter_ne_length k (_order d) (proj1 Hwf)
                    (proj2 (wf_in_order d k Hwf) (ltac:(by eexists)))). lia.
    + destruct (decide (0 < _max_size d <= len d)) as [[_ Hfull]|Hroom].
      * destruct (_tagged_for_removal d) as [|t ts] eqn:Htag.
        -- by rewrite _set_item_full.
        -- rewrite (_set_item_evicts d k t ts) by done. unfold len in *; simpl.
           rewrite length_app. simpl.
           assert (t ∈ _order d) as Ht.
           { destruct Hwf as (_ & _ & _ & Hsub). rewrite Htag in Hsub.
             by apply Forall_cons in Hsub as [? _]. }
           pose proof (filter_ne_length t (_order d) (proj1 Hwf) Ht). lia.
      * rewrite _set_item_room by done. unfold len in *; simpl.
        rewrite length_app. simpl. lia.
  - unfold _del_internal. destruct (_db d !! k) as [old|] eqn:Hk; [|done].
    rewrite (wf_remove_order d k Hwf) by (by eexists). unfold len in *; simpl.
    pose proof (length_filter (λ y, y ≠ k) (_order d)). lia.
  - unfold tag_for_removal. by destruct (_ && _).
Qed.

(** X1. Whatever sequence of sets, deletes and taggings is applied to an
    empty store, with or without calls that raise in between, the three
    fields stay consistent (the key list has no duplicates and lists
    exactly the keys of the dictionary, the tags are distinct keys of the
    store), and with a positive [max_size] the store never holds more
    than [max_size] entries. *)
Theorem reachable_store_bounded (max_size : Z) (ops : list (@op V)) :
  let d := run_all ops (init max_size) in
  wf d ∧ _max_size d = max_size ∧ (0 < max_size → len d <= max_size).
Proof.
  assert (∀ (ops : list (@op V)) d,
            wf d → (0 < _max_size d → len d <= _max_size d) →
            wf (run_all ops d) ∧ _max_size (run_all ops d) = _max_size d ∧
            (0 < _max_size d → len (run_all ops d) <= _max_size d)) as Hgen.
  { clear ops. induction ops as [|o ops IH]; intros d Hwf Hb; [done|].
    simpl. destruct (IH (run o d).1) as (Hwf' & Hm & Hb').
    - by apply wf_run.
    - rewrite run_max_size. by apply run_len.
    - rewrite run_max_size in Hm, Hb'. done. }
  apply (Hgen ops (init max_size)); [apply wf_init|].
  unfold len; simpl. lia.
Qed.

(** X2. Under the store invariant a set raises nothing but
    FullDictionaryError, and it raises exactly when the key is new, the
    store is at its positive capacity and no entry is tagged. *)
Theorem set_raises_iff_full_untagged (d : store V) (key : string) (value : V) :
  wf d →
  ((_set_item d key value).2 = None ∨
   (_set_item d key value).2 = Some FullDictionaryError) ∧
  ((_set_item d key value).2 = Some FullDictionaryError ↔
     _db d !! key = None ∧ 0 < _max_size d <= len d ∧ _tagged_for_removal d = []).
Proof.
  intros Hwf. destruct (_db d !! key) as [old|] eqn:Hk.
  - rewrite (_set_item_existing d key value old Hwf Hk). simpl.
    split; [by left|]. split; [done|]. by intros [? _].
  - destruct (decide (0 < _max_size d <= len d)) as [[Hpos Hfull]|Hroom].
    + destruct (_tagged_for_removal d) as [|t ts] eqn:Htag.
      * rewrite _set_item_full by done. simpl. split; [by right|]. done.
      * rewrite (_set_item_evicts d key t ts) by done. simpl.
        split; [by left|]. split; [done|]. by intros (_ & _ & ?).
    + rewrite _set_item_room by done. simpl.
      split; [by left|]. split; [done|]. intros (_ & ? & _). done.
Qed.

Lemma last_snoc_key (l : list string) (k : string) : last (l ++ [k]) = Some k.
Proof. by rewrite last_snoc. Qed.

(** X3. A set that returns can be read back: [get], [__getitem__] and
    [get_newest] give the value, [in] answers True, and the key is the
    last of [keys()]. *)
Theorem set_then_read (d : store V) (key : string) (value : V) :
  wf d → (_set_item d key value).2 = None →
  let d' := (_set_item d key value).1 in
  get d' key = Some value ∧ getitem d' key = inr value ∧
  contains d' key = true ∧ get_newest d' = inr value ∧
  last (keys d') = Some key.
Proof.
  intros Hwf Hok d'.
  assert (_db d' !! key = Some value ∧ last (_order d') = Some key) as [Hdb Hlast].
  { subst d'. destruct (_db d !! key) as [old|] eqn:Hk.
    - rewrite (_set_item_existing d key value old Hwf Hk). simpl.
      by rewrite lookup_insert_eq, last_snoc_key.
    - destruct (decide (0 < _max_size d <= len d)) as [[Hpos Hfull]|Hroom].
      + destruct (_tagged_for_removal d) as [|t ts] eqn:Htag.
        * by rewrite _set_item_full in Hok.
        * rewrite (_set_item_evicts d key t ts) by done. simpl.
          by rewrite lookup_insert_eq, last_snoc_key.
      + rewrite _set_item_room by done. simpl.
        by rewrite lookup_insert_eq, last_snoc_key. }
  unfold get, getitem, contains, get_newest, keys. rewrite Hlast, Hdb.
  split_and!; try done.
  apply andb_true_iff. split; apply bool_decide_eq_true_2; [|by eexists].
  apply last_Some_elem_of in Hlast. done.
Qed.

(** X4. Deleting never raises on a consistent store. It removes the
    key from the dictionary, from the key list and from the tags, leaves
    every other entry, the order of the others and their tags as they
    were, and does nothing at all for a key that is not stored. *)
Theorem delete_removes_key_only (d : store V) (key : string) :
  wf d →
  let r := _del_internal d key in
  r.2 = None ∧ wf r.1 ∧
  get r.1 key = None ∧ contains r.1 key = false ∧
  keys r.1 = filter (λ y, y ≠ key) (keys d) ∧
  _tagged_for_removal r.1 = filter (λ y, y ≠ key) (_tagged_for_removal d) ∧
  (∀ k, k ≠ key → get r.1 k = get d k) ∧
  (get d key = None → r.1 = d).
Proof.
  intros Hwf r.
  pose proof (wf_run d (OpDel key) Hwf) as Hwf'. simpl in Hwf'. fold r in Hwf'.
  subst r. unfold _del_internal in *. unfold get, contains, keys.
  destruct (_db d !! key) as [old|] eqn:Hk.
  - rewrite (wf_remove_order d key Hwf) in * by (by eexists). simpl.
    rewrite odict_pop_filter by apply Hwf.
    split_and!; try done.
    + apply wf_filter_order; [done|]. by rewrite dom_delete_L.
    + by rewrite lookup_delete_eq.
    + rewrite (bool_decide_eq_false_2 (key ∈ _)); [done|].
      rewrite list_elem_of_filter. tauto.
    + intros k Hne. by rewrite lookup_delete_ne.
  - assert (key ∉ _order d) as Hnot.
    { rewrite (wf_in_order d key Hwf), Hk. by intros [? ?]. }
    simpl. rewrite Hk. split_and!; try done.
    + by rewrite (bool_decide_eq_false_2 (key ∈ _)).
    + by rewrite filter_ne_absent.
    + rewrite filter_ne_absent; [done|]. intros Hin. apply Hnot.
      destruct Hwf as (_ & _ & _ & Hsub). by eapply Forall_forall in Hsub.
Qed.

(** X5. On a consistent store the readers do not fail half-way:
    [get_items_reversed] returns the values of all keys, newest first;
    [get_oldest_key] and [get_newest] raise KeyError exactly on the empty
    store and otherwise give the first key and the value of the last;
    [in] agrees with [get]. *)
Theorem readers_total (d : store V) :
  wf d →
  (∃ vs, get_items_reversed d = Some vs ∧
         Forall2 (λ k v, get d k = Some v) (reverse (keys d)) vs) ∧
  (get_oldest_key d = inl KeyError ↔ len d = 0) ∧
  (∀ k, get_oldest_key d = inr k ↔ head (keys d) = Some k) ∧
  (get_newest d = inl KeyError ↔ len d = 0) ∧
  (∀ v, get_newest d = inr v ↔ ∃ k, last (keys d) = Some k ∧ get d k = Some v) ∧
  (∀ k, contains d k = true ↔ is_Some (get d k)).
Proof.
  intros Hwf. unfold get_items_reversed, get_oldest_key, get_newest, contains, get, keys, len.
  split; [|split; [|split; [|split; [|split]]]].
  - assert (is_Some (mapM (λ key, _db d !! key) (reverse (_order d)))) as [vs Hvs].
    { apply mapM_is_Some, Forall_forall. intros k Hin.
      rewrite elem_of_reverse in Hin. by apply (wf_in_order d k Hwf). }
    exists vs. split; [done|]. by apply mapM_Some.
  - destruct (_order d); simpl; split; (done || lia).
  - intros k. destruct (_order d); simpl; split; congruence.
  - destruct (last (_order d)) as [k|] eqn:Hlast.
    + assert (is_Some (_db d !! k)) as [v Hv].
      { apply (wf_in_order d k Hwf). by apply last_Some_elem_of. }
      rewrite Hv. split; [done|]. intros Hlen.
      destruct (_order d); [done|simpl in Hlen; lia].
    + apply last_None in Hlast. rewrite Hlast. done.
  - intros v. destruct (last (_order d)) as [k|] eqn:Hlast.
    + destruct (_db d !! k) as [w|] eqn:Hw.
      * split; [intros [= <-]; by exists k|]. intros (k' & [= <-] & Hk'). congruence.
      * split; [done|]. intros (k' & [= <-] & Hk'). congruence.
    + split; [done|]. by intros (k' & ? & _).
  - intros k. rewrite andb_true_iff, !bool_decide_eq_true.
    rewrite (wf_in_order d k Hwf). tauto.
Qed.

Lemma set_all_cons (kv : string * V) (items : list (string * V)) (d : store V) :
  set_all (kv :: items) d = set_all items (_set_item d kv.1 kv.2).1.
Proof. reflexivity. Qed.

Lemma wf_set_all (items : list (string * V)) (d : store V) :
  wf d → wf (set_all items d).
Proof.
  revert d. induction items as [|kv items IH]; intros d Hwf; [done|].
  rewrite set_all_cons. apply IH. apply (wf_run d (OpSet kv.1 kv.2) Hwf).
Qed.

(** X6. Eviction is first tagged, first out. When a full store
    receives new keys one after the other, no more of them than there
    are tags, the entries evicted are the tags in the order of tagging:
    afterwards the tag queue has lost its first [n] keys, these keys are
    gone from the key list, the new keys follow the survivors in the
    order of insertion, and the store is as full as before. *)
Theorem eviction_is_fifo (items : list (string * V)) (d : store V) :
  wf d → 0 < _max_size d → len d = _max_size d →
  NoDup items.*1 → (∀ k, k ∈ items.*1 → k ∉ keys d) →
  (length items <= length (_tagged_for_removal d))%nat →
  let d' := set_all items d in
  let evicted := take (length items) (_tagged_for_removal d) in
  _tagged_for_removal d' = drop (length items) (_tagged_for_removal d) ∧
  keys d' = filter (λ y, y ∉ evicted) (keys d) ++ items.*1 ∧
  len d' = len d ∧
  (∀ t, t ∈ evicted → get d' t = None).
Proof.
  revert d. induction items as [|[k v] items IH]; intros d Hwf Hpos Hfull Hnd Hnew Hlen.
  - simpl. split_and!; try done.
    + rewrite app_nil_r. unfold keys. symmetry.
      induction (_order d) as [|y l IHl]; [done|].
      rewrite filter_cons_True by (by intros ?%elem_of_nil). by rewrite IHl.
    + by intros t ?%elem_of_nil.
  - destruct (_tagged_for_removal d) as [|t ts] eqn:Htag; [simpl in Hlen; lia|].
    rewrite fmap_cons in Hnd, Hnew. simpl in Hnd, Hnew.
    apply NoDup_cons in Hnd as [Hk Hnd].
    assert (k ∉ _order d) as Hknew by (apply Hnew, elem_of_cons; by left).
    assert (_db d !! k = None) as Hkdb.
    { destruct (_db d !! k) eqn:Hkk; [|done]. destruct Hknew.
      apply (wf_in_order d k Hwf). by eexists. }
    pose proof (wf_run d (OpSet k v) Hwf) as Hwf1. simpl in Hwf1.
    cbv zeta. rewrite set_all_cons. cbn [fst snd].
    rewrite (_set_item_evicts d k t ts v) in * by (done || lia).
    cbn [fst snd] in *.
    set (d1 := Store (<[k:=v]> (delete t (_db d)))
                     (filter (λ y, y ≠ t) (_order d) ++ [k]) ts (_max_size d)) in *.
    assert (t ∈ _order d ∧ Forall (λ x, x ∈ _order d) ts ∧ t ∉ ts) as (Ht & Hts & Htts).
    { destruct Hwf as (_ & Hndt & _ & Hsub). rewrite Htag in Hsub, Hndt.
      apply Forall_cons in Hsub as [? ?]. apply NoDup_cons in Hndt as [? _]. done. }
    assert (len d1 = len d) as Hlen1.
    { unfold len; subst d1; simpl. rewrite length_app. simpl.
      pose proof (filter_ne_length t (_order d) (proj1 Hwf) Ht). lia. }
    destruct (IH d1) as (Htag' & Hkeys' & Hlen' & Hgone'); try done.
    + by rewrite Hlen1.
    + intros k' Hk'. unfold keys; subst d1; simpl.
      rewrite elem_of_app, list_elem_of_filter, list_elem_of_singleton.
      intros [[_ Hin]| ->]; [|done].
      revert Hin. apply Hnew. apply elem_of_cons. by right.
    + subst d1; simpl in *. lia.
    + simpl length. simpl take. simpl drop. split_and!.
      * exact Htag'.
      * rewrite Hkeys'. unfold keys; subst d1; simpl.
        rewrite filter_app, <- app_assoc. f_equal.
        -- rewrite list_filter_filter. apply list_filter_iff.
           intros y. rewrite not_elem_of_cons. tauto.
        -- rewrite filter_cons_True; [done|].
           intros Hin. apply Hknew. apply elem_of_take in Hin as (i & Hi & _).
           apply list_elem_of_lookup_2 in Hi. by eapply Forall_forall in Hts.
      * by rewrite Hlen', Hlen1.
      * intros t' [Heq|Hin]%elem_of_cons; [subst t'|by apply Hgone'].
        assert (t ∉ keys (set_all items d1)) as Hout.
        { rewrite Hkeys'. unfold keys; subst d1; simpl.
          rewrite elem_of_app, list_elem_of_filter, elem_of_app,
            list_elem_of_filter, list_elem_of_singleton.
          intros [[_ [[? _]| ->]]|Hin]; [done|done|].
          apply (Hnew t); [apply elem_of_cons; by right|done]. }
        pose proof (wf_set_all items d1 Hwf1) as Hwf'.
        unfold get. destruct (_db (set_all items d1) !! t) eqn:Hdb; [|done].
        destruct Hout. apply (wf_in_order _ t Hwf'). by eexists.
Qed.

End Ops.

Lemma set_then_read_witness :
  wf ex_full ∧ get (_set_item ex_full "k3" 30%nat).1 "k3" = Some 30%nat ∧
  get_newest (_set_item ex_full "k3" 30%nat).1 = inr 30%nat.
Proof.
  split; [exact wf_ex_full|].
  destruct (set_then_read ex_full "k3" 30%nat wf_ex_full eq_refl) as (Hget & _ & _ & Hnew & _).
  split; [exact Hget|exact Hnew].
Defined.

Lemma set_raises_iff_full_untagged_witness :
  wf ex_full ∧ (_set_item ex_full "k3" 30%nat).2 ≠ Some FullDictionaryError.
Proof.
  split; [exact wf_ex_full|].
  destruct (set_raises_iff_full_untagged ex_full "k3" 30%nat wf_ex_full) as [_ [Hfull _]].
  intros Hraise. destruct (Hfull Hraise) as (_ & _ & Htag). discriminate Htag.
Defined.

Lemma delete_removes_key_only_witness :
  wf ex_full ∧ keys (_del_internal ex_full "k1").1 = ["k2"] ∧
  _tagged_for_removal (_del_internal ex_full "k1").1 = ["k2"].
Proof.
  split; [exact wf_ex_full|].
  destruct (delete_removes_key_only ex_full "k1" wf_ex_full) as (_ & _ & _ & _ & Hkeys & Htag & _).
  split; [exact Hkeys|exact Htag].
Defined.

Lemma readers_total_witness :
  wf ex_full ∧ get_items_reversed ex_full = Some [20%nat; 10%nat] ∧
  get_oldest_key ex_full ≠ inl KeyError.
Proof.
  split; [exact wf_ex_full|]. split; [reflexivity|].
  destruct (readers_total ex_full wf_ex_full) as (_ & [Hempty _] & _).
  intros Hraise. specialize (Hempty Hraise). discriminate Hempty.
Defined.

Lemma eviction_is_fifo_witness :
  wf ex_full ∧
  _tagged_for_removal (set_all [("k3", 30%nat); ("k4", 40%nat)] ex_full) = [] ∧
  keys (set_all [("k3", 30%nat); ("k4", 40%nat)] ex_full) = ["k3"; "k4"].
Proof.
  split; [exact wf_ex_full|].
  assert (NoDup ["k3"; "k4"]) as Hnd by (apply (bool_decide_unpack _); vm_compute; exact I).
  assert (∀ k : string, k ∈ ["k3"; "k4"] → k ∉ keys ex_full) as Hnew.
  { intros k Hk Hin. apply list_elem_of_In in Hk, Hin. simpl in Hk, Hin.
    repeat destruct Hk as [<-|Hk]; repeat destruct Hin as [Hin|Hin]; try discriminate; done. }
  destruct (eviction_is_fifo [("k3", 30%nat); ("k4", 40%nat)] ex_full wf_ex_full
              ltac:(reflexivity) eq_refl Hnd Hnew ltac:(simpl; lia))
    as (Htag & Hkeys & _).
  split; [exact Htag|exact Hkeys].
Defined.

End DictOps.

(* ======================================================================= *)
(** * The task store under the server's updates
      (task_executor.py, task_scheduler.py, main_utils.py) *)
(* ======================================================================= *)

Module TaskOps.
Import PersistentDict Tasks.

(** The handler of [TaskScheduler.execute_plan] for a plan that raised:
[[
    task = self.db.get(parent_task_id)
    if task:
        task["errors"].append({"error": f"Execution plan error: {str(e)}"})
        if "end_timestamp" not in task: task["end_timestamp"] = now
        self.db[parent_task_id] = task
]]
    [msg] is [str(e)]. *)
Definition execute_plan_failed (d : store task) (parent_task_id msg : string) (now : Z)
  : store task * option exn :=
  match get d parent_task_id with
  | None => (d, None)
  | Some t =>
      _set_item d parent_task_id
        (stamp_end now
           (append_to F_errors (Entry None (Some ("Execution plan error: " +:+ msg)%string) None None) t))
  end.

(** The calls by which the running server writes to the task store;
    [W] is the state of the WebSocket manager handed to the shell
    processes. *)
Inductive server_op (W : Type) : Type :=
| SCreate (tid : string) (command_name : option string) (hostnames : list string)
          (plan : option string) (now : Z)
| SAtomic (tid : string) (f : field) (value : entry) (now : Z)
| SHttp (tid hostname : string) (aborted ok : bool) (error_msg output : option string)
        (response_code : option Z) (now : Z)
| SShell (ws_manager : option W) (tid hostname : string) (error : option string)
         (aborted : bool) (proc : option (option Z)) (now : Z)
| SPlanStatus (tid : string) (task_idx : Z) (st : string) (now : Z)
| SPlanProgress (tid : string)
| SPlanEnd (tid : string) (now : Z)
| SPlanFailed (tid msg : string) (now : Z).
Arguments SCreate {W}.
Arguments SAtomic {W}.
Arguments SHttp {W}.
Arguments SShell {W}.
Arguments SPlanStatus {W}.
Arguments SPlanProgress {W}.
Arguments SPlanEnd {W}.
Arguments SPlanFailed {W}.

Definition serve {W} (broadcast_status : string → string → string → W → W * option exn)
    (o : server_op W) (d : store task) : store task * option exn :=
  match o with
  | SCreate tid command_name hostnames plan now =>
      create_task d tid command_name hostnames plan now
  | SAtomic tid f value now => _atomic_task_update d tid f value now
  | SHttp tid hostname aborted ok error_msg output response_code now =>
      _update_tasks d tid hostname aborted ok error_msg output response_code now
  | SShell ws_manager tid hostname error aborted proc now =>
      let r := _update_task broadcast_status d ws_manager tid hostname error aborted proc now in
      (r.1.1, r.2)
  | SPlanStatus tid task_idx st now => _update_plan_task_status d tid task_idx st now
  | SPlanProgress tid => _update_parent_task_progress d tid
  | SPlanEnd tid now => plan_loop_end d tid now
  | SPlanFailed tid msg now => execute_plan_failed d tid msg now
  end.

(** The calls are serialised by [db.lock]; a call that raises leaves the
    store to the next one. *)
Definition serve_all {W} (broadcast_status : string → string → string → W → W * option exn)
    (ops : list (server_op W)) (d : store task) : store task :=
  fold_left (λ d o, (serve broadcast_status o d).1) ops d.






(** The record that [recover_dropped_tasks] writes for a task. *)
Definition recovered (now : Z) (t : task) : task :=
  match running t with
  | [] => t
  | dropped =>
      stamp_end now
        (Task (task_id t) (start_timestamp t) (end_timestamp t) (command t)
              (execution_plan t) (plan_tasks t) (success t) []
              (errors t ++ map (λ h, Entry (Some h) (Some "Process dropped during restart"%string)
                                           None None) dropped))
  end.

(** ** Writing a record back *)

Lemma odict_pop_subset (key x : string) (l : list string) :
  x ∈ odict_pop key l → x ∈ l.
Proof.
  induction l as [|y l IH]; [done|]. simpl. case_decide.
  - intros Hin. apply elem_of_cons. by right.
  - intros [->|Hin]%elem_of_cons; apply elem_of_cons; [by left|right; by apply IH].
Qed.

(** A set never adds a tag, whatever the store. *)
Lemma set_item_tags_subset {V} (d : store V) (key : string) (value : V) (x : string) :
  x ∈ _tagged_for_removal (_set_item d key value).1 → x ∈ _tagged_for_removal d.
Proof.
  unfold _set_item.
  destruct (_db d !! key).
  - destruct (py_list_remove key (_order d)); simpl; [apply odict_pop_subset|done].
  - destruct (_ && _); [|done].
    destruct (_tagged_for_removal d) as [|t ts] eqn:Htag; [simpl; by rewrite Htag|].
    destruct (_db d !! t); [|simpl; intros ?; apply elem_of_cons; by right].
    destruct (py_list_remove t (_order d)); simpl; intros ?; apply elem_of_cons; by right.
Qed.

(** Writing a stored key back. *)
Lemma store_back (d : store task) (tid : string) (old t : task) :
  wf d → get d tid = Some old →
  let r := _set_item d tid t in
  r.2 = None ∧ wf r.1 ∧ get r.1 tid = Some t ∧
  (∀ k, k ≠ tid → get r.1 k = get d k) ∧
  (∀ k, k ∈ keys r.1 ↔ k ∈ keys d) ∧
  (∀ k, k ∈ _tagged_for_removal r.1 ↔ k ∈ _tagged_for_removal d ∧ k ≠ tid) ∧
  len r.1 = len d.
Proof.
  intros Hwf Hget r.
  pose proof (wf_run d (OpSet tid t) Hwf) as Hwf'. simpl in Hwf'. fold r in Hwf'.
  subst r. unfold get, keys in *. rewrite (_set_item_existing d tid t old Hwf Hget) in *.
  simpl. split; [done|]. split; [done|]. split; [by rewrite lookup_insert_eq|].
  split; [intros k Hne; by rewrite lookup_insert_ne|].
  assert (tid ∈ _order d) as Hin by (apply (wf_in_order d tid Hwf); by eexists).
  split; [|split].
  - intros k. rewrite elem_of_app, list_elem_of_filter, list_elem_of_singleton.
    destruct (decide (k = tid)) as [->|Hne]; tauto.
  - intros k. rewrite list_elem_of_filter. tauto.
  - unfold len; simpl. rewrite length_app. simpl.
    pose proof (DictOps.filter_ne_length tid (_order d) (proj1 Hwf) Hin). lia.
Qed.

(** Tagging a stored key and writing it back: the tag is gone again. *)
Lemma tag_then_store_back (d : store task) (tid : string) (old t : task) :
  wf d → get d tid = Some old →
  let r := _set_item (tag_for_removal d tid) tid t in
  r.2 = None ∧ wf r.1 ∧ get r.1 tid = Some t ∧
  (∀ k, k ≠ tid → get r.1 k = get d k) ∧
  (∀ k, k ∈ keys r.1 ↔ k ∈ keys d) ∧
  (∀ k, k ∈ _tagged_for_removal r.1 ↔ k ∈ _tagged_for_removal d ∧ k ≠ tid) ∧
  len r.1 = len d.
Proof.
  intros Hwf Hget.
  pose proof (wf_run d (OpTag tid) Hwf) as Hwf1. simpl in Hwf1.
  assert (get (tag_for_removal d tid) tid = Some old) as Hget1
    by (unfold get; by rewrite tag_for_removal_db).
  destruct (store_back (tag_for_removal d tid) tid old t Hwf1 Hget1)
    as (Hok & Hwf2 & Hval & Hothers & Hkeys & Htags & Hlen).
  split; [done|]. split; [done|]. split; [done|].
  assert (_order (tag_for_removal d tid) = _order d) as Ho
    by (unfold tag_for_removal; by destruct (_ && _)).
  split; [|split; [|split]].
  - intros k Hne. rewrite (Hothers k Hne). unfold get. by rewrite tag_for_removal_db.
  - intros k. rewrite Hkeys. unfold keys. by rewrite Ho.
  - intros k. rewrite Htags. unfold tag_for_removal.
    destruct (_ && _); simpl; [|done].
    rewrite elem_of_app, list_elem_of_singleton. tauto.
  - rewrite Hlen. unfold len. by rewrite Ho.
Qed.

Lemma close_and_store_back (d : store task) (tid : string) (old t : task) (now : Z) :
  wf d → get d tid = Some old →
  let r := close_and_store d tid t now in
  r.2 = None ∧ wf r.1 ∧ get r.1 tid = Some (closed now t) ∧
  (∀ k, k ≠ tid → get r.1 k = get d k) ∧
  (∀ k, k ∈ keys r.1 ↔ k ∈ keys d) ∧
  (∀ k, k ∈ _tagged_for_removal r.1 ↔ k ∈ _tagged_for_removal d ∧ k ≠ tid) ∧
  len r.1 = len d.
Proof.
  intros Hwf Hget. unfold close_and_store, closed.
  destruct (running t); [by apply (tag_then_store_back d tid old)|by apply (store_back d tid old)].
Qed.

(** ** A host leaves [running] for one of the two lists *)

Lemma append_to_running (f : field) (v : entry) (t : task) :
  running (append_to f v t) = running t.
Proof. by destruct f. Qed.

Lemma closed_fields (now : Z) (t : task) :
  running (closed now t) = running t ∧ success (closed now t) = success t ∧
  errors (closed now t) = errors t.
Proof.
  unfold closed, stamp_end. destruct (running t) eqn:Hr; [|done].
  destruct (end_timestamp t); simpl; by rewrite ?Hr.
Qed.

Lemma closed_end (now : Z) (t : task) :
  end_timestamp (closed now t) =
    match running t with
    | [] => Some (default now (end_timestamp t))
    | _ :: _ => end_timestamp t
    end.
Proof.
  unfold closed, stamp_end. destruct (running t); [|done].
  by destruct (end_timestamp t) eqn:He; simpl; rewrite ?He.
Qed.

(** X7. [_atomic_task_update] on a stored task whose value names a
    host: the call returns normally; the first [running] item of the
    host, if there is one, is removed and the value is appended to the
    chosen list and to no other; the end timestamp is set when this
    empties [running] and was not set before; no other task changes and
    the store keeps its keys. Without the task, or without a hostname in
    the value, the call raises KeyError and changes nothing. *)
Theorem atomic_update_moves_host (d : store task) (tid : string) (f : field)
    (v : entry) (now : Z) :
  wf d →
  let r := _atomic_task_update d tid f v now in
  (∀ t h, get d tid = Some t → e_hostname v = Some h →
     r.2 = None ∧ wf r.1 ∧
     (∃ t', get r.1 tid = Some t' ∧
        running t' = default (running t) (py_list_remove h (running t)) ∧
        success t' = (if f is F_success then success t ++ [v] else success t) ∧
        errors t' = (if f is F_errors then errors t ++ [v] else errors t) ∧
        end_timestamp t' = (if running t' is [] then Some (default now (end_timestamp t))
                            else end_timestamp t)) ∧
     (∀ k, k ≠ tid → get r.1 k = get d k) ∧
     (∀ k, k ∈ keys r.1 ↔ k ∈ keys d)) ∧
  (get d tid = None ∨ e_hostname v = None → r = (d, Some KeyError)).
Proof.
  intros Hwf r. split.
  - intros t h Hget Hh. subst r. unfold _atomic_task_update. rewrite Hget, Hh.
    destruct (close_and_store_back d tid t (append_to f v (drop_running h t)) now Hwf Hget)
      as (Hok & Hwf' & Hval & Hothers & Hkeys & _).
    split; [done|]. split; [done|]. split; [|done].
    eexists. split; [exact Hval|].
    destruct (closed_fields now (append_to f v (drop_running h t))) as (Hr & Hs & He).
    rewrite Hr, Hs, He, closed_end, append_to_running.
    assert (running (drop_running h t) = default (running t) (py_list_remove h (running t)))
      as Hdrop by (unfold drop_running; by destruct (py_list_remove h (running t))).
    assert (success (drop_running h t) = success t ∧ errors (drop_running h t) = errors t ∧
            end_timestamp (drop_running h t) = end_timestamp t) as (Hs' & He' & Hend').
    { unfold drop_running. by destruct (py_list_remove h (running t)). }
    rewrite Hdrop. split; [done|].
    destruct f; simpl; rewrite ?Hs', ?He', ?Hend'; done.
  - subst r. unfold _atomic_task_update. intros [Hnone|Hnone].
    + by rewrite Hnone.
    + rewrite Hnone. by destruct (get d tid).
Qed.

(** ** Completion of a shell or HTTP process *)

Lemma drop_running_fields (h : string) (t : task) :
  success (drop_running h t) = success t ∧ errors (drop_running h t) = errors t.
Proof. unfold drop_running. by destruct (py_list_remove h (running t)). Qed.

Lemma drop_running_remove (h : string) (t : task) :
  running (drop_running h t) = default (running t) (py_list_remove h (running t)).
Proof. unfold drop_running. by destruct (py_list_remove h (running t)). Qed.

(** The tail of a completion update: the host leaves [running], the
    entry that was added stays, and (b) is kept. *)
Lemma completion_step (d : store task) (tid hostname : string) (t : task) (f : field)
    (v : entry) (now : Z) :
  wf d → get d tid = Some t → ended_iff_idle t →
  let r := close_and_store d tid (drop_running hostname (append_to f v t)) now in
  r.2 = None ∧ wf r.1 ∧
  (∀ k, k ≠ tid → get r.1 k = get d k) ∧
  ∃ t', get r.1 tid = Some t' ∧ ended_iff_idle t' ∧
    execution_plan t' = execution_plan t ∧
    running t' = default (running t) (py_list_remove hostname (running t)) ∧
    success t' = success (append_to f v t) ∧ errors t' = errors (append_to f v t).
Proof.
  intros Hwf Hget Hb r.
  destruct (close_and_store_back d tid t (drop_running hostname (append_to f v t)) now Hwf Hget)
    as (Hok & Hwf' & Hval & Hothers & _).
  split; [done|]. split; [done|]. split; [done|]. eexists. split; [exact Hval|].
  split; [apply (completion_keeps_ended_iff_idle now hostname f v t Hb)|].
  destruct (closed_fields now (drop_running hostname (append_to f v t))) as (-> & -> & ->).
  destruct (drop_running_fields hostname (append_to f v t)) as [-> ->].
  rewrite drop_running_remove, append_to_running. split; [|done].
  unfold closed, stamp_end, drop_running.
  destruct (py_list_remove hostname (running (append_to f v t))) as [r'|];
    cbn [running set_running]; destruct f; simpl;
    repeat match goal with
           | |- context [match ?x with _ => _ end] => destruct x; try done
           end.
Qed.

(** The entry that [_update_task] adds. *)
Lemma shell_outcome_entry (hostname : string) (error : option string) (aborted : bool)
    (proc : option (option Z)) (t : task) :
  if bool_decide (error = None ∧ aborted = false ∧ proc = Some (Some 0))
  then shell_outcome hostname error aborted proc t =
         append_to F_success (Entry (Some hostname) None None None) t
  else ∃ msg, shell_outcome hostname error aborted proc t =
                append_to F_errors (Entry (Some hostname) (Some msg) None None) t.
Proof.
  unfold shell_outcome.
  destruct error as [m|]; [|destruct aborted; [|destruct proc as [[[|p|p]|]|]]].
  - rewrite bool_decide_eq_false_2 by (by intros [? _]). by eexists.
  - rewrite bool_decide_eq_false_2 by (by intros (_ & ? & _)). by eexists.
  - by rewrite bool_decide_eq_true_2.
  - rewrite bool_decide_eq_false_2 by (by intros (_ & _ & [= ?])). by eexists.
  - rewrite bool_decide_eq_false_2 by (by intros (_ & _ & [= ?])). by eexists.
  - rewrite bool_decide_eq_false_2 by (by intros (_ & _ & [= ?])). by eexists.
  - rewrite bool_decide_eq_false_2 by (by intros (_ & _ & ?)). by eexists.
Qed.

(** The store that [_update_task] leaves and the way it ends. *)
Lemma _update_task_unfold {W} (broadcast_status : string → string → string → W → W * option exn)
    (d : store task) (ws_manager : option W) (tid hostname : string)
    (error : option string) (aborted : bool) (proc : option (option Z)) (now : Z) :
  let r := _update_task broadcast_status d ws_manager tid hostname error aborted proc now in
  r.1.1 = match get d tid with
          | Some t => (close_and_store d tid
                         (drop_running hostname (shell_outcome hostname error aborted proc t))
                         now).1
          | None => d
          end.
Proof.
  unfold _update_task. destruct (get d tid) as [t|]; [|done].
  destruct (close_and_store _ _ _ _) as [d1 [e|]]; [done|].
  destruct ws_manager as [ws|]; [|done]. by destruct (broadcast_status _ _ _ ws).
Qed.

(** ** Recovery at start-up *)

Lemma recover_one_spec (d : store task) (k : string) (now : Z) :
  wf d →
  let r := recover_one d k now in
  r.2 = None ∧ wf r.1 ∧
  get r.1 k = recovered now <$> get d k ∧
  (∀ k', k' ≠ k → get r.1 k' = get d k') ∧
  (∀ k', k' ∈ _tagged_for_removal d → k' ∈ _tagged_for_removal r.1) ∧
  (∀ t, get d k = Some t → running t ≠ [] → k ∈ _tagged_for_removal r.1).
Proof.
  intros Hwf. unfold recover_one, recovered.
  destruct (get d k) as [v|] eqn:Hget; [|by simpl; rewrite Hget].
  destruct (running v) as [|h hs] eqn:Hr.
  { simpl. rewrite Hget. simpl. rewrite Hr. split_and!; try done. intros t [= <-]. done. }
  set (v1 := stamp_end now _).
  destruct (store_back d k v v1 Hwf Hget) as (Hok & Hwf1 & Hval & Hothers & Hkeys & Htags & _).
  destruct (_set_item d k v1) as [d1 e]. simpl in *. subst e.
  pose proof (wf_run d1 (OpTag k) Hwf1) as Hwf2. simpl in Hwf2.
  assert (k ∈ _tagged_for_removal (tag_for_removal d1 k)) as Hk.
  { unfold tag_for_removal.
    assert (k ∈ _order d1) as Hin by (apply (wf_in_order d1 k Hwf1); by eexists).
    rewrite (bool_decide_eq_true_2 _ Hin).
    rewrite bool_decide_eq_true_2 by (rewrite Htags; tauto).
    simpl. apply elem_of_app. right. by apply list_elem_of_singleton. }
  split; [done|]. split; [done|]. cbn [fst snd]. rewrite Hr.
  unfold get in *. rewrite tag_for_removal_db.
  split; [done|]. split; [done|]. split; [|done].
  intros k' Hk'. destruct (decide (k' = k)) as [->|Hne]; [done|].
  unfold tag_for_removal. destruct (_ && _); simpl.
  - apply elem_of_app. left. apply Htags. done.
  - apply Htags. done.
Qed.

Lemma recover_keys_spec (ks : list string) (d : store task) (now : Z) :
  wf d → NoDup ks →
  let r := recover_keys d ks now in
  r.2 = None ∧ wf r.1 ∧
  (∀ k, k ∈ ks → get r.1 k = recovered now <$> get d k) ∧
  (∀ k, k ∉ ks → get r.1 k = get d k) ∧
  (∀ k, k ∈ _tagged_for_removal d → k ∈ _tagged_for_removal r.1) ∧
  (∀ k t, k ∈ ks → get d k = Some t → running t ≠ [] → k ∈ _tagged_for_removal r.1).
Proof.
  revert d. induction ks as [|k ks IH]; intros d Hwf Hnd.
  - simpl. split_and!; try done; [by intros k ?%elem_of_nil|by intros k t ?%elem_of_nil].
  - apply NoDup_cons in Hnd as [Hk Hnd]. simpl.
    destruct (recover_one_spec d k now Hwf) as (Hok & Hwf1 & Hval & Hothers & Hkeep & Htag).
    destruct (recover_one d k now) as [d1 e]. simpl in *. subst e.
    destruct (IH d1 Hwf1 Hnd) as (Hok' & Hwf' & Hin' & Hout' & Hkeep' & Htag').
    split; [done|]. split; [done|]. split_and!.
    + intros k' [->|Hin]%elem_of_cons.
      * by rewrite Hout'.
      * rewrite Hin' by done. rewrite Hothers; [done|]. by intros ->.
    + intros k' [Hne Hnot]%not_elem_of_cons. rewrite Hout' by done. by apply Hothers.
    + intros k' Hk'. by apply Hkeep', Hkeep.
    + intros k' t [->|Hin]%elem_of_cons Hget Hrun.
      * by apply Hkeep', (Htag t).
      * apply (Htag' k' t); [done| |done]. rewrite Hothers; [done|]. by intros ->.
Qed.

(** X9. [recover_dropped_tasks] on a consistent store returns normally
    and keeps the set of stored keys. Every task that had running items
    afterwards has none: each of them became an error entry "Process
    dropped during restart" after the errors already there, the end
    timestamp is set if it was not, and the task is tagged for eviction.
    A task without running items is stored unchanged, and no tag that was
    there is lost. *)
Theorem recovery_clears_running (d : store task) (now : Z) :
  wf d →
  let r := recover_dropped_tasks d now in
  r.2 = None ∧ wf r.1 ∧
  (∀ k, is_Some (get r.1 k) ↔ is_Some (get d k)) ∧
  (∀ k t, get d k = Some t →
     ∃ t', get r.1 k = Some t' ∧ running t' = [] ∧ success t' = success t ∧
       errors t' = errors t ++ map (λ h, Entry (Some h) (Some "Process dropped during restart"%string)
                                                None None) (running t) ∧
       (running t = [] → t' = t) ∧
       (running t ≠ [] →
          end_timestamp t' = Some (default now (end_timestamp t)) ∧
          k ∈ _tagged_for_removal r.1)) ∧
  (∀ k, k ∈ _tagged_for_removal d → k ∈ _tagged_for_removal r.1).
Proof.
  intros Hwf r. subst r. unfold recover_dropped_tasks.
  destruct (recover_keys_spec (keys d) d now Hwf (proj1 Hwf))
    as (Hok & Hwf' & Hin & Hout & Hkeep & Htag).
  split; [done|]. split; [done|].
  assert (∀ k, get (recover_keys d (keys d) now).1 k = recovered now <$> get d k) as Hall.
  { intros k. destruct (decide (k ∈ keys d)) as [Hk|Hk]; [by apply Hin|].
    rewrite Hout by done.
    destruct (get d k) eqn:Hget; [|done]. destruct Hk.
    apply (wf_in_order d k Hwf). by eexists. }
  split; [|split; [|done]].
  - intros k. rewrite Hall. by rewrite fmap_is_Some.
  - intros k t Hget. exists (recovered now t). rewrite Hall, Hget. split; [done|].
    unfold recovered. destruct (running t) as [|h hs] eqn:Hr.
    + rewrite Hr, app_nil_r. done.
    + rewrite stamp_end_running. simpl.
      unfold stamp_end. simpl.
      split; [done|]. split; [by destruct (end_timestamp t)|].
      split; [by destruct (end_timestamp t)|]. split; [done|]. intros _.
      split; [by destruct (end_timestamp t) eqn:He; simpl; rewrite ?He|].
      apply (Htag k t); [|done|by rewrite Hr].
      apply (wf_in_order d k Hwf). by eexists.
Qed.

(** ** No tag survives on the running server *)

Lemma serve_wf {W} (broadcast_status : string → string → string → W → W * option exn)
    (o : server_op W) (d : store task) :
  wf d → wf (serve broadcast_status o d).1.
Proof.
  intros Hwf.
  assert (∀ k v, wf (_set_item d k v).1) as Hset
    by (intros k v; apply (wf_run d (OpSet k v) Hwf)).
  assert (∀ k v, wf (_set_item (tag_for_removal d k) k v).1) as Htagset.
  { intros k v. apply (wf_run _ (OpSet k v)). apply (wf_run d (OpTag k) Hwf). }
  assert (∀ tid t now, wf (close_and_store d tid t now).1) as Hclose.
  { intros tid t now. unfold close_and_store. destruct (running t); [apply Htagset|apply Hset]. }
  destruct o; simpl.
  - apply Hset.
  - unfold _atomic_task_update. destruct (get d tid); [|done].
    destruct (e_hostname value); [apply Hclose|done].
  - unfold _update_tasks. destruct (get d tid); [apply Hclose|done].
  - rewrite _update_task_unfold. destruct (get d tid); [apply Hclose|done].
  - unfold _update_plan_task_status. destruct (get d tid) as [t|]; [|done].
    destruct (plan_tasks t) as [[l|m]|]; [done|apply Hset|apply Hset].
  - unfold _update_parent_task_progress. destruct (get d tid) as [t|]; [|done].
    destruct (plan_tasks t) as [[l|m]|]; [done|apply Hset|apply Hset].
  - unfold plan_loop_end. destruct (get d tid) as [t|]; [|done].
    destruct (running t); [apply Htagset|done].
  - unfold execute_plan_failed. destruct (get d tid) as [t|]; [apply Hset|done].
Qed.

Lemma serve_tags_subset {W} (broadcast_status : string → string → string → W → W * option exn)
    (o : server_op W) (d : store task) (x : string) :
  wf d → x ∈ _tagged_for_removal (serve broadcast_status o d).1 → x ∈ _tagged_for_removal d.
Proof.
  intros Hwf.
  assert (∀ tid old t now, get d tid = Some old →
            x ∈ _tagged_for_removal (close_and_store d tid t now).1 →
            x ∈ _tagged_for_removal d) as Hclose.
  { intros tid old t now Hget Hx.
    destruct (close_and_store_back d tid old t now Hwf Hget) as (_ & _ & _ & _ & _ & Htags & _).
    by apply Htags in Hx as [? _]. }
  destruct o; simpl.
  - apply set_item_tags_subset.
  - unfold _atomic_task_update. destruct (get d tid) as [t|] eqn:Hget; [|done].
    destruct (e_hostname value); [by apply (Hclose tid t)|done].
  - unfold _update_tasks. destruct (get d tid) as [t|] eqn:Hget; [by apply (Hclose tid t)|done].
  - rewrite _update_task_unfold. destruct (get d tid) as [t|] eqn:Hget; [by apply (Hclose tid t)|done].
  - unfold _update_plan_task_status. destruct (get d tid) as [t|]; [|done].
    destruct (plan_tasks t) as [[l|m]|]; [done|apply set_item_tags_subset..].
  - unfold _update_parent_task_progress. destruct (get d tid) as [t|]; [|done].
    destruct (plan_tasks t) as [[l|m]|]; [done|apply set_item_tags_subset..].
  - unfold plan_loop_end. destruct (get d tid) as [t|] eqn:Hget; [|done].
    destruct (running t); [|done]. intros Hx.
    destruct (tag_then_store_back d tid t (stamp_end now t) Hwf Hget)
      as (_ & _ & _ & _ & _ & Htags & _).
    by apply Htags in Hx as [? _].
  - unfold execute_plan_failed. destruct (get d tid) as [t|]; [|done].
    apply set_item_tags_subset.
Qed.

(** X10. The running server never leaves a key tagged. Every call by
    which it writes to the task store (task creation, the three
    completion updates, the plan status and progress updates, the end of
    a plan and its failure handler) leaves only tags that were there
    before, because each tagging is followed by a write of the same key.
    So a store that starts empty stays without tags whatever the calls,
    and once it holds [max_size] tasks, finished or not, creating a task
    under a new id raises FullDictionaryError. *)
Theorem running_server_never_tags {W}
    (broadcast_status : string → string → string → W → W * option exn)
    (max_size : Z) (ops : list (server_op W)) :
  let d := serve_all broadcast_status ops (init max_size) in
  wf d ∧ _tagged_for_removal d = [] ∧
  ∀ tid command_name hostnames plan now,
    0 < max_size → len d = max_size → get d tid = None →
    create_task d tid command_name hostnames plan now = (d, Some FullDictionaryError).
Proof.
  assert (∀ (ops : list (server_op W)) d,
            wf d → _tagged_for_removal d = [] →
            wf (serve_all broadcast_status ops d) ∧
            _tagged_for_removal (serve_all broadcast_status ops d) = [] ∧
            _max_size (serve_all broadcast_status ops d) = _max_size d) as Hgen.
  { clear ops. induction ops as [|o ops IH]; intros d Hwf Htag; [done|].
    simpl. destruct (IH (serve broadcast_status o d).1) as (Hwf' & Htag' & Hmax').
    - by apply serve_wf.
    - destruct (_tagged_for_removal (serve broadcast_status o d).1) as [|x l] eqn:Hl; [done|].
      assert (x ∈ _tagged_for_removal d) as Hx.
      { apply (serve_tags_subset broadcast_status o d x Hwf). rewrite Hl. apply elem_of_cons. by left. }
      rewrite Htag in Hx. by apply elem_of_nil in Hx.
    - split; [done|]. split; [done|]. rewrite Hmax'.
      clear. destruct o; simpl; rewrite ?_update_task_unfold;
        unfold create_task, _atomic_task_update, _update_tasks,
          _update_plan_task_status, _update_parent_task_progress, plan_loop_end,
          execute_plan_failed, close_and_store, _set_item, tag_for_removal;
        repeat match goal with
               | |- context [match ?x with _ => _ end] => destruct x; try done
               end. }
  destruct (Hgen ops (init max_size) (wf_init max_size) eq_refl) as (Hwf & Htag & Hmax).
  simpl in Hmax. cbv zeta. split; [done|]. split; [done|].
  intros tid command_name hostnames plan now Hpos Hlen Hget.
  unfold create_task. apply _set_item_full; try done.
  - by rewrite Hmax.
  - rewrite Hmax. lia.
Qed.

(** ** Invariant (b) along the task-update operations *)





Lemma shell_outcome_append (hostname : string) (error : option string) (aborted : bool)
    (proc : option (option Z)) (t : task) :
  ∃ f v, shell_outcome hostname error aborted proc t = append_to f v t.
Proof.
  pose proof (shell_outcome_entry hostname error aborted proc t) as H.
  case_bool_decide; [by eexists _, _|]. destruct H as [msg ->]. by eexists _, _.
Qed.



(** Two tasks, one of them with two hosts still running. *)
Definition ex_busy : task :=
  Task "b" 3 None (Some "status"%string) None None [] ["h1"%string; "h2"%string] [].

Definition ex_store : store task :=
  Store {[ "p"%string := ex_parent; "b"%string := ex_busy ]} ["p"%string; "b"%string] [] 2.

Lemma wf_ex_store : wf ex_store.
Proof. apply (bool_decide_unpack _). vm_compute. exact I. Defined.

Lemma atomic_update_moves_host_witness :
  wf ex_store ∧
  (running <$> get (_atomic_task_update ex_store "b" F_success
                      (Entry (Some "h1"%string) None None None) 1000).1 "b")
    = Some ["h2"%string] ∧
  get (_atomic_task_update ex_store "b" F_success
         (Entry (Some "h1"%string) None None None) 1000).1 "p" = Some ex_parent.
Proof.
  split; [exact wf_ex_store|]. split; [reflexivity|].
  destruct (atomic_update_moves_host ex_store "b" F_success
              (Entry (Some "h1"%string) None None None) 1000 wf_ex_store) as [Hmove _].
  destruct (Hmove ex_busy "h1"%string eq_refl eq_refl) as (_ & _ & _ & Hothers & _).
  rewrite (Hothers "p"%string) by discriminate. reflexivity.
Defined.

Lemma ended_iff_idle_ex_busy : ended_iff_idle ex_busy.
Proof. split; [by intros [? ?]|discriminate]. Defined.

Lemma recovery_clears_running_witness :
  wf ex_store ∧ (recover_dropped_tasks ex_store 1000).2 = None ∧
  "b"%string ∈ _tagged_for_removal (recover_dropped_tasks ex_store 1000).1.
Proof.
  split; [exact wf_ex_store|].
  destruct (recovery_clears_running ex_store 1000 wf_ex_store) as (Hok & _ & _ & Htasks & _).
  split; [exact Hok|].
  destruct (Htasks "b"%string ex_busy eq_refl) as (t' & _ & _ & _ & _ & _ & Hrun).
  exact (proj2 (Hrun ltac:(discriminate))).
Defined.




End TaskOps.

(* ======================================================================= *)
(** * task_executor.py: the dispatch of a wake-up task *)
(* ======================================================================= *)

Module Dispatch.
Import PersistentDict Tasks.

Section Wakeup.

(** [str(e)] of the exception that a host's action raised, and the clock
    that the update made for a host reads. *)
Variable py_str_exn : exn → string.
Variable clock : string → Z.

(** [send_wol(entry.get("mac"))]: without a [mac] key the argument is
    [None], which has no [replace]. *)
Definition wol_result (entry : Validation.host_entry) : exn + list Wol.sock_call :=
  match Validation.mac entry with
  | None => inl (AttributeError "'NoneType' object has no attribute 'replace'")
  | Some m => Wol.send_wol m
  end.

(** [TaskExecutor.execute_wakeup]: the store it leaves, the socket calls
    it made, the exception it raised. *)
Definition execute_wakeup (d : store task) (task_id hostname : string)
    (entry : Validation.host_entry) : store task * list Wol.sock_call * option exn :=
  match wol_result entry with
  | inl e => (d, [], Some e)
  | inr calls =>
      let r := _atomic_task_update d task_id F_success
                 (Entry (Some hostname) None None None) (clock hostname) in
      (r.1, calls, r.2)
  end.

(** [TaskExecutor.execute_task] for the action "wakeup": the loop over
    [entries.items()] with its handler
    [except Exception as e: self._atomic_task_update(task_id, "errors", ...)];
    an exception of the handler itself leaves the loop. *)
Fixpoint execute_task (d : store task) (task_id : string)
    (entries : list (string * Validation.host_entry))
  : store task * list Wol.sock_call * option exn :=
  match entries with
  | [] => (d, [], None)
  | (hostname, entry) :: rest =>
      let '(d1, calls, e) := execute_wakeup d task_id hostname entry in
      match e with
      | None =>
          let '(d2, calls', e') := execute_task d1 task_id rest in
          (d2, calls ++ calls', e')
      | Some ex =>
          match _atomic_task_update d1 task_id F_errors
                  (Entry (Some hostname) (Some (py_str_exn ex)) None None) (clock hostname) with
          | (d2, None) =>
              let '(d3, calls', e') := execute_task d2 task_id rest in
              (d3, calls ++ calls', e')
          | (d2, Some ex') => (d2, calls, Some ex')
          end
      end
  end.

(** [400 if task["errors"] else 200], the status of the response that
    carries the task record. *)
Definition response_code (t : task) : Z :=
  match errors t with
  | [] => 200
  | _ :: _ => 400
  end.

(** What a host contributes: its datagram, its success entry or its
    error entry. *)
Definition calls_of (he : string * Validation.host_entry) : list Wol.sock_call :=
  match wol_result he.2 with
  | inr calls => calls
  | inl _ => []
  end.

Definition success_of (he : string * Validation.host_entry) : option entry :=
  match wol_result he.2 with
  | inr _ => Some (Entry (Some he.1) None None None)
  | inl _ => None
  end.

Definition error_of (he : string * Validation.host_entry) : option entry :=
  match wol_result he.2 with
  | inr _ => None
  | inl ex => Some (Entry (Some he.1) (Some (py_str_exn ex)) None None)
  end.

Lemma update_start_timestamp (now : Z) (h : string) (f : field) (v : entry) (t : task) :
  start_timestamp (closed now (append_to f v (drop_running h t))) = start_timestamp t.
Proof.
  unfold closed, stamp_end, drop_running.
  destruct (py_list_remove h (running t)); destruct f; simpl;
    repeat match goal with
           | |- context [match ?x with _ => _ end] => destruct x; simpl
           end; done.
Qed.

Lemma execute_task_spec (entries : list (string * Validation.host_entry))
    (d : store task) (tid : string) (t : task) :
  wf d → get d tid = Some t → running t = entries.*1 →
  let r := execute_task d tid entries in
  r.2 = None ∧ r.1.2 = concat (map calls_of entries) ∧ wf r.1.1 ∧
  ∃ t', get r.1.1 tid = Some t' ∧ running t' = [] ∧
        success t' = success t ++ omap success_of entries ∧
        errors t' = errors t ++ omap error_of entries ∧
        start_timestamp t' = start_timestamp t ∧
        end_timestamp t' =
          match last entries.*1 with
          | Some h => Some (default (clock h) (end_timestamp t))
          | None => end_timestamp t
          end.
Proof.
  revert d t. induction entries as [|[h e] entries IH]; intros d t Hwf Hget Hrun.
  - simpl. split; [done|]. split; [done|]. split; [done|].
    exists t. by rewrite !app_nil_r.
  - rewrite fmap_cons in Hrun. cbn [fst] in Hrun.
    (* the update that the host's action or its handler makes *)
    assert (∀ f v, e_hostname v = Some h →
              let u := _atomic_task_update d tid f v (clock h) in
              u.2 = None ∧ wf u.1 ∧
              ∃ t1, get u.1 tid = Some t1 ∧ running t1 = entries.*1 ∧
                    success t1 = (if f is F_success then success t ++ [v] else success t) ∧
                    errors t1 = (if f is F_errors then errors t ++ [v] else errors t) ∧
                    start_timestamp t1 = start_timestamp t ∧
                    end_timestamp t1 =
                      (if entries is [] then Some (default (clock h) (end_timestamp t))
                       else end_timestamp t)) as Hupd.
    { intros f v Hv.
      destruct (_atomic_task_update_spec d tid h f v t (clock h) Hwf Hget Hv)
        as (Hok & Hval & _ & Hwf').
      split; [done|]. split; [done|]. eexists. split; [exact Hval|].
      rewrite update_start_timestamp.
      destruct (TaskOps.closed_fields (clock h) (append_to f v (drop_running h t)))
        as (-> & -> & ->).
      rewrite TaskOps.closed_end, TaskOps.append_to_running, TaskOps.drop_running_remove.
      destruct (TaskOps.drop_running_fields h t) as [Hs He].
      rewrite Hrun. simpl. rewrite decide_True by done. simpl.
      split; [done|].
      assert (end_timestamp (append_to f v (drop_running h t)) = end_timestamp t) as ->
        by (destruct f; simpl; apply drop_running_end).
      destruct f; simpl; rewrite Hs, He; split_and!; try done; by destruct entries. }
    cbn [execute_task]. unfold execute_wakeup.
    unfold calls_of, success_of, error_of in *. cbn [map omap concat fst snd].
    destruct (wol_result e) as [ex|calls] eqn:Hwol.
    + destruct (Hupd F_errors (Entry (Some h) (Some (py_str_exn ex)) None None) eq_refl)
        as (Hok & Hwf1 & t1 & Hget1 & Hrun1 & Hs1 & He1 & Hst1 & Hend1).
      destruct (_atomic_task_update d tid F_errors _ (clock h)) as [d1 o]. simpl in *. subst o.
      destruct (IH d1 t1 Hwf1 Hget1 Hrun1)
        as (Hok' & Hcalls' & Hwf' & t' & Hget' & Hr' & Hs' & He' & Hst' & Hend').
      destruct (execute_task d1 tid entries) as [[d2 calls'] e']. simpl in *. subst e'.
      rewrite ?Hwol.
      split; [done|]. split; [done|]. split; [done|].
      exists t'. split; [done|]. split; [done|].
      rewrite Hs', He', Hs1, He1, Hst', Hst1, Hend', Hend1, ?Hwol. split; [done|].
      split; [by rewrite <- app_assoc|]. split; [done|].
      destruct entries as [|[h' e'] entries']; [done|]. simpl.
      by destruct (last (entries'.*1)).
    + destruct (Hupd F_success (Entry (Some h) None None None) eq_refl)
        as (Hok & Hwf1 & t1 & Hget1 & Hrun1 & Hs1 & He1 & Hst1 & Hend1).
      destruct (_atomic_task_update d tid F_success _ (clock h)) as [d1 o]. simpl in *. subst o.
      destruct (IH d1 t1 Hwf1 Hget1 Hrun1)
        as (Hok' & Hcalls' & Hwf' & t' & Hget' & Hr' & Hs' & He' & Hst' & Hend').
      destruct (execute_task d1 tid entries) as [[d2 calls'] e']. simpl in *. subst e'.
      rewrite ?Hwol.
      split; [done|]. split; [by rewrite Hcalls'|]. split; [done|].
      exists t'. split; [done|]. split; [done|].
      rewrite Hs', He', Hs1, He1, Hst', Hst1, Hend', Hend1, ?Hwol.
      split; [by rewrite <- app_assoc|]. split; [done|]. split; [done|].
      destruct entries as [|[h' e'] entries']; [done|]. simpl.
      by destruct (last (entries'.*1)).
Qed.

Lemma success_or_error (he : string * Validation.host_entry) :
  is_Some (success_of he) ↔ error_of he = None.
Proof.
  unfold success_of, error_of. destruct (wol_result he.2); split; (done || by eexists || by intros [? ?]).
Qed.

(** X11. A wake-up task from creation to the response. After
    [create_task] has stored the task for the validated entries,
    [execute_task] returns normally whatever [send_wol] does for each
    host: every host has left [running]; [success] lists, in the order
    of the entries, the hosts whose datagram was sent and [errors] the
    others with the text of their exception; the socket calls made are
    those of the hosts that succeeded, in order; the end timestamp is
    the clock read at the update made for the last host; and the
    response code is 200 exactly when no host failed, 400 otherwise. *)
Theorem wakeup_task_completes (d d1 : store task) (tid : string)
    (entries : list (string * Validation.host_entry)) (now : Z) :
  wf d → create_task d tid None entries.*1 None now = (d1, None) →
  let r := execute_task d1 tid entries in
  r.2 = None ∧ r.1.2 = concat (map calls_of entries) ∧ wf r.1.1 ∧
  ∃ t', get r.1.1 tid = Some t' ∧ running t' = [] ∧
        success t' = omap success_of entries ∧
        errors t' = omap error_of entries ∧
        start_timestamp t' = now ∧
        end_timestamp t' = clock <$> last entries.*1 ∧
        (response_code t' = 200 ↔ Forall (λ he, is_Some (success_of he)) entries) ∧
        (response_code t' = 400 ↔ Exists (λ he, is_Some (error_of he)) entries).
Proof.
  intros Hwf Hcreate.
  pose proof (wf_run d (OpSet tid (new_task tid None entries.*1 None now)) Hwf) as Hwf1.
  unfold create_task in Hcreate. simpl in Hwf1. rewrite Hcreate in Hwf1. simpl in Hwf1.
  apply _set_item_stored in Hcreate.
  destruct (execute_task_spec entries d1 tid _ Hwf1 Hcreate eq_refl)
    as (Hok & Hcalls & Hwf' & t' & Hget & Hrun & Hs & He & Hst & Hend).
  split; [done|]. split; [done|]. split; [done|].
  exists t'. simpl in Hs, He, Hst, Hend. split; [done|]. split; [done|].
  split; [done|]. split; [done|]. split; [done|].
  split; [rewrite Hend; by destruct (last entries.*1)|].
  unfold response_code. rewrite He. clear.
  induction entries as [|he entries [IH1 IH2]]; simpl.
  - split; [split; [constructor|done]|]. split; [done|]. by intros ?%Exists_nil.
  - rewrite Forall_cons, Exists_cons, success_or_error.
    destruct (error_of he) as [x|] eqn:Hx; simpl.
    + split; [split; [done|by intros [? _]]|]. split; [|done]. intros _. left. by eexists.
    + split.
      * rewrite IH1. split; [by split|by intros [_ ?]].
      * rewrite IH2. split; [by right|]. intros [[? ?]|?]; done.
Qed.

End Wakeup.

(** Two hosts, the second with a MAC address that is no hexadecimal
    number. *)
Definition ex_entries : list (string * Validation.host_entry) :=
  [("h1"%string, Validation.HostEntry (Some "AA:bb-cc:DD:ee:0F"%string) []);
   ("h2"%string, Validation.HostEntry (Some "zz"%string) [])].

Definition ex_str_exn (e : exn) : string :=
  match e with
  | ValueError msg | TypeError msg | AttributeError msg => msg
  | _ => ""%string
  end.

Lemma wakeup_task_completes_witness :
  let d1 := (create_task (init 0) "t" None ["h1"%string; "h2"%string] None 5).1 in
  let r := execute_task ex_str_exn (λ _, 9) d1 "t" ex_entries in
  wf (init (V:=task) 0) ∧
  r.2 = None ∧
  ∃ t', get r.1.1 "t" = Some t' ∧ running t' = [] ∧
        success t' = [Entry (Some "h1"%string) None None None] ∧
        end_timestamp t' = Some 9 ∧ response_code t' = 400.
Proof.
  split; [apply wf_init|].
  destruct (wakeup_task_completes ex_str_exn (λ _, 9) (init 0) _ "t" ex_entries 5
              (wf_init 0) eq_refl)
    as (Hok & _ & _ & t' & Hget & Hrun & Hs & He & _ & Hend & _ & H400).
  split; [exact Hok|]. exists t'.
  split; [exact Hget|]. split; [exact Hrun|]. split; [exact Hs|]. split; [exact Hend|].
  apply H400. right. left. by eexists.
Defined.

End Dispatch.

(* ======================================================================= *)
(** * request_validator.py: the path of a POST and the host checks *)
(* ======================================================================= *)

Module Requests.
Import Validation.

(** [s.lstrip("/")] and [s.rstrip("/")] *)
Fixpoint lstrip_slash (s : string) : string :=
  match s with
  | String c s' => if Ascii.eqb c "/" then lstrip_slash s' else s
  | EmptyString => EmptyString
  end.

Fixpoint rstrip_slash (s : string) : string :=
  match s with
  | String c s' =>
      match rstrip_slash s' with
      | EmptyString => if Ascii.eqb c "/" then EmptyString else String c EmptyString
      | r => String c r
      end
  | EmptyString => EmptyString
  end.

(** [s.strip("/")] *)
Definition strip_slash (s : string) : string := rstrip_slash (lstrip_slash s).

(** [RequestParser.parse_post_path]: the action, the command name and
    the single host of the path. *)
Definition parse_post_path (path : string)
  : exn + (string * option string * option string) :=
  let parts := Token.split_on "/" (strip_slash path) in
  let n := length parts in
  if (n <? 4)%nat then inl (ValueError "Invalid API path")
  else if bool_decide (parts !! 3%nat = Some "wakeup"%string) && (4 <=? n)%nat && (n <=? 5)%nat then
    inr ("wakeup"%string, None, if (n =? 5)%nat then parts !! 4%nat else None)
  else if bool_decide (parts !! 3%nat = Some "commands"%string) && (5 <=? n)%nat && (n <=? 6)%nat then
    inr ("command"%string, parts !! 4%nat, if (n =? 6)%nat then parts !! 5%nat else None)
  else inl (ValueError "Invalid API path").

(** A path segment: no slash in it. *)
Definition segment (s : string) : Prop := Token.has_char "/" s = false.

(** What [validate_hosts] decides for one host. *)
Definition check_host (action command_name : string) (hosts_config : gmap string host_entry)
    (h : string) : error_item + entry_data :=
  match hosts_config !! h with
  | None => inl (ErrorItem h "Host not allowed")
  | Some e =>
      if bool_decide (action = "wakeup") then
        match validate_wakeup_host h e with
        | Some err => inl err
        | None => inr (WakeEntry e)
        end
      else
        match validate_command_host h e command_name with
        | inl err => inl err
        | inr (c, t, s) => inr (CmdEntry c t s)
        end
  end.

Definition host_error (action command_name : string) (hosts_config : gmap string host_entry)
    (h : string) : option error_item :=
  match check_host action command_name hosts_config h with
  | inl err => Some err
  | inr _ => None
  end.

(** ** Paths *)

Lemma split_on_segment (sep : ascii) (a rest : string) :
  Token.has_char sep a = false →
  Token.split_on sep (a +:+ String sep rest) = a :: Token.split_on sep rest.
Proof.
  induction a as [|c a IH].
  - intros _. rewrite Wol.str_app_nil. simpl. by rewrite Ascii.eqb_refl.
  - rewrite Wol.str_app_cons. simpl. destruct (Ascii.eqb c sep); [done|]. simpl.
    intros Ha. by rewrite IH.
Qed.

Lemma split_on_last (sep : ascii) (a : string) :
  Token.has_char sep a = false → Token.split_on sep a = [a].
Proof.
  induction a as [|c a IH]; [done|]. simpl.
  destruct (Ascii.eqb c sep); [done|]. simpl. intros Ha. by rewrite IH.
Qed.

Lemma rstrip_slash_segment (a : string) : segment a → rstrip_slash a = a.
Proof.
  unfold segment. induction a as [|c a IH]; [done|]. simpl.
  destruct (Ascii.eqb c "/") eqn:Hc; [done|]. simpl. intros Ha. rewrite IH by done.
  by destruct a.
Qed.

Lemma rstrip_slash_app (a b : string) :
  segment b → b ≠ EmptyString → rstrip_slash (a +:+ b) = a +:+ b.
Proof.
  intros Hb Hne. induction a as [|c a IH].
  - rewrite Wol.str_app_nil. by apply rstrip_slash_segment.
  - rewrite Wol.str_app_cons. simpl. rewrite IH.
    destruct (a +:+ b) eqn:Hab; [|done].
    destruct a; [|done]. rewrite Wol.str_app_nil in Hab. done.
Qed.

Lemma lstrip_slash_segment (a rest : string) :
  segment a → a ≠ EmptyString → lstrip_slash (String "/" (a +:+ rest)) = a +:+ rest.
Proof.
  unfold segment. intros Ha Hne. simpl. destruct a as [|c a]; [done|].
  rewrite Wol.str_app_cons. simpl in *. by destruct (Ascii.eqb c "/").
Qed.

(** The path [/a/b/c/tail], stripped and split. *)
Lemma split_api_path (a b c tail last : string) :
  segment a → a ≠ EmptyString → segment b → segment c →
  segment last → last ≠ EmptyString →
  Token.split_on "/" (strip_slash (String "/" (a +:+ String "/" (b +:+ String "/"
                        (c +:+ String "/" (tail +:+ last)))))) =
    a :: b :: c :: Token.split_on "/" (tail +:+ last).
Proof.
  intros Ha Hane Hb Hc Hl Hlne. unfold strip_slash.
  rewrite lstrip_slash_segment by done.
  replace (a +:+ String "/" (b +:+ String "/" (c +:+ String "/" (tail +:+ last))))
    with ((a +:+ String "/" (b +:+ String "/" (c +:+ String "/" tail))) +:+ last).
  - rewrite rstrip_slash_app by done.
    rewrite !Placeholders.str_app_assoc, !Wol.str_app_cons.
    rewrite split_on_segment by done.
    rewrite !Placeholders.str_app_assoc, !Wol.str_app_cons.
    rewrite split_on_segment by done.
    rewrite !Placeholders.str_app_assoc, !Wol.str_app_cons.
    by rewrite split_on_segment by done.
  - rewrite !Placeholders.str_app_assoc, !Wol.str_app_cons.
    rewrite !Placeholders.str_app_assoc, !Wol.str_app_cons.
    by rewrite !Placeholders.str_app_assoc.
Qed.

(** X12. [parse_post_path] reads the fourth segment of the path as
    the action and takes no notice of the first three. Under any prefix
    [/a/b/c] it returns the wake-up action without host for
    [/wakeup] and with the host for [/wakeup/host], the command with
    its name for [/commands/name] and with name and host for
    [/commands/name/host]; a hostname or name is given back unchanged as
    long as it has no slash. [/commands] alone, a longer wake-up path
    and any other action raise ValueError. *)
Theorem parse_post_path_shapes (a b c name host : string) :
  segment a → a ≠ EmptyString → segment b → segment c →
  segment name → name ≠ EmptyString → segment host → host ≠ EmptyString →
  let api := λ tail, String "/" (a +:+ String "/" (b +:+ String "/" (c +:+ String "/" tail))) in
  parse_post_path (api "wakeup") = inr ("wakeup", None, None)%string ∧
  parse_post_path (api ("wakeup/" +:+ host)) = inr ("wakeup"%string, None, Some host) ∧
  parse_post_path (api ("commands/" +:+ name)) = inr ("command"%string, Some name, None) ∧
  parse_post_path (api ("commands/" +:+ name +:+ String "/" host))
    = inr ("command"%string, Some name, Some host) ∧
  parse_post_path (api "commands") = inl (ValueError "Invalid API path") ∧
  parse_post_path (api ("wakeup/" +:+ name +:+ String "/" host))
    = inl (ValueError "Invalid API path") ∧
  (name ≠ "wakeup"%string → name ≠ "commands"%string →
   parse_post_path (api (name +:+ String "/" host)) = inl (ValueError "Invalid API path")).
Proof.
  intros Ha Hane Hb Hc Hn Hnne Hh Hhne api. subst api. cbv beta.
  assert (∀ tail last, segment last → last ≠ EmptyString →
            parse_post_path (String "/" (a +:+ String "/" (b +:+ String "/"
                               (c +:+ String "/" (tail +:+ last))))) =
            let parts := a :: b :: c :: Token.split_on "/" (tail +:+ last) in
            let n := length parts in
            if (n <? 4)%nat then inl (ValueError "Invalid API path")
            else if bool_decide (parts !! 3%nat = Some "wakeup"%string) && (4 <=? n)%nat && (n <=? 5)%nat then
              inr ("wakeup"%string, None, if (n =? 5)%nat then parts !! 4%nat else None)
            else if bool_decide (parts !! 3%nat = Some "commands"%string) && (5 <=? n)%nat && (n <=? 6)%nat then
              inr ("command"%string, parts !! 4%nat, if (n =? 6)%nat then parts !! 5%nat else None)
            else inl (ValueError "Invalid API path")) as Hparse.
  { intros tail last Hl Hlne. unfold parse_post_path. by rewrite split_api_path. }
  split_and!.
  - pose proof (Hparse ""%string "wakeup"%string eq_refl ltac:(discriminate)) as H.
    rewrite Wol.str_app_nil in H. by rewrite H.
  - rewrite (Hparse "wakeup/" host) by done.
    change ("wakeup/" +:+ host)%string with ("wakeup" +:+ String "/" host)%string.
    rewrite split_on_segment by done. by rewrite split_on_last.
  - rewrite (Hparse "commands/" name) by done.
    change ("commands/" +:+ name)%string with ("commands" +:+ String "/" name)%string.
    rewrite split_on_segment by done. by rewrite split_on_last.
  - replace ("commands/" +:+ name +:+ String "/" host)%string
      with (("commands/" +:+ name +:+ "/") +:+ host)%string
      by (by rewrite !Placeholders.str_app_assoc).
    rewrite (Hparse _ host) by done.
    rewrite !Placeholders.str_app_assoc.
    change ("commands/" +:+ name +:+ "/" +:+ host)%string
      with ("commands" +:+ String "/" (name +:+ String "/" host))%string.
    rewrite !split_on_segment by done. by rewrite split_on_last.
  - pose proof (Hparse ""%string "commands"%string eq_refl ltac:(discriminate)) as H.
    rewrite Wol.str_app_nil in H. by rewrite H.
  - replace ("wakeup/" +:+ name +:+ String "/" host)%string
      with (("wakeup/" +:+ name +:+ "/") +:+ host)%string
      by (by rewrite !Placeholders.str_app_assoc).
    rewrite (Hparse _ host) by done.
    rewrite !Placeholders.str_app_assoc.
    change ("wakeup/" +:+ name +:+ "/" +:+ host)%string
      with ("wakeup" +:+ String "/" (name +:+ String "/" host))%string.
    rewrite !split_on_segment by done. by rewrite split_on_last.
  - intros Hw Hcmd.
    replace (name +:+ String "/" host)%string with ((name +:+ "/") +:+ host)%string
      by (by rewrite !Placeholders.str_app_assoc).
    rewrite (Hparse _ host) by done.
    rewrite !Placeholders.str_app_assoc.
    change (name +:+ "/" +:+ host)%string with (name +:+ String "/" host)%string.
    rewrite split_on_segment by done. rewrite split_on_last by done.
    cbv zeta. simpl.
    rewrite !bool_decide_eq_false_2; [done|by intros [= ?]|by intros [= ?]].
Qed.

(** ** The host checks *)

Lemma dict_set_keys {A} (k : string) (v : A) (d : list (string * A)) :
  (dict_set k v d).*1 = if bool_decide (k ∈ d.*1) then d.*1 else d.*1 ++ [k].
Proof.
  induction d as [|[k' v'] d IH]; [done|]. cbn [dict_set]. rewrite fmap_cons. cbn [fst].
  destruct (decide (k' = k)) as [->|Hne].
  - rewrite (bool_decide_eq_true_2 (k = k)) by done. rewrite fmap_cons. cbn [fst].
    rewrite bool_decide_eq_true_2; [done|]. apply elem_of_cons. by left.
  - rewrite (bool_decide_eq_false_2 (k' = k)) by done. rewrite fmap_cons. cbn [fst].
    rewrite IH. destruct (decide (k ∈ d.*1)) as [Hin|Hnot].
    + rewrite !bool_decide_eq_true_2; [done| |done]. apply elem_of_cons. by right.
    + rewrite !bool_decide_eq_false_2; [done| |done].
      rewrite not_elem_of_cons. split; [congruence|done].
Qed.

Lemma dict_set_elem {A} (k x : string) (v : A) (d : list (string * A)) :
  x ∈ (dict_set k v d).*1 ↔ x = k ∨ x ∈ d.*1.
Proof.
  rewrite dict_set_keys. case_bool_decide as Hk.
  - split; [by right|]. intros [->|?]; done.
  - rewrite elem_of_app, list_elem_of_singleton. tauto.
Qed.

Lemma dict_set_NoDup {A} (k : string) (v : A) (d : list (string * A)) :
  NoDup d.*1 → NoDup (dict_set k v d).*1.
Proof.
  intros Hnd. rewrite dict_set_keys. case_bool_decide as Hk; [done|].
  apply NoDup_app. split_and!; [done| |apply NoDup_singleton].
  intros x Hx Hx'. apply list_elem_of_singleton in Hx'. by subst.
Qed.

Lemma validate_command_host_hostname (h : string) (e : host_entry) (command_name : string)
    (err : error_item) :
  validate_command_host h e command_name = inl err → hostname err = h.
Proof.
  unfold validate_command_host, _validate_http_command, _validate_shell_command.
  intros Hc.
  repeat match type of Hc with
         | context [match ?x with _ => _ end] => destruct x; try discriminate
         end;
    by injection Hc as <-.
Qed.

Lemma check_host_hostname (action command_name : string)
    (hosts_config : gmap string host_entry) (h : string) (err : error_item) :
  check_host action command_name hosts_config h = inl err → hostname err = h.
Proof.
  unfold check_host, validate_wakeup_host.
  destruct (hosts_config !! h) as [e|]; [|by intros [= <-]].
  destruct (bool_decide (action = "wakeup")).
  - destruct (truthy (mac e)); [done|]. by intros [= <-].
  - destruct (validate_command_host h e command_name) as [err'|[[c t] s]] eqn:Hv; [|done].
    intros [= <-]. by eapply validate_command_host_hostname.
Qed.

(** The loop of [validate_hosts] in terms of the decision per host. *)
Lemma validate_hosts_from_cons (h : string) (hosts : list string) (action command_name : string)
    (hosts_config : gmap string host_entry)
    (errors : list error_item) (entries : list (string * entry_data)) :
  validate_hosts_from (h :: hosts) action command_name hosts_config errors entries =
    match check_host action command_name hosts_config h with
    | inl err =>
        validate_hosts_from hosts action command_name hosts_config (errors ++ [err]) entries
    | inr v =>
        validate_hosts_from hosts action command_name hosts_config errors (dict_set h v entries)
    end.
Proof.
  cbn [validate_hosts_from]. unfold check_host.
  destruct (hosts_config !! h) as [e|]; [|done].
  destruct (bool_decide (action = "wakeup")).
  - by destruct (validate_wakeup_host h e).
  - by destruct (validate_command_host h e command_name) as [err|[[c t] s]].
Qed.

Lemma validate_hosts_from_spec (hosts : list string) (action command_name : string)
    (hosts_config : gmap string host_entry)
    (errors : list error_item) (entries : list (string * entry_data)) :
  let r := validate_hosts_from hosts action command_name hosts_config errors entries in
  r.1 = errors ++ omap (host_error action command_name hosts_config) hosts ∧
  (∀ h, h ∈ r.2.*1 ↔ h ∈ entries.*1 ∨
          (h ∈ hosts ∧ host_error action command_name hosts_config h = None)) ∧
  (NoDup entries.*1 → NoDup r.2.*1).
Proof.
  revert errors entries. induction hosts as [|h hosts IH]; intros errors entries.
  - simpl. rewrite app_nil_r. split; [done|]. split; [|done].
    intros h. split; [by left|]. intros [?|[?%elem_of_nil _]]; done.
  - rewrite validate_hosts_from_cons. cbn [omap list_omap]. unfold host_error at 1.
    destruct (check_host action command_name hosts_config h) as [err|v] eqn:Hc.
    + destruct (IH (errors ++ [err]) entries) as (He & Hk & Hnd).
      split; [by rewrite He, <- app_assoc|]. split; [|done].
      intros h0. rewrite Hk, elem_of_cons. split; [tauto|].
      intros [?|[[->|?] Hnone]]; [tauto| |tauto].
      unfold host_error in Hnone. by rewrite Hc in Hnone.
    + destruct (IH errors (dict_set h v entries)) as (He & Hk & Hnd).
      split; [done|]. split.
      * intros h0. rewrite Hk, dict_set_elem, elem_of_cons. split; [|tauto].
        intros [[->|?]|?]; [|tauto|tauto].
        right. split; [by left|]. unfold host_error. by rewrite Hc.
      * intros Hnd0. by apply Hnd, dict_set_NoDup.
Qed.

(** X13. [validate_hosts] sorts every requested host into exactly
    one of its two results. [errors] holds one item per occurrence of a
    refused host, under that host's name and in the order of the
    request; [entries] has one key per accepted host, without
    duplicates; no host is in both, and none is dropped. A host that the
    configuration does not know is refused with "Host not allowed". *)
Theorem validate_hosts_partitions (hosts : list string) (action command_name : string)
    (hosts_config : gmap string host_entry) :
  let errors := (validate_hosts hosts action command_name hosts_config).1 in
  let entries := (validate_hosts hosts action command_name hosts_config).2 in
  errors = omap (host_error action command_name hosts_config) hosts ∧
  map hostname errors =
    filter (λ h, is_Some (host_error action command_name hosts_config h)) hosts ∧
  NoDup entries.*1 ∧
  (∀ h, h ∈ entries.*1 ↔
          h ∈ hosts ∧ host_error action command_name hosts_config h = None) ∧
  (∀ h, h ∈ hosts ↔ h ∈ map hostname errors ∨ h ∈ entries.*1) ∧
  (∀ h, ¬ (h ∈ map hostname errors ∧ h ∈ entries.*1)) ∧
  (∀ h, h ∈ hosts → hosts_config !! h = None →
          ErrorItem h "Host not allowed" ∈ errors).
Proof.
  intros errors entries. subst errors entries. unfold validate_hosts.
  destruct (validate_hosts_from_spec hosts action command_name hosts_config [] [])
    as (He & Hk & Hnd).
  rewrite app_nil_l in He. rewrite He.
  assert (map hostname (omap (host_error action command_name hosts_config) hosts) =
          filter (λ h, is_Some (host_error action command_name hosts_config h)) hosts) as Hnames.
  { clear. induction hosts as [|h hosts IH]; [done|]. cbn [omap list_omap map] in *.
    destruct (host_error action command_name hosts_config h) as [err|] eqn:Herr.
    - rewrite filter_cons_True by (rewrite Herr; by eexists).
      cbn [omap list_omap map] in *. rewrite IH. f_equal.
      unfold host_error in Herr.
      destruct (check_host action command_name hosts_config h) eqn:Hc; [|done].
      injection Herr as ->. by eapply check_host_hostname.
    - rewrite filter_cons_False by (rewrite Herr; by intros [? ?]). done. }
  assert (∀ h, h ∈ (validate_hosts_from hosts action command_name hosts_config [] []).2.*1 ↔
               h ∈ hosts ∧ host_error action command_name hosts_config h = None) as Hk'.
  { intros h. rewrite Hk. split; [|tauto]. intros [?%elem_of_nil|?]; done. }
  split; [done|]. split; [done|]. split; [apply Hnd; constructor|].
  split; [done|]. rewrite Hnames. split; [|split].
  - intros h. rewrite Hk', list_elem_of_filter. split; [|tauto].
    intros Hin. destruct (host_error action command_name hosts_config h) eqn:Herr.
    + left. split; [by eexists|done].
    + right. done.
  - intros h. rewrite Hk', list_elem_of_filter. intros [[[? Hs] _] [_ Hn]]. congruence.
  - intros h Hin Hnone. apply list_elem_of_omap. exists h. split; [done|].
    unfold host_error, check_host. by rewrite Hnone.
Qed.

(** X14. A command that [validate_command_host] accepts is the last
    definition of that name in the host's command list, and the timeout
    handed on is an integer of the configuration within bounds: at least
    0 for a synchronous run, at least -1 for an asynchronous one. When a
    command has both keys, a shell command runs synchronously with
    [timeout], an HTTP command asynchronously with [async_timeout]. *)
Theorem accepted_command_timeouts (h : string) (e : host_entry) (command_name : string)
    (c : cmd) (t : Z) (is_sync : bool) :
  validate_command_host h e command_name = inr (c, t, is_sync) →
  lookup_cmd command_name (commands e) = Some c ∧ name c = command_name ∧
  (if is_sync then 0 <= t else -1 <= t) ∧
  (default "shell"%string (type c) = "shell"%string →
     if is_sync then timeout c = Some (PyInt t)
     else timeout c = None ∧ async_timeout c = Some (PyInt t)) ∧
  (default "shell"%string (type c) = "http"%string →
     if is_sync
     then default (PyInt 30) (timeout c) = PyInt t ∧
          (async_timeout c = None ∨ async_timeout c = Some PyNone)
     else async_timeout c = Some (PyInt t)).
Proof.
  unfold validate_command_host.
  destruct (lookup_cmd command_name (commands e)) as [c0|] eqn:Hlook; [|done].
  assert (name c0 = command_name) as Hname.
  { clear -Hlook. induction (commands e) as [|x l IH]; [done|]. simpl in Hlook.
    destruct (lookup_cmd command_name l); [by apply IH|].
    case_bool_decide; by simplify_eq. }
  case_bool_decide as Hhttp.
  - unfold _validate_http_command. intros Hv.
    destruct (truthy (url c0)); [|done]. simpl in Hv.
    assert (default "shell"%string (type c0) ≠ "shell"%string) as Hnot
      by (rewrite Hhttp; discriminate).
    destruct (async_timeout c0) as [[|a|]|] eqn:Ha; try done.
    + destruct (default (PyInt 30) (timeout c0)) as [|x|] eqn:Ht; try done.
      destruct (Z.ltb_spec x 0); [done|]. injection Hv as <- <- <-.
      split; [done|]. split; [done|]. split; [done|]. split; [done|].
      intros _. split; [done|by right].
    + destruct (Z.ltb_spec a (-1)); [done|]. injection Hv as <- <- <-.
      split; [done|]. split; [done|]. split; [done|]. split; [done|]. done.
    + destruct (default (PyInt 30) (timeout c0)) as [|x|] eqn:Ht; try done.
      destruct (Z.ltb_spec x 0); [done|]. injection Hv as <- <- <-.
      split; [done|]. split; [done|]. split; [done|]. split; [done|].
      intros _. split; [done|by left].
  - case_bool_decide as Hshell; [|done].
    unfold _validate_shell_command. intros Hv.
    destruct (truthy (command c0)); [|done]. simpl in Hv.
    destruct (timeout c0) as [[|x|]|] eqn:Ht; try done.
    + destruct (Z.ltb_spec x 0); [done|]. injection Hv as <- <- <-.
      split; [done|]. split; [done|]. split; [done|]. split; [done|]. done.
    + destruct (async_timeout c0) as [[|a|]|] eqn:Ha; try done.
      destruct (Z.ltb_spec a (-1)); [done|]. injection Hv as <- <- <-.
      split; [done|]. split; [done|]. split; [done|]. split; [done|]. done.
Qed.

Lemma parse_post_path_shapes_witness :
  parse_post_path "/concierge/api/v1/commands/status/h1"
    = inr ("command"%string, Some "status"%string, Some "h1"%string) ∧
  parse_post_path "/concierge/api/v1/wakeup" = inr ("wakeup"%string, None, None).
Proof.
  destruct (parse_post_path_shapes "concierge" "api" "v1" "status" "h1"
              eq_refl ltac:(discriminate) eq_refl eq_refl eq_refl ltac:(discriminate)
              eq_refl ltac:(discriminate))
    as (Hw & _ & _ & Hc & _).
  split; [exact Hc|exact Hw].
Defined.

Definition ex_cmd : cmd :=
  Cmd "status" (Some "http"%string) None (Some "http://h1/status"%string)
      (Some (PyInt 5)) (Some (PyInt (-1))).

Lemma accepted_command_timeouts_witness :
  validate_command_host "h1" (HostEntry None [ex_cmd]) "status" = inr (ex_cmd, -1, false) ∧
  async_timeout ex_cmd = Some (PyInt (-1)).
Proof.
  split; [reflexivity|].
  destruct (accepted_command_timeouts "h1" (HostEntry None [ex_cmd]) "status"
              ex_cmd (-1) false eq_refl) as (_ & _ & _ & _ & Hhttp).
  exact (Hhttp eq_refl).
Defined.

End Requests.

(* ======================================================================= *)
(** * task_executor_helper.py: send_wol on any input, replace_placeholders *)
(* ======================================================================= *)

Module Helper.
Import Wol.

(** A character that [bytes.fromhex] rejects wherever it stands. *)
Definition rejected (c : ascii) : Prop := hex_val c = None ∧ is_space c = false.

Section Literal.

(** [str(v)] of a list or a dict, as in [Placeholders.py_str]. *)
Variable py_str_container : Placeholders.pyvalue → string.


End Literal.

(** ** Strings *)

Lemma list_ascii_app (a b : string) :
  list_ascii_of_string (a +:+ b) = list_ascii_of_string a ++ list_ascii_of_string b.
Proof.
  induction a as [|c a IH]; [done|]. rewrite str_app_cons. simpl. by rewrite IH.
Qed.

Lemma str_app_empty_r (a : string) : (a +:+ "")%string = a.
Proof. induction a as [|c a IH]; [done|]. rewrite str_app_cons. by rewrite IH. Qed.

Lemma str_repeat_chars (s : string) (k : nat) :
  list_ascii_of_string (str_repeat s k) = concat (repeat (list_ascii_of_string s) k).
Proof. induction k as [|k IH]; [done|]. simpl. by rewrite list_ascii_app, IH. Qed.

Lemma str_length_chars (s : string) : String.length s = length (list_ascii_of_string s).
Proof. induction s as [|c s IH]; simpl; congruence. Qed.

Lemma py_lower_chars (s : string) :
  list_ascii_of_string (py_lower s) = map lower_char (list_ascii_of_string s).
Proof. induction s as [|c s IH]; simpl; congruence. Qed.

(** ** [bytes.fromhex] *)

Lemma fromhex_hex (n : nat) (s : string) :
  String.length s = (2 * n)%nat → Forall is_hex (list_ascii_of_string s) →
  fromhex s = Some (hex_pairs s).
Proof.
  intros Hlen Hhex. rewrite <- (str_app_empty_r s) at 1.
  rewrite (fromhex_hex_prefix n s "" Hlen Hhex). simpl. by rewrite app_nil_r.
Qed.

Lemma fromhex_rejected (s : string) :
  Exists rejected (list_ascii_of_string s) → fromhex s = None.
Proof.
  assert (∀ s, (Exists rejected (list_ascii_of_string s) → fromhex s = None) ∧
               ∀ c, Exists rejected (list_ascii_of_string (String c s)) →
                    fromhex (String c s) = None) as H.
  { clear s. induction s as [|c2 s [IH1 IH2]].
    - split; [by intros ?%Exists_nil|]. intros c Hc. simpl.
      destruct (is_space c) eqn:Hsp.
      + apply Exists_cons in Hc as [[_ Hns]|Hc]; [congruence|by apply Exists_nil in Hc].
      + by destruct (hex_val c).
    - split; [apply IH2|]. intros c Hc.
      change (fromhex (String c (String c2 s))) with
        (if is_space c then fromhex (String c2 s)
         else match hex_val c with
              | Some hi =>
                  match hex_val c2 with
                  | Some lo => cons (16 * hi + lo) <$> fromhex s
                  | None => None
                  end
              | None => None
              end).
      simpl in Hc. apply Exists_cons in Hc as [[Hnh Hns]|Hc].
      + by rewrite Hns, Hnh.
      + destruct (is_space c); [by apply IH2|].
        destruct (hex_val c) as [hi|]; [|done].
        apply Exists_cons in Hc as [[Hnh2 _]|Hc]; [by rewrite Hnh2|].
        destruct (hex_val c2); [|done]. by rewrite IH1. }
  apply H.
Qed.

Lemma rejected_lower_char (c : ascii) : rejected c → rejected (lower_char c).
Proof.
  unfold rejected. rewrite hex_val_lower_char. intros [Hh Hs]. split; [done|].
  revert Hh Hs. destruct c as [[] [] [] [] [] [] [] []]; vm_compute; congruence.
Qed.

(** X15. [send_wol] checks neither the length of the address nor the
    place of its separators. Whenever the characters left after removing
    [:] and [-] are hexadecimal digits, however many, the datagram is
    sent: it has the six bytes 0xFF and then eight bytes for every digit
    of the address, so an empty address sends the six bytes alone. With
    a character that is neither a hexadecimal digit nor white space the
    call raises ValueError before any socket is opened. *)
Theorem send_wol_any_length (mac : string) :
  (Forall is_hex (list_ascii_of_string (mac_digits mac)) →
   ∃ pkt,
     send_wol mac = inr [Socket "AF_INET" "SOCK_DGRAM";
                         SetSockOpt "SOL_SOCKET" "SO_BROADCAST" 1;
                         SendTo pkt "255.255.255.255" 9;
                         Close] ∧
     length pkt = (6 + 8 * String.length (mac_digits mac))%nat ∧
     take 6 pkt = repeat 255 6 ∧
     Forall (λ b, 0 <= b < 256) pkt) ∧
  (Exists rejected (list_ascii_of_string (mac_digits mac)) →
   ∃ msg, send_wol mac = inl (ValueError msg)).
Proof.
  unfold send_wol. fold (mac_digits mac). set (m := py_lower (mac_digits mac)).
  split.
  - intros Hhex.
    assert (Forall is_hex (list_ascii_of_string m)) as Hmhex by (by apply py_lower_hex).
    assert (String.length m = String.length (mac_digits mac)) as Hmlen
      by apply py_lower_length.
    assert (Forall is_hex (list_ascii_of_string (str_repeat m 16))) as Hrhex.
    { rewrite str_repeat_chars. apply Forall_concat, Forall_forall. intros l Hl.
      apply list_elem_of_In, repeat_spec in Hl. by subst. }
    assert (String.length (str_repeat m 16) = (2 * (8 * String.length m))%nat) as Hrlen.
    { rewrite !str_length_chars, str_repeat_chars, length_concat_repeat. lia. }
    rewrite (fromhex_hex_prefix 6 (str_repeat "FF" 6))
      by (done || (repeat constructor; by eexists)).
    rewrite (fromhex_hex (8 * String.length m) _ Hrlen Hrhex).
    remember (hex_pairs (str_repeat m 16)) as body eqn:Hbody.
    assert (length body = (8 * String.length m)%nat) as Hblen
      by (subst body; by apply hex_pairs_length).
    assert (Forall (λ b, 0 <= b < 256) body) as Hbrange
      by (subst body; by apply hex_pairs_range).
    clear Hbody. cbn [fmap option_fmap option_map].
    change (hex_pairs (str_repeat "FF" 6)) with (repeat 255 6).
    eexists. split; [reflexivity|]. split_and!.
    + rewrite length_app, Hblen, <- Hmlen. done.
    + done.
    + apply Forall_app. split; [by repeat constructor|done].
  - intros Hbad.
    assert (Exists rejected (list_ascii_of_string (str_repeat m 16))) as Hrep.
    { rewrite str_repeat_chars.
      change (repeat (list_ascii_of_string m) 16)
        with (list_ascii_of_string m :: repeat (list_ascii_of_string m) 15).
      rewrite concat_cons. apply Exists_app. left. subst m. rewrite py_lower_chars.
      apply Exists_fmap. eapply Exists_impl; [exact Hbad|]. apply rejected_lower_char. }
    rewrite fromhex_rejected; [by eexists|].
    rewrite list_ascii_app. apply Exists_app. by right.
Qed.

(** X16. The letter case of an address does not matter to
    [send_wol]: two addresses that are equal after lower-casing produce
    the same socket calls or the same exception. *)
Theorem send_wol_ignores_case (mac mac' : string) :
  py_lower mac' = py_lower mac → send_wol mac' = send_wol mac.
Proof.
  intros Hlow. unfold send_wol.
  rewrite !(py_lower_str_remove "-") by (intros; apply lower_char_separator; tauto).
  rewrite !(py_lower_str_remove ":") by (intros; apply lower_char_separator; tauto).
  by rewrite Hlow.
Qed.

(** ** Texts without an opening angle bracket *)

Definition no_lt (s : string) : Prop := Token.has_char "<" s = false.

Lemma is_prefix_lt (p s : string) :
  no_lt s → Placeholders.is_prefix (String "<" p) s = false.
Proof.
  unfold no_lt. destruct s as [|c s]; [done|].
  cbn [Token.has_char Placeholders.is_prefix].
  destruct (Ascii.eqb c "<") eqn:Hc; [done|]. intros _.
  rewrite Ascii.eqb_sym, Hc. done.
Qed.

Lemma no_lt_tail (c : ascii) (s : string) : no_lt (String c s) → no_lt s.
Proof. unfold no_lt. cbn [Token.has_char]. by destruct (Ascii.eqb c "<"). Qed.

Lemma str_contains_lt (p s : string) :
  no_lt s → Placeholders.str_contains (String "<" p) s = false.
Proof.
  induction s as [|c s IH]; intros Hs.
  - done.
  - cbn [Placeholders.str_contains]. rewrite is_prefix_lt by done.
    apply IH. by eapply no_lt_tail.
Qed.



(** X18. [replace_json_placeholders] on a template without the
    character [<] makes no replacement and converts no parameter, so no
    parameter can make it fail: the loops hand the template itself to
    the final [json.loads] check, and the outcome of the call is the
    same for every hostname and every dict of parameters. *)
Theorem json_template_without_placeholders
    (float_literal : string → option string)
    (py_str_container : Placeholders.pyvalue → string)
    (json_text hostname : string) (params : list (string * Placeholders.pyvalue)) :
  no_lt json_text →
  Placeholders.replace_params float_literal py_str_container
      (Placeholders.dict_update [("hostname"%string, Placeholders.PStr hostname)] params)
      json_text = inr json_text ∧
  ∀ hostname' params',
    Placeholders.replace_json_placeholders float_literal py_str_container
        json_text hostname params =
    Placeholders.replace_json_placeholders float_literal py_str_container
        json_text hostname' params'.
Proof.
  intros Htext.
  assert (∀ all_params,
            Placeholders.replace_params float_literal py_str_container all_params json_text
            = inr json_text) as Hloops.
  { induction all_params as [|[k v] rest IH]; [done|].
    cbn [Placeholders.replace_params].
    assert (Placeholders.replace_types float_literal py_str_container
              Placeholders.type_prefixes k v json_text = inr json_text) as ->; [|done].
    generalize Placeholders.type_prefixes. intros prefixes.
    induction prefixes as [|p prefixes IHp]; [done|].
    cbn [Placeholders.replace_types].
    change ("<" +:+ p +:+ "_" +:+ k +:+ ">")%string with (String "<" (p +:+ "_" +:+ k +:+ ">")).
    by rewrite str_contains_lt. }
  split; [apply Hloops|].
  intros hostname' params'. unfold Placeholders.replace_json_placeholders.
  by rewrite !Hloops.
Qed.

Lemma send_wol_any_length_witness :
  Forall is_hex (list_ascii_of_string (mac_digits "a-b:c")) ∧
  ∃ pkt, send_wol "a-b:c" = inr [Socket "AF_INET" "SOCK_DGRAM";
                                 SetSockOpt "SOL_SOCKET" "SO_BROADCAST" 1;
                                 SendTo pkt "255.255.255.255" 9; Close] ∧
         length pkt = 30%nat.
Proof.
  assert (Forall is_hex (list_ascii_of_string (mac_digits "a-b:c"))) as Hhex
    by (repeat constructor; by eexists).
  split; [exact Hhex|].
  destruct (send_wol_any_length "a-b:c") as [Hsend _].
  destruct (Hsend Hhex) as (pkt & Hcalls & Hlen & _).
  exists pkt. split; [exact Hcalls|exact Hlen].
Defined.

Lemma send_wol_ignores_case_witness :
  send_wol "AA:BB:CC:DD:EE:0F" = send_wol "aa:bb:cc:dd:ee:0f".
Proof. exact (send_wol_ignores_case "aa:bb:cc:dd:ee:0f" "AA:BB:CC:DD:EE:0F" eq_refl). Defined.


Lemma json_template_without_placeholders_witness :
  Placeholders.replace_params (λ _, None) (λ _, ""%string)
    (Placeholders.dict_update [("hostname"%string, Placeholders.PStr "h1")]
       [("n"%string, Placeholders.PStr "three")])
    "[1, 2]" = inr "[1, 2]"%string.
Proof.
  exact (proj1 (json_template_without_placeholders (λ _, None) (λ _, ""%string)
                  "[1, 2]" "h1" [("n"%string, Placeholders.PStr "three")] eq_refl)).
Defined.

End Helper.

(* ======================================================================= *)
(** * websocket.py: the frame codec at its limits, send_to_client *)
(* ======================================================================= *)

Module WsExtra.
Import WsFrame.

(** The server frame for a first byte [b1]: the byte, the length field,
    the payload. *)
Definition server_frame (b1 : Z) (payload : list Z) : list Z :=
  b1 :: length_field (len payload) ++ payload.

(** ** The first byte *)

Definition first_byte_ok (opcode : Z) : bool :=
  (0 <=? Z.lor 128 opcode) && (Z.lor 128 opcode <? 256) &&
  (Z.land (Z.lor 128 opcode) 15 =? Z.land opcode 15) &&
  (Z.land (Z.shiftr (Z.lor 128 opcode) 7) 1 =? 1).

Lemma first_byte_table : forallb (λ n, first_byte_ok (Z.of_nat n)) (seq 0 256) = true.
Proof. vm_compute. reflexivity. Qed.

Lemma first_byte_of_byte (opcode : Z) :
  0 <= opcode < 256 →
  0 <= Z.lor 128 opcode < 256 ∧
  Z.land (Z.lor 128 opcode) 15 = Z.land opcode 15 ∧
  Z.land (Z.shiftr (Z.lor 128 opcode) 7) 1 = 1.
Proof.
  intros Hop. pose proof first_byte_table as Htab.
  rewrite forallb_forall in Htab. specialize (Htab (Z.to_nat opcode)).
  rewrite Z2Nat.id in Htab by lia.
  assert (first_byte_ok opcode = true) as Hok.
  { apply Htab. apply in_seq. lia. }
  unfold first_byte_ok in Hok.
  apply andb_true_iff in Hok as [Hok H4]. apply andb_true_iff in Hok as [Hok H3].
  apply andb_true_iff in Hok as [H1 H2].
  apply Z.leb_le in H1. apply Z.ltb_lt in H2. apply Z.eqb_eq in H3, H4. done.
Qed.

Lemma first_byte_out_of_range (opcode : Z) :
  ¬ (0 <= opcode < 256) → (0 <=? Z.lor 128 opcode) && (Z.lor 128 opcode <? 256) = false.
Proof.
  intros Hop. apply andb_false_iff.
  destruct (Z.lt_ge_cases opcode 0) as [Hneg|Hpos].
  - left. apply Z.leb_gt. apply Z.lor_neg. by right.
  - right. apply Z.ltb_ge.
    assert (256 <= opcode) as Hbig by lia.
    assert (0 <= Z.lor 128 opcode) as Hnn by (apply Z.lor_nonneg; lia).
    assert (8 <= Z.log2 (Z.lor 128 opcode)) as Hlog.
    { rewrite Z.log2_lor by lia.
      assert (Z.log2 256 <= Z.log2 opcode) by (apply Z.log2_le_mono; lia).
      change (Z.log2 256) with 8 in *. lia. }
    assert (0 < Z.lor 128 opcode) as Hposl.
    { destruct (Z.eq_dec (Z.lor 128 opcode) 0) as [Hz|Hz]; [|lia].
      rewrite Hz in Hlog. simpl in Hlog. lia. }
    change 256 with (2 ^ 8). by apply Z.log2_le_pow2.
Qed.

(** X19. [_send_frame] writes the byte [0x80 | opcode] and the
    decoder reads only the low four bits of it. For every opcode that
    fits a byte the frame is sent and decodes to fin = 1, the opcode
    modulo 16 and the payload, so an opcode of 16 or more comes back as
    a different one; for an opcode outside 0..255 nothing is sent and
    the call returns False. *)
Theorem send_frame_opcode_byte (opcode : Z) (payload rest : list Z) :
  len payload < 2 ^ 64 →
  (0 <= opcode < 256 →
   _send_frame payload opcode = Some (server_frame (Z.lor 128 opcode) payload) ∧
   _recv_frame (server_frame (Z.lor 128 opcode) payload ++ rest)
     = (Some (1, opcode mod 16, payload), rest)) ∧
  (¬ (0 <= opcode < 256) → _send_frame payload opcode = None).
Proof.
  intros Hlen. split.
  - intros Hop. destruct (first_byte_of_byte opcode Hop) as ([H1 H2] & Hlow & Hbit).
    split.
    + unfold _send_frame, server_frame, length_field, struct_pack.
      replace ((0 <=? Z.lor 128 opcode) && (Z.lor 128 opcode <? 256)) with true
        by (symmetry; apply andb_true_iff; split; [by apply Z.leb_le|by apply Z.ltb_lt]).
      cbn [negb].
      destruct (Z.ltb_spec (len payload) 126) as [H126|H126]; [done|].
      destruct (Z.ltb_spec (len payload) 65536) as [H16|H16].
      * replace ((0 <=? len payload) && (len payload <? 256 ^ Z.of_nat 2)) with true; [done|].
        symmetry. apply andb_true_iff. split; [apply Z.leb_le|apply Z.ltb_lt]; simpl; lia.
      * replace ((0 <=? len payload) && (len payload <? 256 ^ Z.of_nat 8)) with true; [done|].
        symmetry. apply andb_true_iff. split; [apply Z.leb_le|apply Z.ltb_lt]; simpl; lia.
    + unfold server_frame.
      replace ((Z.lor 128 opcode :: length_field (len payload) ++ payload) ++ rest)
        with (([Z.lor 128 opcode] ++ length_field (len payload)) ++ payload ++ rest)
        by (cbn [app]; by rewrite <- ?app_assoc).
      rewrite (_recv_frame_unmasked (Z.lor 128 opcode) payload rest Hlen).
      rewrite Hlow, Hbit. change 15 with (Z.ones 4). rewrite Z.land_ones by lia. done.
  - intros Hop. unfold _send_frame. by rewrite first_byte_out_of_range.
Qed.

(** ** Frames cut short *)

Lemma recv_payload_short (fuel : nat) (length : Z) (acc data : list Z) :
  (List.length data < fuel)%nat → len acc + len data < length →
  (recv_payload fuel length acc data).1 = None.
Proof.
  revert acc data. induction fuel as [|fuel IH]; intros acc data Hfuel Hshort; [lia|].
  cbn [recv_payload].
  replace (len acc <? length) with true
    by (symmetry; apply Z.ltb_lt; unfold len in *; lia).
  destruct data as [|b data].
  - unfold recv. by rewrite take_nil.
  - set (k := Z.to_nat (Z.min 4096 (length - len acc))).
    assert (1 <= k)%nat as Hk by (subst k; unfold len in *; lia).
    unfold recv. fold k.
    destruct (take k (b :: data)) as [|c chunk] eqn:Htake.
    { apply (f_equal List.length) in Htake. rewrite length_take in Htake. simpl in *. lia. }
    rewrite <- Htake. apply IH.
    + rewrite length_drop. simpl in *. lia.
    + unfold len in *. rewrite length_app, length_take, length_drop. simpl in *. lia.
Qed.

(** The decoder on a header followed by less than the payload. *)
Lemma _recv_frame_short_payload (b1 : Z) (n : Z) (data : list Z) :
  0 <= n < 2 ^ 64 → len data < n →
  (_recv_frame (b1 :: length_field n ++ data)).1 = None.
Proof.
  intros Hn Hshort.
  destruct (length_field_spec n Hn) as (b & ext & Hlf & Hb & Hread).
  rewrite Hlf. unfold _recv_frame. cbn [app]. rewrite recv_2. cbv beta iota zeta.
  destruct (low_bits_plain b Hb) as [-> ->]. rewrite Hread. cbv beta iota zeta.
  rewrite Z.eqb_refl.
  pose proof (recv_payload_short (S (List.length data)) n [] data) as Hp.
  destruct (recv_payload (S (List.length data)) n [] data) as [[p|] s4]; [|done].
  simpl in Hp. discriminate Hp; [lia|]. unfold len in *. simpl. lia.
Qed.

(** X20. A frame that stops early is never taken for a frame. On a
    connection that delivers only a proper prefix of what [_send_frame]
    wrote and then closes, [_recv_frame] returns the triple of [None],
    wherever the cut falls: in the two header bytes, in the extended
    length or in the payload. *)
Theorem truncated_frame_rejected (b1 : Z) (payload : list Z) (k : nat) :
  len payload < 2 ^ 64 →
  (k < length (server_frame b1 payload))%nat →
  (_recv_frame (take k (server_frame b1 payload))).1 = None.
Proof.
  intros Hlen Hk. unfold server_frame in *.
  assert (0 <= len payload < 2 ^ 64) as Hn by (unfold len in *; lia).
  destruct k as [|[|k]]; [done|by destruct (length_field _ ++ _)|].
  unfold length_field in *.
  destruct (Z.ltb_spec (len payload) 126) as [H126|H126].
  - (* one length byte *)
    cbn [app take] in *. simpl in Hk.
    pose proof (_recv_frame_short_payload b1 (len (take k payload) + (len payload - len (take k payload)))
                  (take k payload)) as Hcut.
    replace (len (take k payload) + (len payload - len (take k payload)))
      with (len payload) in Hcut by lia.
    unfold length_field in Hcut.
    destruct (Z.ltb_spec (len payload) 126); [|lia].
    apply Hcut; [done|]. unfold len. rewrite length_take. lia.
  - destruct (Z.ltb_spec (len payload) 65536) as [H16|H16].
    + (* 126 and two bytes *)
      cbn [app take] in *.
      destruct (be_encode 2 (len payload)) as [|e0 [|e1 [|]]] eqn:Henc;
        try (apply (f_equal List.length) in Henc; rewrite be_encode_length in Henc;
             simpl in Henc; lia).
      cbn [app] in *. simpl in Hk.
      destruct k as [|[|k]]; [reflexivity|reflexivity|].
      cbn [take].
      pose proof (_recv_frame_short_payload b1 (len payload) (take k payload) Hn) as Hcut.
      unfold length_field in Hcut.
      destruct (Z.ltb_spec (len payload) 126); [lia|].
      destruct (Z.ltb_spec (len payload) 65536); [|lia].
      rewrite Henc in Hcut. apply Hcut. unfold len. rewrite length_take. lia.
    + (* 127 and eight bytes *)
      cbn [app take] in *.
      destruct (be_encode 8 (len payload))
        as [|e0 [|e1 [|e2 [|e3 [|e4 [|e5 [|e6 [|e7 [|]]]]]]]]] eqn:Henc;
        try (apply (f_equal List.length) in Henc; rewrite be_encode_length in Henc;
             simpl in Henc; lia).
      cbn [app] in *. simpl in Hk.
      destruct k as [|[|[|[|[|[|[|[|k]]]]]]]]; try reflexivity.
      cbn [take].
      pose proof (_recv_frame_short_payload b1 (len payload) (take k payload) Hn) as Hcut.
      unfold length_field in Hcut.
      destruct (Z.ltb_spec (len payload) 126); [lia|].
      destruct (Z.ltb_spec (len payload) 65536); [lia|].
      rewrite Henc in Hcut. apply Hcut. unfold len. rewrite length_take. lia.
Qed.

(** ** send_to_client *)

(** The value of [self.clients] for a socket. *)
Record client : Type := Client {
  c_user : string;
  c_task_id : string;
  c_hostname : string
}.

(** The calls made on the sockets: [_send_frame(sock, data, opcode)] and
    [sock.close()]. *)
Inductive event (S : Type) : Type :=
| SendFrame (s : S) (data : list Z) (opcode : Z)
| CloseSocket (s : S).
Arguments SendFrame {S}.
Arguments CloseSocket {S}.

(** How a call ends: normally or with the RuntimeError "dictionary
    changed size during iteration". *)
Inductive ending : Type := Returned | DictChangedSize.

Section Clients.

(** Sockets and the outcome of [_send_frame] on each of them: [true]
    when [sendall] went through. *)
Context {S : Type} `{EqDecision S}.
Variable sendall_ok : S → bool.

(** [self.clients.pop(sock, None)] on the dict in insertion order. *)
Definition pop (s : S) (clients : list (S * client)) : list (S * client) :=
  filter (λ sc, sc.1 ≠ s) clients.

(** [send_to_client]: the loop over [self.clients.items()]. Removing an
    item while the dict is iterated makes the next step of the iteration
    raise, also when the item was the last. [todo] are the items still
    to be visited. *)
Fixpoint send_loop (todo clients : list (S * client)) (task_id hostname : string)
    (data : list Z) : list (S * client) * list (event S) * ending :=
  match todo with
  | [] => (clients, [], Returned)
  | (sock, c) :: todo' =>
      if bool_decide (c_task_id c = task_id) && bool_decide (c_hostname c = hostname) then
        if sendall_ok sock then
          let '(clients', events, e) := send_loop todo' clients task_id hostname data in
          (clients', SendFrame sock data 2 :: events, e)
        else (pop sock clients, [SendFrame sock data 2; CloseSocket sock], DictChangedSize)
      else send_loop todo' clients task_id hostname data
  end.

Definition send_to_client (clients : list (S * client)) (task_id hostname : string)
    (data : list Z) : list (S * client) * list (event S) * ending :=
  send_loop clients clients task_id hostname data.

(** The clients that watch a process. *)
Definition watches (task_id hostname : string) (sc : S * client) : Prop :=
  c_task_id sc.2 = task_id ∧ c_hostname sc.2 = hostname.

#[local] Instance watches_dec task_id hostname sc : Decision (watches task_id hostname sc).
Proof. unfold watches. apply _. Defined.

Lemma send_loop_all_ok (todo clients : list (S * client)) (task_id hostname : string)
    (data : list Z) :
  Forall (λ sc, watches task_id hostname sc → sendall_ok sc.1 = true) todo →
  send_loop todo clients task_id hostname data =
    (clients, map (λ sc, SendFrame sc.1 data 2) (filter (watches task_id hostname) todo), Returned).
Proof.
  induction todo as [|[s c] todo IH]; intros Hok; [done|].
  apply Forall_cons in Hok as [Hs Hok]. cbn [send_loop].
  destruct (decide (watches task_id hostname (s, c))) as [Hw|Hw].
  - rewrite filter_cons_True by done. destruct Hw as [Ht Hh]. simpl in Ht, Hh.
    rewrite !bool_decide_eq_true_2 by done. cbn [andb].
    simpl in Hs. rewrite Hs by (by split). by rewrite IH.
  - rewrite filter_cons_False by done.
    replace (bool_decide (c_task_id c = task_id) && bool_decide (c_hostname c = hostname))
      with false; [by apply IH|].
    symmetry. apply andb_false_iff. unfold watches in Hw. simpl in Hw.
    destruct (decide (c_task_id c = task_id)); [right|left];
      apply bool_decide_eq_false_2; tauto.
Qed.

Lemma send_loop_fails (before after clients : list (S * client)) (sock : S) (c : client)
    (task_id hostname : string) (data : list Z) :
  Forall (λ sc, watches task_id hostname sc → sendall_ok sc.1 = true) before →
  watches task_id hostname (sock, c) → sendall_ok sock = false →
  send_loop (before ++ (sock, c) :: after) clients task_id hostname data =
    (pop sock clients,
     map (λ sc, SendFrame sc.1 data 2) (filter (watches task_id hostname) before)
       ++ [SendFrame sock data 2; CloseSocket sock],
     DictChangedSize).
Proof.
  intros Hbefore [Ht Hh] Hfail. simpl in Ht, Hh.
  induction before as [|[s' c'] before IH].
  - cbn [app send_loop]. rewrite !bool_decide_eq_true_2 by done. cbn [andb].
    by rewrite Hfail.
  - apply Forall_cons in Hbefore as [Hs Hbefore]. cbn [app send_loop].
    destruct (decide (watches task_id hostname (s', c'))) as [Hw|Hw].
    + rewrite filter_cons_True by done. destruct Hw as [Ht' Hh']. simpl in Ht', Hh'.
      rewrite !bool_decide_eq_true_2 by done. cbn [andb].
      simpl in Hs. rewrite Hs by (by split). by rewrite IH.
    + rewrite filter_cons_False by done.
      replace (bool_decide (c_task_id c' = task_id) && bool_decide (c_hostname c' = hostname))
        with false; [by apply IH|].
      symmetry. apply andb_false_iff. unfold watches in Hw. simpl in Hw.
      destruct (decide (c_task_id c' = task_id)); [right|left];
        apply bool_decide_eq_false_2; tauto.
Qed.

Lemma pop_middle (before after : list (S * client)) (sock : S) (c : client) :
  NoDup (before ++ (sock, c) :: after).*1 →
  pop sock (before ++ (sock, c) :: after) = before ++ after.
Proof.
  intros Hnd. unfold pop. rewrite fmap_app, fmap_cons in Hnd.
  apply NoDup_app in Hnd as (_ & Hdisj & Hnd2). apply NoDup_cons in Hnd2 as [Hnot _].
  rewrite filter_app, filter_cons_False by (simpl; tauto).
  f_equal.
  - clear -Hdisj. induction before as [|[s' c'] before IH]; [done|].
    rewrite filter_cons_True.
    + f_equal. apply IH. intros x Hx. apply Hdisj. rewrite fmap_cons. apply elem_of_cons.
      by right.
    + simpl. intros ->. apply (Hdisj sock); [rewrite fmap_cons; apply elem_of_cons; by left|].
      simpl. apply elem_of_cons. by left.
  - clear -Hnot. induction after as [|[s' c'] after IH]; [done|].
    rewrite fmap_cons in Hnot. apply not_elem_of_cons in Hnot as [Hne Hnot].
    rewrite filter_cons_True by (simpl; intros Heq; by apply Hne). f_equal. by apply IH.
Qed.

(** X21. [send_to_client] sends the data as one binary frame to every
    client that watches the task and host, in the order of connection,
    and returns, as long as every send goes through. At the first
    watching client whose send fails it removes that client and closes
    its socket, and then the iteration over the changed dict raises
    RuntimeError: the watching clients that connected later get nothing,
    though they stay registered. *)
Theorem send_to_client_stops_at_failure (clients before after : list (S * client))
    (sock : S) (c : client) (task_id hostname : string) (data : list Z) :
  NoDup clients.*1 →
  (Forall (λ sc, watches task_id hostname sc → sendall_ok sc.1 = true) clients →
   send_to_client clients task_id hostname data =
     (clients, map (λ sc, SendFrame sc.1 data 2) (filter (watches task_id hostname) clients),
      Returned)) ∧
  (clients = before ++ (sock, c) :: after →
   Forall (λ sc, watches task_id hostname sc → sendall_ok sc.1 = true) before →
   watches task_id hostname (sock, c) → sendall_ok sock = false →
   send_to_client clients task_id hostname data =
     (before ++ after,
      map (λ sc, SendFrame sc.1 data 2) (filter (watches task_id hostname) before)
        ++ [SendFrame sock data 2; CloseSocket sock],
      DictChangedSize)).
Proof.
  intros Hnd. split; [apply send_loop_all_ok|].
  intros -> Hbefore Hw Hfail. unfold send_to_client.
  rewrite send_loop_fails by done. by rewrite pop_middle.
Qed.

End Clients.

(** Three clients on sockets 1, 2 and 3; the first two watch the same
    process and the connection of socket 1 is broken. *)
Definition ex_clients : list (nat * client) :=
  [(1%nat, Client "api_user" "t1" "h1"); (2%nat, Client "api_user" "t1" "h1");
   (3%nat, Client "api_user" "t2" "h1")].

Lemma send_frame_opcode_byte_witness :
  _send_frame [104; 105] 17 = Some [145; 2; 104; 105] ∧
  _recv_frame ([145; 2; 104; 105] ++ []) = (Some (1, 1, [104; 105]), []).
Proof.
  destruct (send_frame_opcode_byte 17 [104; 105] []) as [Hok _]; [reflexivity|].
  exact (Hok ltac:(lia)).
Defined.

Lemma truncated_frame_rejected_witness :
  (_recv_frame [129; 2; 104]).1 = None.
Proof.
  exact (truncated_frame_rejected 129 [104; 105] 3 ltac:(reflexivity) ltac:(simpl; lia)).
Defined.

Lemma send_to_client_stops_at_failure_witness :
  send_to_client (λ s, negb (s =? 1)%nat) ex_clients "t1" "h1" [1; 2] =
    ([(2%nat, Client "api_user" "t1" "h1"); (3%nat, Client "api_user" "t2" "h1")],
     [SendFrame 1%nat [1; 2] 2; CloseSocket 1%nat], DictChangedSize).
Proof.
  assert (NoDup ex_clients.*1) as Hnd by (apply (bool_decide_unpack _); vm_compute; exact I).
  destruct (send_to_client_stops_at_failure (λ s, negb (s =? 1)%nat) ex_clients []
              [(2%nat, Client "api_user" "t1" "h1"); (3%nat, Client "api_user" "t2" "h1")]
              1%nat (Client "api_user" "t1" "h1") "t1" "h1" [1; 2] Hnd) as [_ Hfail].
  exact (Hfail eq_refl ltac:(constructor) ltac:(split; reflexivity) eq_refl).
Defined.

End WsExtra.

(* ======================================================================= *)
(** * task_executor.py and websocket.py: the end of a process *)
(* ======================================================================= *)

Module Completion.
Import PersistentDict Tasks WsExtra.

(** [json.dumps({"type": "status", "status": status})], the text that
    [_send_frame] encodes to bytes. *)
Definition status_message (status : string) : list Z :=
  Placeholders.code_points
    ("{" +:+ Placeholders.dumps_str "type" +:+ ": " +:+ Placeholders.dumps_str "status" +:+ ", "
         +:+ Placeholders.dumps_str "status" +:+ ": " +:+ Placeholders.dumps_str status +:+ "}").

Section Manager.

Context {S : Type} `{EqDecision S}.
Variable sendall_ok : S → bool.

(** The WebSocket manager: [self.clients] and the calls made on the
    sockets so far. *)
Record ws : Type := Ws {
  ws_clients : list (S * client);
  ws_calls : list (event S)
}.

(** [WebSocketManager.broadcast_status] *)
Definition broadcast_status (task_id hostname status : string) (w : ws) : ws * option exn :=
  let '(clients', events, e) :=
    send_to_client sendall_ok (ws_clients w) task_id hostname (status_message status) in
  (Ws clients' (ws_calls w ++ events),
   match e with
   | Returned => None
   | DictChangedSize => Some (RuntimeError "dictionary changed size during iteration")
   end).

(** The loop of [send_to_client] comes to its end exactly when no send
    to a watching client fails. *)
Lemma send_loop_returns (todo clients : list (S * client)) (task_id hostname : string)
    (data : list Z) :
  (send_loop sendall_ok todo clients task_id hostname data).2 = Returned ↔
  Forall (λ sc, watches task_id hostname sc → sendall_ok sc.1 = true) todo.
Proof.
  induction todo as [|[s c] todo IH]; [by split|].
  rewrite Forall_cons. cbn [send_loop].
  destruct (decide (watches task_id hostname (s, c))) as [Hw|Hw].
  - destruct Hw as [Ht Hh]. simpl in Ht, Hh.
    rewrite !bool_decide_eq_true_2 by done. cbn [andb fst].
    destruct (sendall_ok s) eqn:Hs.
    + destruct (send_loop sendall_ok todo clients task_id hostname data) as [[cl ev] e].
      simpl in *. rewrite IH. split; [by split|by intros [_ ?]].
    + simpl. split; [done|]. intros [Hok _]. specialize (Hok (conj Ht Hh)). done.
  - replace (bool_decide (c_task_id c = task_id) && bool_decide (c_hostname c = hostname))
      with false.
    + rewrite IH. split; [by split|by intros [_ ?]].
    + symmetry. apply andb_false_iff. unfold watches in Hw. simpl in Hw.
      destruct (decide (c_task_id c = task_id)); [right|left];
        apply bool_decide_eq_false_2; tauto.
Qed.

Lemma broadcast_status_ending (task_id hostname status : string) (w : ws) :
  let e := (broadcast_status task_id hostname status w).2 in
  (e = None ↔
   Forall (λ sc, watches task_id hostname sc → sendall_ok sc.1 = true) (ws_clients w)) ∧
  (e = None ∨ e = Some (RuntimeError "dictionary changed size during iteration")).
Proof.
  unfold broadcast_status, send_to_client.
  pose proof (send_loop_returns (ws_clients w) (ws_clients w) task_id hostname
                (status_message status)) as Hret.
  destruct (send_loop sendall_ok (ws_clients w) (ws_clients w) task_id hostname
              (status_message status)) as [[cl ev] [|]]; simpl in *.
  - split; [|by left]. rewrite <- Hret. done.
  - split; [|by right]. rewrite <- Hret. done.
Qed.

(** X8. The completion updates of a shell process ([_update_task]) and
    of an HTTP request ([_update_tasks]) on a stored task that satisfies
    "ended iff nothing is running". Each writes the record back with
    that invariant kept, the host's [running] item removed and exactly
    one entry added: the shell update adds to [success] only for return
    code 0 without error message and without abort, the HTTP update only
    for a successful request that was not aborted. The HTTP update
    returns normally. The shell update goes on to broadcast the status
    of the return code: without a manager it returns normally; with
    the [WebSocketManager] it returns normally exactly when every send
    to a client that watches the task and host goes through, and
    otherwise it raises the RuntimeError of [send_to_client], the record
    being written already. *)
Theorem process_completion_recorded (d : store task) (tid hostname : string)
    (t : task) (now : Z) :
  wf d → get d tid = Some t → ended_iff_idle t →
  (∀ ws_manager error aborted proc,
     let r := _update_task broadcast_status d ws_manager tid hostname error aborted proc now in
     wf r.1.1 ∧
     (∃ t', get r.1.1 tid = Some t' ∧ ended_iff_idle t' ∧
        running t' = default (running t) (py_list_remove hostname (running t)) ∧
        (if bool_decide (error = None ∧ aborted = false ∧ proc = Some (Some 0))
         then success t' = success t ++ [Entry (Some hostname) None None None] ∧
              errors t' = errors t
         else success t' = success t ∧
              ∃ msg, errors t' = errors t ++ [Entry (Some hostname) (Some msg) None None])) ∧
     match ws_manager with
     | None => r.1.2 = None ∧ r.2 = None
     | Some w =>
         r.1.2 = Some (broadcast_status tid hostname (shell_status proc) w).1 ∧
         (r.2 = None ↔
          Forall (λ sc, watches tid hostname sc → sendall_ok sc.1 = true) (ws_clients w)) ∧
         (r.2 = None ∨ r.2 = Some (RuntimeError "dictionary changed size during iteration"))
     end) ∧
  (∀ aborted ok error_msg output response_code,
     let r := _update_tasks d tid hostname aborted ok error_msg output response_code now in
     r.2 = None ∧ wf r.1 ∧
     ∃ t', get r.1 tid = Some t' ∧ ended_iff_idle t' ∧
       running t' = default (running t) (py_list_remove hostname (running t)) ∧
       (if negb aborted && ok
        then success t' = success t ++ [Entry (Some hostname) None output response_code] ∧
             errors t' = errors t
        else success t' = success t ∧
             ∃ e, errors t' = errors t ++ [e] ∧ e_hostname e = Some hostname ∧
                  is_Some (e_error e))).
Proof.
  intros Hwf Hget Hb. split.
  - intros ws_manager error aborted proc r.
    pose proof (TaskOps.shell_outcome_entry hostname error aborted proc t) as Hentry.
    destruct (TaskOps.shell_outcome_append hostname error aborted proc t) as (f & v & Hfv).
    destruct (TaskOps.completion_step d tid hostname t f v now Hwf Hget Hb)
      as (Hok & Hwf' & _ & t' & Hval & Hb' & _ & Hr & Hs & He).
    subst r. unfold _update_task. rewrite Hget, Hfv.
    destruct (close_and_store d tid (drop_running hostname (append_to f v t)) now) as [d1 e1].
    simpl in Hok, Hwf', Hval. subst e1.
    assert (if bool_decide (error = None ∧ aborted = false ∧ proc = Some (Some 0))
            then success t' = success t ++ [Entry (Some hostname) None None None] ∧
                 errors t' = errors t
            else success t' = success t ∧
                 ∃ msg, errors t' = errors t ++ [Entry (Some hostname) (Some msg) None None])
      as Hlists.
    { rewrite Hs, He, <- Hfv. case_bool_decide.
      - by rewrite Hentry.
      - destruct Hentry as [msg ->]. split; [done|]. by eexists. }
    destruct ws_manager as [w|].
    + pose proof (broadcast_status_ending tid hostname (shell_status proc) w) as Hend.
      destruct (broadcast_status tid hostname (shell_status proc) w) as [w1 e].
      cbn [fst snd] in *. split; [done|]. split; [by exists t'|]. by split.
    + cbn [fst snd]. split; [done|]. split; [by exists t'|]. done.
  - intros aborted ok error_msg output response_code. unfold _update_tasks. rewrite Hget.
    destruct aborted; [|destruct ok]; cbv zeta; cbn [negb andb];
      match goal with
      | |- context [drop_running hostname (append_to ?f ?v t)] =>
          destruct (TaskOps.completion_step d tid hostname t f v now Hwf Hget Hb)
            as (Hok & Hwf' & _ & t' & Hval & Hb' & _ & Hr & Hs & He)
      end;
      (split; [done|]); (split; [done|]); exists t'; (split; [done|]); (split; [done|]);
      (split; [done|]); simpl in Hs, He; rewrite Hs, He.
    + split; [done|]. eexists. split; [done|]. split; [done|by eexists].
    + done.
    + split; [done|]. eexists. split; [done|]. split; [done|by eexists].
Qed.

End Manager.

(** A client that watches host h2 of task b over a broken connection. *)
Definition ex_watcher : @ws nat := Ws [(1%nat, Client "api_user" "b" "h2")] [].

Lemma process_completion_recorded_witness :
  wf TaskOps.ex_store ∧ get TaskOps.ex_store "b" = Some TaskOps.ex_busy ∧
  ended_iff_idle TaskOps.ex_busy ∧
  let r := _update_task (broadcast_status (λ _, false)) TaskOps.ex_store (Some ex_watcher)
             "b" "h2" None false (Some (Some 3)) 1000 in
  r.2 = Some (RuntimeError "dictionary changed size during iteration") ∧
  (running <$> get r.1.1 "b") = Some ["h1"%string].
Proof.
  split; [exact TaskOps.wf_ex_store|]. split; [reflexivity|].
  split; [exact TaskOps.ended_iff_idle_ex_busy|]. split; [|reflexivity].
  destruct (process_completion_recorded (S:=nat) (λ _, false) TaskOps.ex_store "b" "h2" TaskOps.ex_busy
              1000 TaskOps.wf_ex_store eq_refl TaskOps.ended_iff_idle_ex_busy) as [Hshell _].
  destruct (Hshell (Some ex_watcher) None false (Some (Some 3))) as (_ & _ & _ & _ & [Hnone|Hraise]).
  - discriminate Hnone.
  - exact Hraise.
Defined.

End Completion.

(* ======================================================================= *)
(** * websocket.py: a token presented twice, the table of nonces *)
(* ======================================================================= *)

Module TokenUse.
Import Token.

Section Manager.

Variable hmac_sha256 : string → string → string.
Variable urlsafe_b64encode : string → string.
Variable urlsafe_b64decode : string → option string.

Hypothesis hmac_sha256_length : ∀ key msg, String.length (hmac_sha256 key msg) = 32%nat.
Hypothesis urlsafe_b64_round_trip : ∀ raw, urlsafe_b64decode (urlsafe_b64encode raw) = Some raw.

(** The entries that the cleaning step of a call at time [now] keeps. *)
Definition live (now : Z) (table : gmap string Z) : gmap string Z :=
  filter (λ ne : string * Z, now < ne.2) table.

(** X22. A token is good for one connection until its last second.
    Once [_verify_token] has accepted an issued token, presenting the
    same token again at any time before [exp] raises "Token replay
    detected", and presenting it after [exp] raises "Token expired";
    neither attempt records anything. *)
Theorem token_single_use_before_expiry (m : manager) (t0 now1 now2 : Z)
    (nonce user_id task_id hostname : string) :
  colon_free user_id → colon_free task_id → colon_free hostname → colon_free nonce →
  used_nonces m !! nonce = None → now1 <= t0 + token_ttl m →
  let exp := t0 + token_ttl m in
  let token := issue_token hmac_sha256 urlsafe_b64encode m t0 nonce user_id task_id hostname in
  let first := _verify_token hmac_sha256 urlsafe_b64decode m token now1 in
  let second := _verify_token hmac_sha256 urlsafe_b64decode first.2 token now2 in
  first.1 = inr (user_id, task_id, hostname) ∧
  (now2 < exp → second.1 = inl (ValueError "Token replay detected")) ∧
  (exp < now2 → second.1 = inl (ValueError "Token expired")) ∧
  (now2 ≠ exp → used_nonces second.2 = live now2 (used_nonces first.2)).
Proof.
  intros Hu Ht Hh Hn Hfresh Hnow exp token first second.
  subst first second token.
  rewrite (verify_issued hmac_sha256 urlsafe_b64encode urlsafe_b64decode
             hmac_sha256_length urlsafe_b64_round_trip m m) by done.
  rewrite check_accept by (done || (intros e He; congruence)).
  cbn [fst snd]. split; [done|].
  rewrite (verify_issued hmac_sha256 urlsafe_b64encode urlsafe_b64decode
             hmac_sha256_length urlsafe_b64_round_trip m) by done.
  fold exp. unfold check_and_remember. cbn [used_nonces secret token_ttl].
  split; [|split].
  - intros Hlt. replace (exp <? now2) with false by (symmetry; apply Z.ltb_ge; lia).
    rewrite bool_decide_eq_true_2; [done|].
    exists exp. apply map_lookup_filter_Some. by rewrite lookup_insert_eq.
  - intros Hgt. by replace (exp <? now2) with true by (symmetry; apply Z.ltb_lt; lia).
  - intros Hne. destruct (Z.ltb_spec exp now2) as [Hgt|Hle]; [done|].
    rewrite bool_decide_eq_true_2; [done|].
    exists exp. apply map_lookup_filter_Some. rewrite lookup_insert_eq. simpl.
    split; [done|lia].
Qed.

(** X23. What [_verify_token] does to the table of used nonces. A
    call that raises never adds an entry: the table it leaves is the old
    one or the old one without the entries that expired. A call that
    returns has dropped the expired entries and added exactly one, a
    nonce that was not among the live ones, with an expiry that is not in
    the past. So whenever the call changed the table, every remembered
    nonce expires at [now] or later. *)
Theorem nonce_table_only_grows_on_accept (m : manager) (token : string) (now : Z) :
  let r := _verify_token hmac_sha256 urlsafe_b64decode m token now in
  secret r.2 = secret m ∧ token_ttl r.2 = token_ttl m ∧
  (∀ e, r.1 = inl e →
        used_nonces r.2 = used_nonces m ∨ used_nonces r.2 = live now (used_nonces m)) ∧
  (∀ u, r.1 = inr u →
        ∃ nonce exp, now <= exp ∧ live now (used_nonces m) !! nonce = None ∧
                     used_nonces r.2 = <[nonce := exp]> (live now (used_nonces m))) ∧
  (used_nonces r.2 ≠ used_nonces m →
   ∀ n e, used_nonces r.2 !! n = Some e → now <= e).
Proof.
  intros r. subst r. unfold _verify_token.
  assert (∀ user task_id hostname exp nonce,
            let r := check_and_remember m user task_id hostname exp nonce now in
            secret r.2 = secret m ∧ token_ttl r.2 = token_ttl m ∧
            (∀ e, r.1 = inl e →
                  used_nonces r.2 = used_nonces m ∨ used_nonces r.2 = live now (used_nonces m)) ∧
            (∀ u, r.1 = inr u →
                  ∃ nonce exp, now <= exp ∧ live now (used_nonces m) !! nonce = None ∧
                               used_nonces r.2 = <[nonce := exp]> (live now (used_nonces m))) ∧
            (used_nonces r.2 ≠ used_nonces m →
             ∀ n e, used_nonces r.2 !! n = Some e → now <= e)) as Hblock.
  { intros user task_id hostname exp nonce. unfold check_and_remember. fold (live now (used_nonces m)).
    assert (∀ n e, live now (used_nonces m) !! n = Some e → now <= e) as Hlive.
    { intros n e Hne. apply map_lookup_filter_Some in Hne as [_ Hlt]. simpl in Hlt. lia. }
    destruct (Z.ltb_spec exp now) as [Hexp|Hexp]; cbn [fst snd used_nonces secret token_ttl].
    - split; [done|]. split; [done|]. split; [by right|]. split; [done|]. intros _. apply Hlive.
    - case_bool_decide as Hused; cbn [fst snd used_nonces secret token_ttl].
      + split; [done|]. split; [done|]. split; [by right|]. split; [done|]. intros _. apply Hlive.
      + split; [done|]. split; [done|]. split; [done|]. split.
        * intros u _. exists nonce, exp. split; [done|]. split; [|done].
          destruct (live now (used_nonces m) !! nonce) eqn:Hl; [|done].
          destruct Hused. by eexists.
        * intros _ n e. destruct (decide (n = nonce)) as [->|Hne].
          -- rewrite lookup_insert_eq. by intros [= <-].
          -- rewrite lookup_insert_ne by done. apply Hlive. }
  assert (∀ e : exn,
            let r : (exn + string * string * string) * manager := (inl e, m) in
            secret r.2 = secret m ∧ token_ttl r.2 = token_ttl m ∧
            (∀ e, r.1 = inl e →
                  used_nonces r.2 = used_nonces m ∨ used_nonces r.2 = live now (used_nonces m)) ∧
            (∀ u, r.1 = inr u →
                  ∃ nonce exp, now <= exp ∧ live now (used_nonces m) !! nonce = None ∧
                               used_nonces r.2 = <[nonce := exp]> (live now (used_nonces m))) ∧
            (used_nonces r.2 ≠ used_nonces m →
             ∀ n e, used_nonces r.2 !! n = Some e → now <= e)) as Hraise.
  { intros e. simpl. split; [done|]. split; [done|]. split; [by left|]. split; [done|]. done. }
  destruct (urlsafe_b64decode token) as [raw|]; [|apply Hraise].
  destruct (negb _); [apply Hraise|].
  destruct (split_on ":" _) as [|user [|task_id [|hostname [|exp_s rest]]]]; try apply Hraise.
  destruct (py_int exp_s) as [exp|]; [|apply Hraise].
  destruct rest as [|nonce rest]; [apply Hraise|apply Hblock].
Qed.

End Manager.

Lemma token_single_use_before_expiry_witness :
  let token := issue_token toy_hmac toy_b64encode ex_manager 1000 "n0nce" "api_user" "t1" "h1" in
  let first := _verify_token toy_hmac toy_b64decode ex_manager token 1010 in
  let second := _verify_token toy_hmac toy_b64decode first.2 token 1029 in
  first.1 = inr ("api_user", "t1", "h1")%string ∧
  second.1 = inl (ValueError "Token replay detected").
Proof.
  destruct (token_single_use_before_expiry toy_hmac toy_b64encode toy_b64decode
              toy_hmac_length toy_b64_round_trip ex_manager 1000 1010 1029
              "n0nce" "api_user" "t1" "h1" eq_refl eq_refl eq_refl eq_refl eq_refl
              ltac:(simpl; lia)) as (Hfirst & Hreplay & _).
  split; [exact Hfirst|]. apply Hreplay. simpl. lia.
Defined.

End TokenUse.

(* ======================================================================= *)
(** * task_scheduler.py: the execution sequence, jumps and conditions *)
(* ======================================================================= *)

Module Sequence.
Import PersistentDict Tasks Plan.

(** [list.sort(key=...)] is stable: an item goes before the first item
    of the sorted rest whose key is not smaller. *)
Fixpoint insert_by_position (x : Z * seq_item) (l : list (Z * seq_item)) : list (Z * seq_item) :=
  match l with
  | [] => [x]
  | y :: l' => if x.1 <=? y.1 then x :: y :: l' else y :: insert_by_position x l'
  end.

Definition sort_by_position (l : list (Z * seq_item)) : list (Z * seq_item) :=
  foldr insert_by_position [] l.

(** The items of a plan with the position each one is given: a
    referenced plan 0, a task its [execute_at_position] or else its
    index plus the number of referenced plans. A task comes with its
    [execute_at_position], [None] when the key is absent. *)
Definition all_items (referenced_plans : list string) (tasks : list (plan_task * option Z))
  : list (Z * seq_item) :=
  map (λ ref_plan, (0, SeqPlan ref_plan)) referenced_plans ++
  imap (λ idx t, (default (Z.of_nat idx + Z.of_nat (length referenced_plans)) t.2,
                  SeqTask t.1 (Z.of_nat idx))) tasks.

(** [TaskScheduler._build_execution_sequence] *)
Definition _build_execution_sequence (referenced_plans : list string)
    (tasks : list (plan_task * option Z)) : list seq_item :=
  let has_position_hints := existsb (λ t, bool_decide (is_Some t.2)) tasks in
  if negb has_position_hints then
    map SeqPlan referenced_plans ++ imap (λ idx t, SeqTask t.1 (Z.of_nat idx)) tasks
  else (sort_by_position (all_items referenced_plans tasks)).*2.

(** Non-decreasing positions. *)
Fixpoint ordered (l : list (Z * seq_item)) : Prop :=
  match l with
  | [] => True
  | x :: l' => Forall (λ y, x.1 <= y.1) l' ∧ ordered l'
  end.

(** ** The stable sort *)

Lemma insert_by_position_perm (x : Z * seq_item) (l : list (Z * seq_item)) :
  insert_by_position x l ≡ₚ x :: l.
Proof.
  induction l as [|y l IH]; [done|]. simpl. destruct (x.1 <=? y.1); [done|].
  rewrite IH. apply Permutation_swap.
Qed.

Lemma insert_by_position_ordered (x : Z * seq_item) (l : list (Z * seq_item)) :
  ordered l → ordered (insert_by_position x l).
Proof.
  induction l as [|y l IH]; intros Hl.
  - simpl. by split.
  - destruct Hl as [Hy Hl]. cbn [insert_by_position].
    destruct (Z.leb_spec x.1 y.1) as [Hle|Hgt].
    + split; [|by split]. constructor; [done|].
      eapply Forall_impl; [exact Hy|]. simpl. intros z Hz. lia.
    + split; [|by apply IH].
      rewrite insert_by_position_perm. constructor; [lia|done].
Qed.

Lemma sort_by_position_perm (l : list (Z * seq_item)) : sort_by_position l ≡ₚ l.
Proof.
  induction l as [|x l IH]; [done|]. simpl. by rewrite insert_by_position_perm, IH.
Qed.

Lemma sort_by_position_ordered (l : list (Z * seq_item)) : ordered (sort_by_position l).
Proof.
  induction l as [|x l IH]; [done|]. simpl. by apply insert_by_position_ordered.
Qed.

(** Stability: what is already in order stays as it is. *)
Lemma sort_by_position_id (l : list (Z * seq_item)) : ordered l → sort_by_position l = l.
Proof.
  induction l as [|x l IH]; intros Hl; [done|].
  destruct Hl as [Hx Hl]. simpl. rewrite IH by done.
  destruct l as [|y l]; [done|]. simpl.
  apply Forall_cons in Hx as [Hxy _]. by destruct (Z.leb_spec x.1 y.1); [|lia].
Qed.

Lemma all_items_items (referenced_plans : list string) (tasks : list (plan_task * option Z)) :
  (all_items referenced_plans tasks).*2 =
    map SeqPlan referenced_plans ++ imap (λ idx t, SeqTask t.1 (Z.of_nat idx)) tasks.
Proof.
  unfold all_items. rewrite fmap_app. f_equal.
  - induction referenced_plans as [|p l IH]; [done|]. simpl. by rewrite <- IH.
  - generalize (length referenced_plans). intros n.
    rewrite fmap_imap. by apply imap_ext.
Qed.

(** X24. [_build_execution_sequence]. Without any
    [execute_at_position] the referenced plans come first and the tasks
    follow in their order. With a hint on some task the sequence holds
    the same items, each once, in non-decreasing position, where a
    referenced plan has position 0 and a task without a hint its index
    plus the number of referenced plans; items that were already in
    order keep their places. In both cases a task carries its index in
    the plan as [original_index]. *)
Theorem build_execution_sequence_order (referenced_plans : list string)
    (tasks : list (plan_task * option Z)) :
  let legacy := map SeqPlan referenced_plans ++ imap (λ idx t, SeqTask t.1 (Z.of_nat idx)) tasks in
  let sequence := _build_execution_sequence referenced_plans tasks in
  (Forall (λ t, t.2 = None) tasks → sequence = legacy) ∧
  sequence ≡ₚ legacy ∧
  (Exists (λ t, is_Some t.2) tasks →
   ∃ positioned, positioned ≡ₚ all_items referenced_plans tasks ∧ ordered positioned ∧
                 sequence = positioned.*2) ∧
  (ordered (all_items referenced_plans tasks) → sequence = legacy).
Proof.
  intros legacy sequence. subst legacy sequence. unfold _build_execution_sequence.
  destruct (existsb (λ t, bool_decide (is_Some t.2)) tasks) eqn:Hhints; cbn [negb].
  - apply existsb_exists in Hhints as (t & Hin & Ht). apply bool_decide_eq_true in Ht.
    apply list_elem_of_In in Hin.
    split; [|split; [|split]].
    + intros Hnone. eapply Forall_forall in Hnone; [|exact Hin].
      rewrite Hnone in Ht. by destruct Ht.
    + rewrite <- all_items_items. apply fmap_Permutation, sort_by_position_perm.
    + intros _. exists (sort_by_position (all_items referenced_plans tasks)).
      split; [apply sort_by_position_perm|]. split; [apply sort_by_position_ordered|done].
    + intros Hord. by rewrite sort_by_position_id, all_items_items.
  - split; [done|]. split; [done|]. split; [|done].
    intros Hex. apply Exists_exists in Hex as (t & Hin & Ht).
    assert (existsb (λ t, bool_decide (is_Some t.2)) tasks = true) as Htrue.
    { apply existsb_exists. exists t. split; [by apply list_elem_of_In|].
      by apply bool_decide_eq_true. }
    congruence.
Qed.

(** ** Jump targets *)

Lemma find_from_spec (sequence : list seq_item) (original_task_idx : Z) (i : nat) :
  let r := find_from sequence original_task_idx i in
  (i <= r <= i + length sequence)%nat ∧
  (∀ j pt, (i + j < r)%nat → sequence !! j ≠ Some (SeqTask pt original_task_idx)) ∧
  ((r < i + length sequence)%nat →
   ∃ pt, sequence !! (r - i)%nat = Some (SeqTask pt original_task_idx)).
Proof.
  revert i. induction sequence as [|item sequence IH]; intros i.
  - simpl. split; [lia|]. split; [done|]. lia.
  - cbn [find_from]. destruct item as [p|pt oi].
    + destruct (IH (S i)) as (Hr & Hbefore & Hat).
      split; [simpl; lia|]. split.
      * intros [|j] pt' Hj; [done|]. simpl. apply Hbefore. lia.
      * intros Hlt. destruct Hat as [pt' Hpt']; [simpl in Hlt; lia|].
        exists pt'. rewrite <- Hpt'.
        replace (find_from sequence original_task_idx (S i) - i)%nat
          with (S (find_from sequence original_task_idx (S i) - S i)) by lia.
        done.
    + destruct (Z.eqb_spec oi original_task_idx) as [->|Hne].
      * split; [simpl; lia|]. split; [intros j pt' Hj; lia|].
        intros _. exists pt. by rewrite Nat.sub_diag.
      * destruct (IH (S i)) as (Hr & Hbefore & Hat).
        split; [simpl; lia|]. split.
        -- intros [|j] pt' Hj; [simpl; congruence|]. simpl. apply Hbefore. lia.
        -- intros Hlt. destruct Hat as [pt' Hpt']; [simpl in Hlt; lia|].
           exists pt'. rewrite <- Hpt'.
           replace (find_from sequence original_task_idx (S i) - i)%nat
             with (S (find_from sequence original_task_idx (S i) - S i)) by lia.
           done.
Qed.

(** X25. [_find_task_index_in_sequence] gives the place of the first
    task item whose [original_index] is the one asked for; referenced
    plans are passed over. When no task has that index the result is the
    length of the sequence, the position at which the interpreter loop
    ends: a jump to a task that does not exist ends the plan. *)
Theorem find_task_index_first_or_end (sequence : list seq_item) (original_task_idx : Z) :
  let r := _find_task_index_in_sequence sequence original_task_idx in
  (r <= length sequence)%nat ∧
  (∀ j pt, (j < r)%nat → sequence !! j ≠ Some (SeqTask pt original_task_idx)) ∧
  ((r < length sequence)%nat → ∃ pt, sequence !! r = Some (SeqTask pt original_task_idx)) ∧
  (r = length sequence ↔ ∀ pt, SeqTask pt original_task_idx ∉ sequence).
Proof.
  intros r. subst r. unfold _find_task_index_in_sequence.
  destruct (find_from_spec sequence original_task_idx 0) as (Hr & Hbefore & Hat).
  simpl in *. split; [lia|]. split; [done|]. split.
  - intros Hlt. destruct (Hat Hlt) as [pt Hpt]. exists pt. by rewrite Nat.sub_0_r in Hpt.
  - split.
    + intros Hend pt Hin. apply list_elem_of_lookup in Hin as [j Hj].
      apply (Hbefore j pt); [|done]. rewrite Hend. by eapply lookup_lt_Some.
    + intros Hnone.
      destruct (decide (find_from sequence original_task_idx 0 < length sequence)%nat)
        as [Hlt|Hge]; [|lia].
      destruct (Hat Hlt) as [pt Hpt]. destruct (Hnone pt).
      by eapply list_elem_of_lookup_2.
Qed.

(** ** Conditions *)

(** X26. [_check_conditions] answers False exactly in the three
    cases of an unmet condition: the task named by [if_previous_command]
    is not an earlier one, or it has no recorded result, or its result
    contradicts [if_previous_command_result] or lacks the text of
    [if_previous_output_contains]. A task without [if_previous_command]
    always passes, and so does one whose result condition is none of the
    four names. *)
Theorem check_conditions_false_iff (pt : plan_task) (task_results : gmap Z result)
    (current_idx : Z) :
  _check_conditions pt task_results current_idx = false ↔
  ∃ i, if_previous_command pt = Some i ∧ condition_unmet pt task_results current_idx i.
Proof.
  split.
  - unfold _check_conditions, condition_unmet.
    destruct (if_previous_command pt) as [i|]; [|done].
    intros Hfalse. exists i. split; [done|].
    destruct (Z.leb_spec current_idx i) as [Hle|Hgt]; [by left|]. right.
    destruct (task_results !! i) as [r|]; [|by left]. right.
    exists r. split; [done|].
    destruct (nonempty (if_previous_command_result pt)) as [c|] eqn:Hc.
    + destruct (result_condition_fails c r) eqn:Hfail.
      * left. exists c. split.
        -- unfold nonempty in Hc. destruct (if_previous_command_result pt) as [c'|]; [|done].
           by case_bool_decide; simplify_eq.
        -- by apply result_condition_fails_spec.
      * right. destruct (nonempty (if_previous_output_contains pt)) as [s|] eqn:Hs; [|done].
        exists s. split.
        -- unfold nonempty in Hs. destruct (if_previous_output_contains pt) as [s'|]; [|done].
           by case_bool_decide; simplify_eq.
        -- intros Hin. apply str_contains_spec in Hin.
           destruct (str_contains s (combined_output r)); done.
    + right. destruct (nonempty (if_previous_output_contains pt)) as [s|] eqn:Hs; [|done].
      exists s. split.
      * unfold nonempty in Hs. destruct (if_previous_output_contains pt) as [s'|]; [|done].
        by case_bool_decide; simplify_eq.
      * intros Hin. apply str_contains_spec in Hin.
        destruct (str_contains s (combined_output r)); done.
  - intros (i & Hi & Hunmet). by apply (_check_conditions_unmet pt task_results current_idx i).
Qed.

End Sequence.

(* ======================================================================= *)
(** * task_executor_helper.py: a string placeholder and its value *)
(* ======================================================================= *)

Module StringToken.
Import Placeholders.

(** The template of S3 up to its placeholder, [{"name": ]. *)
Definition before_S3 : string := "{" +:+ q +:+ "name" +:+ q +:+ ": ".

(** ** No opening angle bracket comes out of [json.dumps] *)

Lemma has_char_app (c : ascii) (a b : string) :
  Token.has_char c (a +:+ b) = Token.has_char c a || Token.has_char c b.
Proof.
  induction a as [|x a IH]; [done|]. rewrite Wol.str_app_cons.
  cbn [Token.has_char]. rewrite IH. by rewrite orb_assoc.
Qed.

Lemma escape_code_point_no_lt (c : ascii) :
  Ascii.eqb c "<" = false → Helper.no_lt (escape_code_point (code c)).
Proof.
  unfold Helper.no_lt.
  destruct c as [[] [] [] [] [] [] [] []]; vm_compute; congruence.
Qed.

Lemma dumps_str_no_lt (s : string) : Helper.no_lt s → Helper.no_lt (dumps_str s).
Proof.
  unfold Helper.no_lt, dumps_str, dumps_code_points, code_points. intros Hs.
  rewrite has_char_app. change (Token.has_char "<" q) with false. rewrite orb_false_r.
  cbn [Token.has_char]. change (Ascii.eqb quote "<") with false. cbn [orb].
  induction s as [|c s IH]; [done|]. cbn [Token.has_char] in Hs.
  apply orb_false_iff in Hs as [Hc Hs].
  cbn [list_ascii_of_string map fold_right]. rewrite has_char_app.
  rewrite (escape_code_point_no_lt c Hc). by apply IH.
Qed.

(** ** Reading the document back *)

(** One step of the decoder at a time. *)
Lemma scan_value_object (fuel : nat) (s2 : string) :
  scan (S fuel) MValue (String "{" (String quote s2)) =
    scan fuel (MMembers []) (String quote s2).
Proof. reflexivity. Qed.

Lemma scan_value_string (fuel : nat) (s' : string) (l : list Z) (rest : string) :
  scan_string (S (String.length s')) s' = Some (l, rest) →
  scan (S fuel) MValue (String quote s') = Some (JStr l, rest).
Proof.
  intros Hs. cbn [scan]. change (code quote =? 34) with true. cbv iota. by rewrite Hs.
Qed.

Lemma scan_members_last (fuel : nat) (acc : list (list Z * json)) (s' : string)
    (key : list Z) (s1 : string) (vj : json) :
  scan_string (S (String.length s')) s' = Some (key, String ":" (String " " (String quote s1))) →
  scan fuel MValue (String quote s1) = Some (vj, "}"%string) →
  scan (S fuel) (MMembers acc) (String quote s') = Some (JObj (obj_set key vj acc), ""%string).
Proof.
  intros Hkey Hval. cbn [scan]. change (code quote =? 34) with true. cbv iota.
  rewrite Hkey. cbn [skip_ws]. change (is_ws ":") with false. cbv iota.
  change (code ":" =? 58) with true. cbv iota.
  change (skip_ws (String " " (String quote s1))) with (String quote s1).
  rewrite Hval. cbn [skip_ws]. change (is_ws "}") with false. cbv iota.
  change (code "}" =? 125) with true. done.
Qed.

Lemma json_loads_S3 (v : string) :
  json_loads (before_S3 +:+ dumps_str v +:+ "}") =
    Some (JObj [(code_points "name", JStr (code_points v))]).
Proof.
  unfold json_loads, dumps_str, dumps_code_points, code_points.
  set (l := list_ascii_of_string v). fold (escaped l).
  rewrite (str_app_assoc (String quote (escaped l)) q "}").
  pose proof (escaped_length l) as Hlen.
  pose proof (scan_string_escaped l) as Hscan.
  remember (escaped l) as body eqn:Hbody. clear Hbody.
  assert (scan_string (S (String.length (body +:+ String quote "}")))
                      (body +:+ String quote "}") = Some (map code l, "}"%string)) as Hvalue.
  { replace (S (String.length (body +:+ String quote "}")))
      with (length l + S (S (S (String.length body)) - length l))%nat
      by (rewrite str_app_length; simpl; lia).
    apply Hscan. }
  change (before_S3 +:+ String quote body +:+ q +:+ "}")
    with (String "{" (String quote ("name" +:+ String quote
            (String ":" (String " " (String quote (body +:+ String quote "}"))))))).
  remember (body +:+ String quote "}") as tail eqn:Htail. clear Htail Hscan Hlen.
  set (s2 := ("name" +:+ String quote (String ":" (String " " (String quote tail))))%string).
  change (skip_ws (String "{" (String quote s2))) with (String "{" (String quote s2)).
  rewrite scan_value_object. cbn [String.length].
  rewrite (scan_members_last _ [] s2 (code_points "name") tail (JStr (map code l))).
  - done.
  - subst s2. change "name"%string with (escaped ["n"; "a"; "m"; "e"]%char).
    replace (S (String.length (escaped ["n"; "a"; "m"; "e"]%char +:+
                 String quote (String ":" (String " " (String quote tail))))))
      with (length ["n"; "a"; "m"; "e"]%char + S (S (S (S (S (String.length tail))))))%nat
      by (rewrite str_app_length; simpl; lia).
    by rewrite scan_string_escaped.
  - subst s2. change (String.length ("name" +:+ String quote (String ":" (String " " (String quote tail)))))
      with (S (S (S (S (S (S (S (S (String.length tail))))))))).
    by apply scan_value_string.
Qed.

(** X28. A string placeholder keeps its value in one token. With the
    template [{"name": <string_name>}] and a value that has no [<] in
    it, whatever quotes, backslashes, braces, commas or control
    characters it holds otherwise, [replace_json_placeholders] returns
    the template with [json.dumps] of the value in the place of the
    placeholder, and that text is a JSON object whose only key is
    [name] and whose value is the string given. *)
Theorem string_placeholder_one_token (float_literal : string → option string)
    (py_str_container : pyvalue → string) (v hostname : string) :
  Helper.no_lt v →
  replace_json_placeholders float_literal py_str_container template_S3 hostname
      [("name"%string, PStr v)]
    = inr (before_S3 +:+ dumps_str v +:+ "}") ∧
  json_loads (before_S3 +:+ dumps_str v +:+ "}")
    = Some (JObj [(code_points "name", JStr (code_points v))]).
Proof.
  intros Hv. split; [|apply json_loads_S3].
  unfold replace_json_placeholders.
  change (dict_update [("hostname"%string, PStr hostname)] [("name"%string, PStr v)])
    with [("hostname"%string, PStr hostname); ("name"%string, PStr v)].
  cbn [replace_params].
  change (replace_types float_literal py_str_container type_prefixes "hostname"
            (PStr hostname) template_S3) with (@inr exn string template_S3).
  cbv iota beta.
  assert (replace_types float_literal py_str_container type_prefixes "name" (PStr v) template_S3
          = inr (before_S3 +:+ dumps_str v +:+ "}")) as ->.
  { unfold type_prefixes. cbn [replace_types].
    change (str_contains ("<" +:+ "string" +:+ "_" +:+ "name" +:+ ">") template_S3) with true.
    cbn [negb]. cbv iota.
    change (replacement_for float_literal py_str_container "string" "name"
              ("<" +:+ "string" +:+ "_" +:+ "name" +:+ ">") (PStr v))
      with (@inr exn string (dumps_str v)).
    cbv iota beta.
    change (str_replace ("<" +:+ "string" +:+ "_" +:+ "name" +:+ ">") (dumps_str v) template_S3)
      with (before_S3 +:+ dumps_str v +:+ "}").
    assert (Helper.no_lt (before_S3 +:+ dumps_str v +:+ "}")) as Hno.
    { unfold Helper.no_lt. rewrite !has_char_app.
      rewrite (dumps_str_no_lt v Hv). done. }
    change ("<" +:+ "number" +:+ "_" +:+ "name" +:+ ">")%string
      with (String "<" "number_name>").
    change ("<" +:+ "boolean" +:+ "_" +:+ "name" +:+ ">")%string
      with (String "<" "boolean_name>").
    change ("<" +:+ "json" +:+ "_" +:+ "name" +:+ ">")%string
      with (String "<" "json_name>").
    change ("<" +:+ "array" +:+ "_" +:+ "name" +:+ ">")%string
      with (String "<" "array_name>").
    by rewrite !Helper.str_contains_lt. }
  by rewrite json_loads_S3.
Qed.

Lemma string_placeholder_one_token_witness :
  json_loads (before_S3 +:+ dumps_str value_S3 +:+ "}")
    = Some (JObj [(code_points "name", JStr (code_points value_S3))]).
Proof.
  exact (proj2 (string_placeholder_one_token (λ _, None) (λ _, ""%string) value_S3 "host1"
                  eq_refl)).
Defined.

End StringToken.

(* ======================================================================= *)
(** * task_executor.py: cutting a byte stream into JPEG frames *)
(* ======================================================================= *)

Module Jpeg.

(** [buf.find(bytes([a, b]))]: the lowest index of the two bytes, [None]
    for -1. *)
Fixpoint find2 (a b : Z) (l : list Z) : option nat :=
  match l with
  | x :: l' =>
      match l' with
      | y :: _ => if (x =? a) && (y =? b) then Some 0%nat else S <$> find2 a b l'
      | [] => None
      end
  | [] => None
  end.

(** [buf.find(bytes([a, b]), start)] *)
Definition find2_from (a b : Z) (start : nat) (l : list Z) : option nat :=
  (λ i, (start + i)%nat) <$> find2 a b (drop start l).

(** The loop that follows [frame_buffer.extend(chunk)] in
    [_stream_binary_frames],
[[
    while len(frame_buffer) >= 2:
        start_idx = frame_buffer.find(b'\xFF\xD8')
        if start_idx == -1:
            if len(frame_buffer) > 1: frame_buffer = frame_buffer[-1:]
            break
        if start_idx > 0: frame_buffer = frame_buffer[start_idx:]
        end_idx = frame_buffer.find(b'\xFF\xD9', 2)
        if end_idx == -1: break
        frame_data = bytes(frame_buffer[:end_idx + 2])
        frame_buffer = frame_buffer[end_idx + 2:]
        self._send_framed_data(frame_data, 'image/jpeg')
]]
    as the frames handed to [_send_framed_data] and the buffer that is
    left. Every round that goes on takes at least four bytes off the
    buffer, so its length is fuel enough. *)
Fixpoint extract_frames (fuel : nat) (frame_buffer : list Z) : list (list Z) * list Z :=
  match fuel with
  | O => ([], frame_buffer)
  | S fuel' =>
      if (length frame_buffer <? 2)%nat then ([], frame_buffer)
      else
        match find2 255 216 frame_buffer with
        | None => ([], drop (length frame_buffer - 1) frame_buffer)
        | Some start_idx =>
            let frame_buffer := drop start_idx frame_buffer in
            match find2_from 255 217 2 frame_buffer with
            | None => ([], frame_buffer)
            | Some end_idx =>
                let frame_data := take (end_idx + 2) frame_buffer in
                let '(frames, rest) := extract_frames fuel' (drop (end_idx + 2) frame_buffer) in
                (frame_data :: frames, rest)
            end
        end
  end.

Definition extract (frame_buffer : list Z) : list (list Z) * list Z :=
  extract_frames (length frame_buffer) frame_buffer.

(** The block after the streaming loop, "send any remaining complete
    frame": the frame it sends, if any. *)
Definition flush (frame_buffer : list Z) : option (list Z) :=
  if (length frame_buffer <? 2)%nat then None
  else
    match find2 255 216 frame_buffer with
    | None => None
    | Some start_idx =>
        match find2_from 255 217 (start_idx + 2) frame_buffer with
        | None => None
        | Some end_idx => Some (take (end_idx + 2 - start_idx) (drop start_idx frame_buffer))
        end
    end.

(** A frame as the client expects it: it starts with FF D8 and ends
    with FF D9. *)
Definition framed (f : list Z) : Prop :=
  (4 <= length f)%nat ∧ take 2 f = [255; 216] ∧ drop (length f - 2) f = [255; 217].

(** ** Searching *)

Lemma find2_cons (a b x : Z) (l : list Z) :
  find2 a b (x :: l) =
    match l with
    | y :: _ => if (x =? a) && (y =? b) then Some 0%nat else S <$> find2 a b l
    | [] => None
    end.
Proof. reflexivity. Qed.

Lemma find2_Some (a b : Z) (l : list Z) (i : nat) :
  find2 a b l = Some i → drop i l = a :: b :: drop (i + 2) l.
Proof.
  revert i. induction l as [|x l IH]; intros i; [done|].
  rewrite find2_cons. destruct l as [|y l]; [done|].
  destruct ((x =? a) && (y =? b)) eqn:Hxy.
  - intros [= <-]. apply andb_true_iff in Hxy as [->%Z.eqb_eq ->%Z.eqb_eq]. done.
  - destruct (find2 a b (y :: l)) as [j|] eqn:Hj; [|done].
    intros [= <-]. simpl. by apply IH.
Qed.

Lemma find2_length (a b : Z) (l : list Z) (i : nat) :
  find2 a b l = Some i → (i + 2 <= length l)%nat.
Proof.
  intros Hi. apply find2_Some in Hi. apply (f_equal length) in Hi.
  rewrite length_drop in Hi. simpl in Hi. lia.
Qed.

Lemma find2_app (a b : Z) (l r : list Z) (i : nat) :
  find2 a b l = Some i → find2 a b (l ++ r) = Some i.
Proof.
  revert i. induction l as [|x l IH]; intros i; [done|].
  rewrite <- app_comm_cons, !find2_cons. destruct l as [|y l]; [done|].
  rewrite <- app_comm_cons. destruct ((x =? a) && (y =? b)); [done|].
  destruct (find2 a b (y :: l)) as [j|] eqn:Hj; [|done].
  intros [= <-]. rewrite app_comm_cons. by rewrite (IH j).
Qed.

(** Without the two bytes in [l], an occurrence in [l ++ r] begins at
    the last byte of [l] or later. *)
Lemma find2_app_None (a b : Z) (l r : list Z) :
  l ≠ [] → find2 a b l = None →
  find2 a b (l ++ r) =
    (λ i, (length l - 1 + i)%nat) <$> find2 a b (drop (length l - 1) l ++ r).
Proof.
  induction l as [|x l IH]; [done|]. intros _.
  rewrite find2_cons. destruct l as [|y l].
  - intros _.
    change (find2 a b (x :: r) = (λ i, (0 + i)%nat) <$> find2 a b (x :: r)).
    by destruct (find2 a b (x :: r)).
  - destruct ((x =? a) && (y =? b)) eqn:Hxy; [done|].
    destruct (find2 a b (y :: l)) as [j|] eqn:Hj; [done|]. intros _.
    rewrite <- app_comm_cons, find2_cons, <- app_comm_cons, Hxy.
    rewrite app_comm_cons, IH by done.
    replace (length (x :: y :: l) - 1)%nat with (S (length (y :: l) - 1)) by (simpl; lia).
    cbn [drop]. destruct (find2 a b (drop (length (y :: l) - 1) (y :: l) ++ r)); [|done].
    simpl; f_equal; lia.
Qed.

Lemma find2_from_app (a b : Z) (start : nat) (l r : list Z) (i : nat) :
  (start <= length l)%nat →
  find2_from a b start l = Some i → find2_from a b start (l ++ r) = Some i.
Proof.
  unfold find2_from. intros Hs. rewrite drop_app_le by done.
  destruct (find2 a b (drop start l)) as [j|] eqn:Hj; [|done].
  by rewrite (find2_app a b _ r j Hj).
Qed.

Lemma find2_from_length (a b : Z) (start : nat) (l : list Z) (e : nat) :
  find2_from a b start l = Some e → (start <= e)%nat ∧ (e + 2 <= length l)%nat.
Proof.
  unfold find2_from. destruct (find2 a b (drop start l)) as [j|] eqn:Hj; [|done].
  intros [= <-]. apply find2_length in Hj. rewrite length_drop in Hj. lia.
Qed.

(** ** Fuel *)

Lemma extract_frames_fuel (fuel fuel' : nat) (buf : list Z) :
  (length buf <= fuel)%nat → (length buf <= fuel')%nat →
  extract_frames fuel buf = extract_frames fuel' buf.
Proof.
  revert fuel' buf. induction fuel as [|fuel IH]; intros fuel' buf Hf Hf'.
  - destruct buf; [|simpl in Hf; lia]. by destruct fuel'.
  - destruct fuel' as [|fuel'].
    { destruct buf; [done|simpl in Hf'; lia]. }
    cbn [extract_frames]. destruct (length buf <? 2)%nat; [done|].
    destruct (find2 255 216 buf) as [s|] eqn:Hs; [|done].
    cbv zeta.
    destruct (find2_from 255 217 2 (drop s buf)) as [e|] eqn:He; [|done].
    unfold find2_from in He.
    destruct (find2 255 217 (drop 2 (drop s buf))) as [j|] eqn:Hj; [|done].
    injection He as <-. apply find2_length in Hj. rewrite !length_drop in Hj.
    rewrite (IH fuel'); [done| |]; rewrite !length_drop; lia.
Qed.

Lemma extract_unfold (buf : list Z) :
  extract buf =
    if (length buf <? 2)%nat then ([], buf)
    else
      match find2 255 216 buf with
      | None => ([], drop (length buf - 1) buf)
      | Some start_idx =>
          match find2_from 255 217 2 (drop start_idx buf) with
          | None => ([], drop start_idx buf)
          | Some end_idx =>
              (take (end_idx + 2) (drop start_idx buf)
                 :: (extract (drop (end_idx + 2) (drop start_idx buf))).1,
               (extract (drop (end_idx + 2) (drop start_idx buf))).2)
          end
      end.
Proof.
  unfold extract at 1. destruct buf as [|x buf]; [done|].
  cbn [length extract_frames].
  destruct (S (length buf) <? 2)%nat; [done|].
  destruct (find2 255 216 (x :: buf)) as [s|] eqn:Hs; [|done].
  cbv zeta. destruct (find2_from 255 217 2 (drop s (x :: buf))) as [e|] eqn:He; [|done].
  unfold extract.
  rewrite (extract_frames_fuel (length buf) (length (drop (e + 2) (drop s (x :: buf)))));
    [by destruct (extract_frames _ _)| |done].
  rewrite !length_drop. simpl. unfold find2_from in He.
  destruct (find2 255 217 (drop 2 (drop s (x :: buf)))) as [j|] eqn:Hj; [|done].
  injection He as <-. apply find2_length in Hj. rewrite !length_drop in Hj. simpl in Hj. lia.
Qed.

(** Induction along the rounds of the loop. *)
Lemma extract_ind (P : list Z → Prop) :
  (∀ buf, (∀ s e, find2 255 216 buf = Some s →
                  find2_from 255 217 2 (drop s buf) = Some e →
                  P (drop (e + 2) (drop s buf))) → P buf) →
  ∀ buf, P buf.
Proof.
  intros Hstep buf.
  remember (length buf) as n eqn:Hn. revert buf Hn.
  induction n as [n IH] using lt_wf_ind. intros buf ->.
  apply Hstep. intros s e Hs He. apply (IH (length (drop (e + 2) (drop s buf)))); [|done].
  rewrite !length_drop. unfold find2_from in He.
  destruct (find2 255 217 (drop 2 (drop s buf))) as [j|] eqn:Hj; [|done].
  injection He as <-. apply find2_length in Hj. rewrite !length_drop in Hj. lia.
Qed.

(** X29. Whatever bytes the process writes, the streaming loop hands
    on only frames that start with FF D8 and end with FF D9, and when it
    stops nothing that could be sent is left behind: the buffer it keeps
    holds no complete frame, so the final "send any remaining complete
    frame" has nothing to send. The frames and the buffer never hold
    more bytes than came in. *)
Theorem frames_are_framed (frame_buffer : list Z) :
  let frames := (extract frame_buffer).1 in
  let rest := (extract frame_buffer).2 in
  Forall framed frames ∧ flush rest = None ∧
  (length (concat frames) + length rest <= length frame_buffer)%nat.
Proof.
  induction frame_buffer as [buf IH] using extract_ind.
  cbv zeta. rewrite extract_unfold.
  destruct (length buf <? 2)%nat eqn:Hshort.
  { cbn [fst snd]. split; [constructor|]. split; [|simpl; lia].
    unfold flush. by rewrite Hshort. }
  apply Nat.ltb_ge in Hshort.
  destruct (find2 255 216 buf) as [s|] eqn:Hs.
  - pose proof (find2_Some _ _ _ _ Hs) as Hsoi. pose proof (find2_length _ _ _ _ Hs) as Hslen.
    destruct (find2_from 255 217 2 (drop s buf)) as [e|] eqn:He.
    + specialize (IH s e eq_refl He). cbv zeta in IH. destruct IH as (Hfr & Hfl & Hlen).
      cbn [fst snd]. unfold find2_from in He.
      destruct (find2 255 217 (drop 2 (drop s buf))) as [j|] eqn:Hj; [|done].
      assert (e = (2 + j)%nat) as Hej by (simpl in He; injection He; lia). clear He.
      pose proof (find2_Some _ _ _ _ Hj) as Heoi. pose proof (find2_length _ _ _ _ Hj) as Hjlen.
      rewrite !length_drop in Hjlen.
      assert (length (take (e + 2) (drop s buf)) = (e + 2)%nat) as Hlenf
        by (rewrite length_take, length_drop; lia).
      split; [|split; [done|]].
      * constructor; [|done]. unfold framed. rewrite Hlenf.
        split; [lia|]. split.
        -- rewrite take_take. replace (2 `min` (e + 2))%nat with 2%nat by lia.
           by rewrite Hsoi.
        -- replace (e + 2 - 2)%nat with e by lia.
           rewrite <- (take_drop_commute _ 2 e), Hej, <- drop_drop, Heoi. done.
      * cbn [concat]. rewrite length_app, Hlenf. rewrite !length_drop in Hlen. lia.
    + cbn [fst snd]. split; [constructor|]. split; [|rewrite length_drop; simpl; lia].
      unfold flush. rewrite length_drop.
      destruct (length buf - s <? 2)%nat; [done|].
      assert (find2 255 216 (drop s buf) = Some 0%nat) as -> by (by rewrite Hsoi).
      cbn [Nat.add]. by rewrite He.
  - cbn [fst snd]. split; [constructor|]. split; [|rewrite length_drop; simpl; lia].
    unfold flush. rewrite length_drop.
    replace (length buf - (length buf - 1) <? 2)%nat with true; [done|].
    symmetry. apply Nat.ltb_lt. lia.
Qed.

Lemma extract_app (buf chunk : list Z) :
  extract (buf ++ chunk) =
    ((extract buf).1 ++ (extract ((extract buf).2 ++ chunk)).1,
     (extract ((extract buf).2 ++ chunk)).2).
Proof.
  induction buf as [buf IH] using extract_ind.
  rewrite (extract_unfold buf).
  destruct (length buf <? 2)%nat eqn:Hshort.
  { cbn [fst snd app]. by destruct (extract (buf ++ chunk)). }
  apply Nat.ltb_ge in Hshort.
  assert ((length (buf ++ chunk) <? 2)%nat = false) as Hlong
    by (apply Nat.ltb_ge; rewrite length_app; lia).
  destruct (find2 255 216 buf) as [s|] eqn:Hs.
  - pose proof (find2_Some _ _ _ _ Hs) as Hsoi. pose proof (find2_length _ _ _ _ Hs) as Hslen.
    rewrite (extract_unfold (buf ++ chunk)), Hlong, (find2_app _ _ _ chunk _ Hs).
    rewrite drop_app_le by lia.
    destruct (find2_from 255 217 2 (drop s buf)) as [e|] eqn:He.
    + destruct (find2_from_length _ _ _ _ _ He) as [_ Helen].
      rewrite (find2_from_app 255 217 2 (drop s buf) chunk e) by (done || (rewrite length_drop; lia)).
      rewrite take_app_le, drop_app_le by done.
      rewrite (IH s e eq_refl He). done.
    + cbn [fst snd app].
      rewrite (extract_unfold (drop s buf ++ chunk)).
      replace (length (drop s buf ++ chunk) <? 2)%nat with false
        by (symmetry; apply Nat.ltb_ge; rewrite length_app, length_drop; lia).
      assert (find2 255 216 (drop s buf) = Some 0%nat) as H0 by (by rewrite Hsoi).
      rewrite (find2_app _ _ _ chunk _ H0), !drop_0.
      by destruct (find2_from 255 217 2 (drop s buf ++ chunk)).
  - cbn [fst snd app].
    destruct chunk as [|c chunk].
    { rewrite !app_nil_r. rewrite (extract_unfold buf).
      replace (length buf <? 2)%nat with false by (symmetry; by apply Nat.ltb_ge).
      rewrite Hs. rewrite (extract_unfold (drop _ buf)), length_drop.
      replace (length buf - (length buf - 1) <? 2)%nat with true
        by (symmetry; apply Nat.ltb_lt; lia).
      done. }
    set (t := drop (length buf - 1) buf ++ c :: chunk).
    assert (length t = S (S (length chunk))) as Ht.
    { unfold t. rewrite length_app, length_drop. simpl. lia. }
    rewrite (extract_unfold (buf ++ c :: chunk)), Hlong.
    assert (buf ≠ []) as Hne by (intros ->; simpl in Hshort; lia).
    rewrite find2_app_None by done.
    fold t. rewrite (extract_unfold t), Ht. cbn [Nat.ltb Nat.leb].
    destruct (find2 255 216 t) as [i|] eqn:Hi; cbn [fmap option_fmap option_map].
    + replace (drop (length buf - 1 + i) (buf ++ c :: chunk)) with (drop i t);
        [by destruct (find2_from 255 217 2 (drop i t))|].
      unfold t. rewrite <- (drop_app_le buf _ (length buf - 1)) by lia. by rewrite drop_drop.
    + f_equal. unfold t. rewrite !drop_app_ge; rewrite ?length_drop, ?length_app; simpl; try lia.
      f_equal. lia.
Qed.

(** The outer loop of [_stream_binary_frames] over the chunks that
    [read(8192)] returns, while every send returns: an empty chunk is
    skipped, any other one is added to the buffer and the frames found
    are sent.  The state is the frames sent so far and the buffer. *)
Definition stream_step (st : list (list Z) * list Z) (chunk : list Z) : list (list Z) * list Z :=
  match chunk with
  | [] => st
  | _ => let '(frames, rest) := extract (st.2 ++ chunk) in (st.1 ++ frames, rest)
  end.

Definition stream (chunks : list (list Z)) : list (list Z) * list Z :=
  fold_left stream_step chunks ([], []).

Lemma stream_step_extract (pre chunk : list Z) :
  stream_step (extract pre) chunk = extract (pre ++ chunk).
Proof.
  destruct chunk as [|c chunk]; [by rewrite app_nil_r|].
  cbn [stream_step]. rewrite (extract_app pre (c :: chunk)).
  by destruct (extract ((extract pre).2 ++ c :: chunk)).
Qed.

(** X30. The frames that are sent do not depend on how the reads cut
    the output of the process: after any sequence of chunks the frames
    sent and the buffer kept are those of one pass over all the bytes
    read so far. A marker or a frame that lies across two reads is found
    as if it had come in one. *)
Theorem stream_independent_of_chunking (chunks : list (list Z)) :
  stream chunks = extract (concat chunks).
Proof.
  unfold stream. change (concat chunks) with ([] ++ concat chunks).
  change ([], []) with (extract []).
  generalize (@nil Z) as pre.
  induction chunks as [|c chunks IH]; intros pre; cbn [fold_left concat].
  - by rewrite app_nil_r.
  - by rewrite stream_step_extract, IH, app_assoc.
Qed.

End Jpeg.
